(** * Auto Commit Splitter: a shallow embedding of [src/extension.ts]

    The development follows the TypeScript source function by function:
    the porcelain-v2 status parser, the diff parser and the binary-file
    scanner, the snapshot reconciler, the JSON extraction scanner, the
    plan validator and the plan applier.  Calls of the external tool go
    through an oracle with a log, so that what a run executed can be
    stated.

    JavaScript strings are sequences of UTF-16 code units; they are
    modelled as [list N], one number per code unit, so that [trim], [\s]
    and [.] see exactly the characters the engine sees. *)

From Stdlib Require Import NArith ZArith Ascii String List Lia.
From stdpp Require Import base option list gmap.

Local Open Scope N_scope.
#[local] Set Warnings "-clear-no-such-hyp".

(* ================================================================== *)
(** * Part I: the code                                                  *)
(* ================================================================== *)

(** ** JavaScript string primitives *)

Abbreviation jsstring := (list N) (only parsing).

(** A literal of the source, written with an ASCII Rocq string. *)
Definition str (s : string) : jsstring :=
  N_of_ascii <$> list_ascii_of_string s.

(** The single code unit of a one-character ASCII literal. *)
Definition chr (a : ascii) : N := N_of_ascii a.

#[global] Arguments str : simpl never.
#[global] Arguments chr : simpl never.
#[global] Arguments N.eqb : simpl never.
#[global] Arguments N.leb : simpl never.

(** ECMAScript [WhiteSpace] and [LineTerminator] code units: the set
    removed by [String.prototype.trim] and matched by [\s]. *)
Definition isLineTerminator (c : N) : bool :=
  (c =? 10) || (c =? 13) || (c =? 0x2028) || (c =? 0x2029).

Definition isWhiteSpace (c : N) : bool :=
  (c =? 9) || (c =? 11) || (c =? 12) || (c =? 32) || (c =? 160)
  || (c =? 0x1680) || ((0x2000 <=? c) && (c <=? 0x200a))
  || (c =? 0x202f) || (c =? 0x205f) || (c =? 0x3000) || (c =? 0xfeff)
  || isLineTerminator c.

Fixpoint dropWhile {A} (p : A -> bool) (l : list A) : list A :=
  match l with
  | [] => []
  | x :: l' => if p x then dropWhile p l' else l
  end.

(** [s.trimStart()], [s.trimEnd()] and [s.trim()]. *)
Definition trimStart (s : jsstring) : jsstring := dropWhile isWhiteSpace s.
Definition trimEnd (s : jsstring) : jsstring :=
  reverse (dropWhile isWhiteSpace (reverse s)).
Definition trim (s : jsstring) : jsstring := trimEnd (trimStart s).

(** Truthiness of a string value: [Boolean(s)], [if (s)], [!s]. *)
Definition truthy (s : jsstring) : bool :=
  match s with [] => false | _ :: _ => true end.

(** Truthiness of [string | undefined]. *)
Definition truthyOpt (s : option jsstring) : bool :=
  match s with Some s => truthy s | None => false end.

(** [s.startsWith(p)]. *)
Fixpoint startsWith (p s : jsstring) : bool :=
  match p, s with
  | [], _ => true
  | _ :: _, [] => false
  | a :: p', b :: s' => (a =? b) && startsWith p' s'
  end.

(** [s.split(sep)] for a one-character separator: never the empty
    array, ["".split(sep)] is [[""]]. *)
Fixpoint split (sep : N) (s : jsstring) : list jsstring :=
  match s with
  | [] => [[]]
  | c :: s' =>
      if c =? sep then [] :: split sep s'
      else match split sep s' with
           | [] => [[c]]
           | p :: ps => (c :: p) :: ps
           end
  end.

(** [parts.join(sep)]. *)
Fixpoint join (sep : jsstring) (parts : list jsstring) : jsstring :=
  match parts with
  | [] => []
  | [p] => p
  | p :: ps => p ++ sep ++ join sep ps
  end.

(** [s.indexOf(c)] for a one-character needle; [None] stands for -1. *)
Fixpoint indexOf (c : N) (s : jsstring) : option nat :=
  match s with
  | [] => None
  | x :: s' => if x =? c then Some 0%nat else S <$> indexOf c s'
  end.

(** [s.slice(from, to)] for [0 <= from], [0 <= to]. *)
Definition slice (from to : nat) (s : jsstring) : jsstring :=
  take (to - from) (drop from s).

(** ** Data model *)

Inductive FileOpKind := add | delete | rename | copy | binary | typechange.

#[global] Instance FileOpKind_eq_dec : EqDecision FileOpKind.
Proof. solve_decision. Defined.

Definition kindName (k : FileOpKind) : jsstring :=
  match k with
  | add => str "add"
  | delete => str "delete"
  | rename => str "rename"
  | copy => str "copy"
  | binary => str "binary"
  | typechange => str "typechange"
  end.

Module FileOp.
Record t := mk {
  id : jsstring;
  kind : FileOpKind;
  path : jsstring;
  origPath : option jsstring   (* [origPath?: string] *)
}.
End FileOp.

#[global] Instance FileOp_eq_dec : EqDecision FileOp.t.
Proof. solve_decision. Defined.

Module Hunk.
Record t := mk {
  id : jsstring;
  file : jsstring;
  fileHeader : list jsstring;
  hunkLines : list jsstring;
  patchText : jsstring;
  stats : nat * nat              (* [{ add; del }] *)
}.
End Hunk.

(** The source reads [c.hunks ?? []] and [c.ops ?? []] throughout, so a
    missing list behaves as the empty one. *)
Module PlanCommit.
Record t := mk {
  message : jsstring;
  body : option jsstring;        (* [body?: string] *)
  hunks : list jsstring;
  ops : option (list jsstring)   (* [ops?: string[]] *)
}.
End PlanCommit.

Module Plan.
Record t := mk { commits : list PlanCommit.t }.
End Plan.

(** [crypto.createHash("sha1").update(s).digest("hex")]: the digest is
    left abstract, every result below holds for any hash function. *)
Class Sha1 := sha1hex : jsstring -> jsstring.

(** [makeOp(kind, path, origPath?)]. *)
Definition makeOp `{Sha1} (kind : FileOpKind) (path : jsstring)
    (origPath : option jsstring) : FileOp.t :=
  let base := kindName kind ++ str "|" ++ default [] origPath ++ str "|" ++ path in
  let id := str "op" ++ take 10 (sha1hex base) in
  FileOp.mk id kind path origPath.

(** ** StatusParser: [parsePorcelainV2Z] *)

Module Status.
Record t := mk {
  ops : list FileOp.t;
  unsplittablePaths : gset jsstring;
  hasUnmerged : bool
}.
Definition init : t := mk [] ∅ false.
(** [ops.push(op); unsplittablePaths.add(p)]. *)
Definition push (op : FileOp.t) (p : jsstring) (st : t) : t :=
  mk (ops st ++ [op]) ({[ p ]} ∪ unsplittablePaths st) (hasUnmerged st).
Definition setUnmerged (st : t) : t :=
  mk (ops st) (unsplittablePaths st) true.
End Status.

(** The body of the [for] loop for one token [t]; [next] is
    [tokens[i + 1]].  The boolean tells whether the body executed [i++],
    so that the following token is skipped. *)
Definition parseRecord `{Sha1} (t : jsstring) (next : option jsstring)
    (st : Status.t) : Status.t * bool :=
  if negb (truthy t) || startsWith (str "#") t then (st, false)
  else
    let kind := t !! 0%nat in
    if decide (kind = Some (chr "?")) then
      let p := drop 2 t in
      (Status.push (makeOp add p None) p st, false)
    else if decide (kind = Some (chr "u")) then
      (Status.setUnmerged st, false)
    else if decide (kind = Some (chr "1")) then
      let parts := split (chr " ") t in
      if (length parts <? 9)%nat then (st, false)
      else
        let xy := default (str "..") (parts !! 1%nat) in
        let x := default (chr ".") (xy !! 0%nat) in
        let y := default (chr ".") (xy !! 1%nat) in
        let path := join (str " ") (drop 8 parts) in
        if (x =? chr "D") || (y =? chr "D") then
          (Status.push (makeOp delete path None) path st, false)
        else if (x =? chr "T") || (y =? chr "T") then
          (Status.push (makeOp typechange path None) path st, false)
        else (st, false)
    else if decide (kind = Some (chr "2")) then
      let parts := split (chr " ") t in
      if (length parts <? 10)%nat then (st, false)
      else
        let xScore := default [] (parts !! 8%nat) in
        let action := xScore !! 0%nat in
        let path := join (str " ") (drop 9 parts) in
        let origPath := next in
        let skip := truthyOpt origPath in
        if decide (action = Some (chr "R")) then
          (Status.push (makeOp rename path origPath) path st, skip)
        else if decide (action = Some (chr "C")) then
          (Status.push (makeOp copy path origPath) path st, skip)
        else
          (Status.push (makeOp rename path origPath) path st, skip)
    else (st, false).

(** The [for (let i = 0; i < tokens.length; i++)] loop, by recursion on
    the tokens from index [i] on. *)
Fixpoint parseLoop `{Sha1} (tokens : list jsstring) (st : Status.t) : Status.t :=
  match tokens with
  | [] => st
  | t :: rest =>
      let '(st', skip) := parseRecord t (head rest) st in
      match rest with
      | _ :: rest' => if skip then parseLoop rest' st' else parseLoop rest st'
      | [] => st'
      end
  end.

(** [raw.split("\0").filter(Boolean)]. *)
Definition tokensOf (raw : jsstring) : list jsstring :=
  filter (λ t, truthy t = true) (split 0 raw).

Definition parsePorcelainV2Z `{Sha1} (raw : jsstring) : Status.t :=
  parseLoop (tokensOf raw) Status.init.

(** ** Regular expressions

    The source tests commit headers with a regular-expression literal,
    anchored at both ends and free of back-references, so that
    [RegExp.prototype.test] decides membership of the whole string in
    the language of the expression.  [re_test] decides it with
    Brzozowski derivatives. *)

Inductive regex :=
| Void                          (* no string *)
| Eps                           (* the empty string *)
| Class (p : N -> bool)         (* one code unit satisfying [p] *)
| Seq (r1 r2 : regex)
| Alt (r1 r2 : regex)
| Star (r : regex).

(** [r+], [r?], [r{0,n}], [r{n}] and [r{lo,hi}]. *)
Definition Plus (r : regex) : regex := Seq r (Star r).
Definition Opt (r : regex) : regex := Alt r Eps.
Fixpoint Upto (n : nat) (r : regex) : regex :=
  match n with
  | O => Eps
  | S n => Alt (Seq r (Upto n r)) Eps
  end.
Fixpoint Exactly (n : nat) (r : regex) : regex :=
  match n with
  | O => Eps
  | S n => Seq r (Exactly n r)
  end.
Definition Rep (lo hi : nat) (r : regex) : regex :=
  Seq (Exactly lo r) (Upto (hi - lo) r).
Definition Lit (c : N) : regex := Class (N.eqb c).

Fixpoint nullable (r : regex) : bool :=
  match r with
  | Void => false
  | Eps => true
  | Class _ => false
  | Seq r1 r2 => nullable r1 && nullable r2
  | Alt r1 r2 => nullable r1 || nullable r2
  | Star _ => true
  end.

Fixpoint deriv (c : N) (r : regex) : regex :=
  match r with
  | Void => Void
  | Eps => Void
  | Class p => if p c then Eps else Void
  | Seq r1 r2 =>
      if nullable r1 then Alt (Seq (deriv c r1) r2) (deriv c r2)
      else Seq (deriv c r1) r2
  | Alt r1 r2 => Alt (deriv c r1) (deriv c r2)
  | Star r1 => Seq (deriv c r1) (Star r1)
  end.

(** [/^r$/.test(s)]. *)
Fixpoint re_test (r : regex) (s : jsstring) : bool :=
  match s with
  | [] => nullable r
  | c :: s' => re_test (deriv c r) s'
  end.

(** Character classes of the header expression: [[a-z]], [[^)]], [\s]
    and [.] (any code unit but a line terminator: no [s] flag). *)
Definition lowerAZ (c : N) : bool := (97 <=? c) && (c <=? 122).
Definition notRParen (c : N) : bool := negb (c =? chr ")").
Definition dot (c : N) : bool := negb (isLineTerminator c).

(** The literal [/^[a-z]+(\([^)]+\))?:\s.{1,72}$/]. *)
Definition conventionalHeaderRe : regex :=
  Seq (Plus (Class lowerAZ))
   (Seq (Opt (Seq (Lit (chr "(")) (Seq (Plus (Class notRParen)) (Lit (chr ")")))))
    (Seq (Lit (chr ":"))
     (Seq (Class isWhiteSpace)
          (Rep 1 72 (Class dot))))).

(** [isConventionalCommitHeader(s)]. *)
Definition isConventionalCommitHeader (s : jsstring) : bool :=
  re_test conventionalHeaderRe (trim s).

(** ** Errors

    One constructor per [throw new Error(localize(key, ...))] of the
    source, carrying the arguments of the message; [GitFailed] is the
    rejection of [runGit] and [runGitWithStdin]. *)
Inductive Error :=
| EmptyPlan
| EmptyCommitMessage
| EmptyCommitNotAllowed (message : jsstring)
| UnknownHunkId (id : jsstring)
| DuplicateHunkId (id : jsstring)
| UnknownOpId (id : jsstring)
| DuplicateOpId (id : jsstring)
| NotConventionalCommit (message : jsstring)
| MissingItems (missingHunks missingOps : list jsstring)
| ModelDidNotReturnJson
| UnmergedNotSupported
| UnknownHunkIdInPlan (id : jsstring)
| UnknownOpIdInPlan (id : jsstring)
| RenameMissingOrig (id : jsstring)
| NothingStaged (message : jsstring)
| GitFailed (args : list jsstring) (detail : jsstring).

#[global] Instance Error_eq_dec : EqDecision Error.
Proof. solve_decision. Defined.

(** ** PlanValidator: [validatePlan] *)

(** The iteration order of [new Set(l)]: first occurrences, in order. *)
Definition setValues (l : list jsstring) : list jsstring :=
  foldl (λ acc x, if decide (x ∈ acc) then acc else acc ++ [x]) [] l.

(** One [for (const id of ids)] loop of the validator: every id must be
    known and not seen before; the ids are added to the seen set. *)
Fixpoint checkIds (unknown duplicate : jsstring -> Error)
    (all : gset jsstring) (ids : list jsstring) (seen : gset jsstring)
    : Error + gset jsstring :=
  match ids with
  | [] => inr seen
  | id :: ids' =>
      if decide (id ∉ all) then inl (unknown id)
      else if decide (id ∈ seen) then inl (duplicate id)
      else checkIds unknown duplicate all ids' ({[ id ]} ∪ seen)
  end.

(** The body of [for (const c of plan.commits)]. *)
Definition validateCommit (allHunks allOps : gset jsstring) (c : PlanCommit.t)
    (seen : gset jsstring * gset jsstring)
    : Error + (gset jsstring * gset jsstring) :=
  let '(seenHunks, seenOps) := seen in
  if negb (truthy (trim (PlanCommit.message c))) then inl EmptyCommitMessage
  else
    let hasAny :=
      (0 <? length (PlanCommit.hunks c)
            + length (default [] (PlanCommit.ops c)))%nat in
    if negb hasAny then inl (EmptyCommitNotAllowed (PlanCommit.message c))
    else
      match checkIds UnknownHunkId DuplicateHunkId allHunks
                     (PlanCommit.hunks c) seenHunks with
      | inl e => inl e
      | inr seenHunks =>
          match checkIds UnknownOpId DuplicateOpId allOps
                         (default [] (PlanCommit.ops c)) seenOps with
          | inl e => inl e
          | inr seenOps =>
              if negb (isConventionalCommitHeader (PlanCommit.message c))
              then inl (NotConventionalCommit (PlanCommit.message c))
              else inr (seenHunks, seenOps)
          end
      end.

Fixpoint validateCommits (allHunks allOps : gset jsstring)
    (commits : list PlanCommit.t) (seen : gset jsstring * gset jsstring)
    : Error + (gset jsstring * gset jsstring) :=
  match commits with
  | [] => inr seen
  | c :: commits' =>
      match validateCommit allHunks allOps c seen with
      | inl e => inl e
      | inr seen' => validateCommits allHunks allOps commits' seen'
      end
  end.

(** [validatePlan(plan, hunks, ops)]: [inr tt] when it returns, [inl e]
    when it throws. *)
Definition validatePlan (plan : Plan.t) (hunks : list Hunk.t)
    (ops : list FileOp.t) : Error + unit :=
  if decide (Plan.commits plan = []) then inl EmptyPlan
  else
    let hunkIds := Hunk.id <$> hunks in
    let opIds := FileOp.id <$> ops in
    let allHunks : gset jsstring := list_to_set hunkIds in
    let allOps : gset jsstring := list_to_set opIds in
    match validateCommits allHunks allOps (Plan.commits plan) (∅, ∅) with
    | inl e => inl e
    | inr (seenHunks, seenOps) =>
        let missingHunks := filter (λ id, id ∉ seenHunks) (setValues hunkIds) in
        let missingOps := filter (λ id, id ∉ seenOps) (setValues opIds) in
        if decide (missingHunks = [] ∧ missingOps = []) then inr tt
        else inl (MissingItems missingHunks missingOps)
    end.

(** ** Planner boundary: [extractJsonObjectBalanced] *)

Definition quoteC : N := 34.       (* the double quote *)
Definition backslashC : N := 92.
Definition lbraceC : N := 123.
Definition rbraceC : N := 125.

(** The [for (let i = start; i < text.length; i++)] loop: [rest] is the
    text from index [i] on.  Returns the index of the closing brace at
    which the loop returns, [None] when the loop runs off the end. *)
Fixpoint scanJson (rest : jsstring) (i : nat) (depth : Z) (inStr esc : bool)
    : option nat :=
  match rest with
  | [] => None
  | ch :: rest' =>
      if inStr then
        if esc then scanJson rest' (S i) depth true false
        else if ch =? backslashC then scanJson rest' (S i) depth true true
        else if ch =? quoteC then scanJson rest' (S i) depth false esc
        else scanJson rest' (S i) depth true esc
      else if ch =? quoteC then scanJson rest' (S i) depth true esc
      else if ch =? lbraceC then scanJson rest' (S i) (depth + 1)%Z false esc
      else if ch =? rbraceC then
        let depth := (depth - 1)%Z in
        if (depth =? 0)%Z then Some i
        else scanJson rest' (S i) depth false esc
      else scanJson rest' (S i) depth false esc
  end.

Definition extractJsonObjectBalanced (text : jsstring) : Error + jsstring :=
  match indexOf lbraceC text with
  | None => inl ModelDidNotReturnJson
  | Some start =>
      match scanJson (drop start text) start 0%Z false false with
      | Some i => inr (trim (slice start (i + 1) text))
      | None => inl ModelDidNotReturnJson
      end
  end.

(** ** DiffParser and BinaryOpExtractor *)

Definition newline : N := 10.
Definition carriageReturn : N := 13.

Definition consHead (c : N) (parts : list jsstring) : list jsstring :=
  match parts with
  | [] => [[c]]
  | p :: ps => (c :: p) :: ps
  end.

(** [diff.split(/\r?\n/)]: a line ends at a newline, and a carriage
    return right before that newline belongs to the separator. *)
Fixpoint splitLines (s : jsstring) : list jsstring :=
  match s with
  | [] => [[]]
  | c :: s' =>
      if c =? newline then [] :: splitLines s'
      else
        match s' with
        | d :: s'' =>
            if (c =? carriageReturn) && (d =? newline)
            then [] :: splitLines s''
            else consHead c (splitLines s')
        | [] => consHead c (splitLines s')
        end
  end.

(** The regular expression of a literal text. *)
Fixpoint LitStr (s : jsstring) : regex :=
  match s with
  | [] => Eps
  | c :: s' => Seq (Lit c) (LitStr s')
  end.

(** [/ and b\/(.+?) differ$/.exec(l)?.[1]].  The expression is tried at
    each start position from the left; once [ and b/] is read, the rest
    must be a non-empty capture free of line terminators followed by
    [ differ] at the very end of the line, which fixes the capture. *)
Fixpoint binaryDestination (l : jsstring) : option jsstring :=
  match l with
  | [] => None
  | _ :: l' =>
      let rest := drop 7 l in
      if startsWith (str " and b/") l
         && re_test (Seq (Plus (Class dot)) (LitStr (str " differ"))) rest
      then Some (take (length rest - 7) rest)
      else binaryDestination l'
  end.

(** The loop of [extractBinaryOpsFromDiff]; [currentFile] is
    [string | undefined]. *)
Fixpoint binaryOpsLoop `{Sha1} (lines : list jsstring)
    (currentFile : option jsstring) : list FileOp.t :=
  match lines with
  | [] => []
  | l :: lines' =>
      if startsWith (str "diff --git ") l then binaryOpsLoop lines' None
      else if startsWith (str "+++ b/") l
      then binaryOpsLoop lines' (Some (drop 6 l))
      else if startsWith (str "Binary files ") l then
        let m1 := binaryDestination l in
        let path := trim <$> (match m1 with Some p => Some p | None => currentFile end) in
        if truthyOpt path
        then makeOp binary (default [] path) None
             :: binaryOpsLoop lines' currentFile
        else binaryOpsLoop lines' currentFile
      else binaryOpsLoop lines' currentFile
  end.

Definition extractBinaryOpsFromDiff `{Sha1} (diff : jsstring) : list FileOp.t :=
  binaryOpsLoop (splitLines diff) None.

(** [/^diff --git a\/(.+?) b\/(.+)$/.exec(diffLine)?.[2]], after the
    prefix [diff --git a/]: the lazy first group grows one character at
    a time, from one character on and while it stays on the line, until
    [ b/] and a non-empty rest of the line follow; [x] is the length of
    the first group so far. *)
Fixpoint destinationAfter (x : nat) (rest : jsstring) : option jsstring :=
  match rest with
  | [] => None
  | c :: rest' =>
      let y := drop 3 rest in
      if (0 <? x)%nat && startsWith (str " b/") rest
         && truthy y && forallb dot y
      then Some y
      else if dot c then destinationAfter (S x) rest' else None
  end.

(** [guessFileFromDiffHeader(fileHeader)]. *)
Definition guessFileFromDiffHeader (fileHeader : list jsstring)
    : option jsstring :=
  match List.find (startsWith (str "diff --git ")) fileHeader with
  | None => None
  | Some diffLine =>
      if startsWith (str "diff --git a/") diffLine
      then destinationAfter 0 (drop 13 diffLine)
      else None
  end.

(** [calcStats(hunkLines)]: the pair [(add, del)]. *)
Definition calcStats (hunkLines : list jsstring) : nat * nat :=
  foldl (λ '(a, d) l,
      if startsWith (str "+++ ") l || startsWith (str "--- ") l then (a, d)
      else if startsWith (str "+") l then (S a, d)
      else if startsWith (str "-") l then (a, S d)
      else (a, d))
    (0, 0)%nat hunkLines.

(** The hunk pushed when the inner loop over the lines of a hunk ends. *)
Definition makeHunk `{Sha1} (fileHeader : list jsstring) (currentFile : jsstring)
    (hunkLines : list jsstring) : Hunk.t :=
  let stats := calcStats hunkLines in
  let file :=
    if truthy currentFile then currentFile
    else if truthyOpt (guessFileFromDiffHeader fileHeader)
    then default [] (guessFileFromDiffHeader fileHeader)
    else str "UNKNOWN" in
  let id := str "h"
            ++ take 10 (sha1hex (file ++ [newline] ++ join [newline] hunkLines)) in
  Hunk.mk id file fileHeader hunkLines
          (join [newline] (fileHeader ++ hunkLines)) stats.

(** Where the scan of [parseUnifiedDiff] stands: outside any file,
    inside the first inner loop (the meta lines of a file header), or
    inside the second inner loop (the lines of a hunk). *)
Inductive DiffMode :=
| Outside
| InHeader
| InHunk (hunkLines : list jsstring).

Definition flushHunk `{Sha1} (fileHeader : list jsstring) (currentFile : jsstring)
    (mode : DiffMode) : list Hunk.t :=
  match mode with
  | InHunk hunkLines => [makeHunk fileHeader currentFile hunkLines]
  | _ => []
  end.

(** The [while (i < lines.length)] loop of [parseUnifiedDiff], one line
    per step.  Both inner loops stop at a line that starts a file or a
    hunk and hand it back to the outer loop; in one pass that line
    closes the hunk being read, if any, and opens the header or the
    hunk. *)
Fixpoint diffLoop `{Sha1} (lines : list jsstring) (fileHeader : list jsstring)
    (currentFile : jsstring) (mode : DiffMode) : list Hunk.t :=
  match lines with
  | [] => flushHunk fileHeader currentFile mode
  | line :: lines' =>
      if startsWith (str "diff --git ") line then
        flushHunk fileHeader currentFile mode
        ++ diffLoop lines' [line] [] InHeader
      else if startsWith (str "@@ ") line then
        flushHunk fileHeader currentFile mode
        ++ diffLoop lines' fileHeader currentFile (InHunk [line])
      else
        match mode with
        | Outside => diffLoop lines' fileHeader currentFile Outside
        | InHeader =>
            diffLoop lines' (fileHeader ++ [line])
              (if startsWith (str "+++ b/") line then drop 6 line
               else currentFile)
              InHeader
        | InHunk hunkLines =>
            diffLoop lines' fileHeader currentFile (InHunk (hunkLines ++ [line]))
        end
  end.

Definition parseUnifiedDiff `{Sha1} (diff : jsstring) : list Hunk.t :=
  diffLoop (splitLines diff) [] [] Outside.

(** ** The version-control process boundary

    [runGit] and [runGitWithStdin] spawn the external tool.  The tool is
    an oracle over an abstract [World] (repository, index, working tree,
    cancellation token): a call changes the world and either resolves
    with the standard output or rejects.  Every call is appended to a
    log together with its outcome, so that properties can speak about
    the commands a run issued. *)

Module Git.
Record call := Call { args : list jsstring; stdin : option jsstring }.
(** [inl detail]: the promise rejects; [inr out]: it resolves. *)
Abbreviation outcome := (list N + list N)%type (only parsing).
End Git.

Class GitEnv := {
  World : Type;
  spawnGit : Git.call -> World -> World * Git.outcome;
  (** [token.isCancellationRequested] *)
  isCancellationRequested : World -> bool
}.

Record St `{GitEnv} := mkSt {
  world : World;
  log : list (Git.call * Git.outcome)
}.

(** Computations that await external calls and may throw. *)
Definition M `{GitEnv} (A : Type) : Type := St -> St * (Error + A).

Definition ret `{GitEnv} {A} (a : A) : M A := λ st, (st, inr a).
Definition throw `{GitEnv} {A} (e : Error) : M A := λ st, (st, inl e).
Definition bind `{GitEnv} {A B} (m : M A) (k : A -> M B) : M B :=
  λ st, match m st with
        | (st', inl e) => (st', inl e)
        | (st', inr a) => k a st'
        end.
(** [try { m } catch { h }]. *)
Definition tryCatch `{GitEnv} {A} (m : M A) (h : Error -> M A) : M A :=
  λ st, match m st with
        | (st', inl e) => h e st'
        | (st', inr a) => (st', inr a)
        end.
(** A pure step that may throw. *)
Definition lift `{GitEnv} {A} (r : Error + A) : M A := λ st, (st, r).

#[global] Instance M_ret `{GitEnv} : MRet M := λ A, ret.
#[global] Instance M_bind `{GitEnv} : MBind M := λ A B k m, bind m k.

Definition spawn `{GitEnv} (c : Git.call) : M jsstring :=
  λ st,
    let '(w, r) := spawnGit c (world st) in
    let st' := mkSt _ w (log st ++ [(c, r)]) in
    match r with
    | inl detail => (st', inl (GitFailed (Git.args c) detail))
    | inr out => (st', inr out)
    end.

Definition runGit `{GitEnv} (args : list jsstring) : M jsstring :=
  spawn (Git.Call args None).
Definition runGitWithStdin `{GitEnv} (args : list jsstring) (stdin : jsstring)
    : M jsstring :=
  spawn (Git.Call args (Some stdin)).

(** ** PlanApplier: [applyPlan] *)

(** [new Map(items.map(x => [key(x), x]))]: later entries overwrite. *)
Definition byId {V} (key : V -> jsstring) (items : list V) : gmap jsstring V :=
  foldl (λ m x, <[ key x := x ]> m) ∅ items.

(** A [Map] whose iteration order matters: keys in insertion order. *)
Fixpoint mapGet {V} (k : jsstring) (m : list (jsstring * V)) : option V :=
  match m with
  | [] => None
  | (k', v) :: m' => if decide (k' = k) then Some v else mapGet k m'
  end.
Fixpoint mapSet {V} (k : jsstring) (v : V) (m : list (jsstring * V))
    : list (jsstring * V) :=
  match m with
  | [] => [(k, v)]
  | (k', v') :: m' =>
      if decide (k' = k) then (k, v) :: m' else (k', v') :: mapSet k v m'
  end.

Record PatchEntry := mkEntry {
  header : list jsstring;
  entryHunks : list (list jsstring)      (* the field [hunks] *)
}.

#[global] Instance PatchEntry_eq_dec : EqDecision PatchEntry.
Proof. solve_decision. Defined.

(** The loop [for (const hunkId of c.hunks ?? [])] filling
    [patchesByFile]. *)
Fixpoint groupHunks (hunkById : gmap jsstring Hunk.t) (hunkIds : list jsstring)
    (patchesByFile : list (jsstring * PatchEntry))
    : Error + list (jsstring * PatchEntry) :=
  match hunkIds with
  | [] => inr patchesByFile
  | hunkId :: hunkIds' =>
      match hunkById !! hunkId with
      | None => inl (UnknownHunkIdInPlan hunkId)
      | Some h =>
          let entry := default (mkEntry (Hunk.fileHeader h) [])
                               (mapGet (Hunk.file h) patchesByFile) in
          let entry := mkEntry (header entry)
                               (entryHunks entry ++ [Hunk.hunkLines h]) in
          groupHunks hunkById hunkIds'
                     (mapSet (Hunk.file h) entry patchesByFile)
      end
  end.

(** The loop building [patchParts]. *)
Definition patchPartsOf (patchesByFile : list (jsstring * PatchEntry))
    : list jsstring :=
  flat_map (λ '(_, entry),
      join [newline] (header entry)
      :: (join [newline] <$> entryHunks entry) ++ [[]])
    patchesByFile.

(** [s.replace(/\n{3,}/g, "\n\n")].  A match of the greedy [\n{3,}] is
    a maximal run of at least three newlines, and the global replace
    visits the runs from left to right; [pending] counts the newlines of
    the run being read. *)
Definition flushNewlines (pending : nat) : jsstring :=
  if (3 <=? pending)%nat then [newline; newline] else replicate pending newline.

Fixpoint collapseFrom (pending : nat) (s : jsstring) : jsstring :=
  match s with
  | [] => flushNewlines pending
  | c :: s' =>
      if c =? newline then collapseFrom (S pending) s'
      else flushNewlines pending ++ c :: collapseFrom 0 s'
  end.

Definition collapseNewlineRuns (s : jsstring) : jsstring := collapseFrom 0 s.

(** [patchParts.join("\n").replace(/\n{3,}/g, "\n\n")]. *)
Definition patchTextOf (patchParts : list jsstring) : jsstring :=
  collapseNewlineRuns (join [newline] patchParts).

(** The [switch (op.kind)] of the staging loop. *)
Definition stageOp `{GitEnv} (op : FileOp.t) : M unit :=
  match FileOp.kind op with
  | add | binary | typechange =>
      _ ← runGit [str "add"; str "--"; FileOp.path op]; mret tt
  | delete =>
      _ ← runGit [str "add"; str "-u"; str "--"; FileOp.path op]; mret tt
  | rename =>
      if negb (truthyOpt (FileOp.origPath op))
      then throw (RenameMissingOrig (FileOp.id op))
      else _ ← runGit [str "add"; str "-A"; str "--";
                       default [] (FileOp.origPath op); FileOp.path op];
           mret tt
  | copy =>
      _ ← runGit [str "add"; str "--"; FileOp.path op]; mret tt
  end.

(** The loop [for (const opId of c.ops ?? [])]. *)
Fixpoint stageOps `{GitEnv} (opById : gmap jsstring FileOp.t)
    (opIds : list jsstring) : M unit :=
  match opIds with
  | [] => mret tt
  | opId :: opIds' =>
      match opById !! opId with
      | None => throw (UnknownOpIdInPlan opId)
      | Some op => stageOp op;; stageOps opById opIds'
      end
  end.

Definition commitArgsOf (c : PlanCommit.t) : list jsstring :=
  [str "commit"; str "-m"; PlanCommit.message c]
  ++ match PlanCommit.body c with
     | Some b => if truthy b && truthy (trim b) then [str "-m"; trim b] else []
     | None => []
     end.

Definition applyArgs : list jsstring :=
  [str "apply"; str "--cached"; str "--3way"; str "--whitespace=nowarn"; str "-"].
Definition stagedArgs : list jsstring :=
  [str "diff"; str "--cached"; str "--name-only"].

Definition resetArgs : list jsstring := [str "reset"].

(** Step 1 of the loop body, [// 1) hunks stage]: group, build the
    patch, apply it to the index when it is not blank. *)
Definition stageHunks `{GitEnv} (hunkById : gmap jsstring Hunk.t)
    (c : PlanCommit.t) : M unit :=
  patchesByFile ← lift (groupHunks hunkById (PlanCommit.hunks c) []);
  let patchText := patchTextOf (patchPartsOf patchesByFile) in
  if truthy (trim patchText)
  then _ ← runGitWithStdin applyArgs patchText; mret tt
  else mret tt.

(** Step 3, [// 3) commit]: read the staged paths back, refuse an empty
    index, commit. *)
Definition commitStaged `{GitEnv} (c : PlanCommit.t) : M unit :=
  let commitArgs := commitArgsOf c in
  out ← runGit stagedArgs;
  let staged := trim out in
  (if negb (truthy staged)
   then throw (NothingStaged (PlanCommit.message c))
   else mret tt);;
  _ ← runGit commitArgs;
  mret tt.

(** The body of [for (const [i, c] of plan.commits.entries())] after the
    cancellation test: steps 1 to 3 and step 4, the reset.  The closing
    [console.log] has no effect on the repository and is left out. *)
Definition applyCommit `{GitEnv} (hunkById : gmap jsstring Hunk.t)
    (opById : gmap jsstring FileOp.t) (c : PlanCommit.t) : M unit :=
  stageHunks hunkById c;;
  stageOps opById (default [] (PlanCommit.ops c));;
  commitStaged c;;
  _ ← runGit resetArgs;
  mret tt.

Fixpoint applyCommits `{GitEnv} (hunkById : gmap jsstring Hunk.t)
    (opById : gmap jsstring FileOp.t) (commits : list PlanCommit.t) : M unit :=
  match commits with
  | [] => mret tt
  | c :: commits' =>
      λ st,
        if isCancellationRequested (world st) then (st, inr tt)
        else (applyCommit hunkById opById c;;
              applyCommits hunkById opById commits') st
  end.

(** [applyPlan(repoRoot, plan, hunks, ops, token)]. *)
Definition applyPlan `{GitEnv} (plan : Plan.t) (hunks : list Hunk.t)
    (ops : list FileOp.t) : M unit :=
  let hunkById := byId Hunk.id hunks in
  let opById := byId FileOp.id ops in
  applyCommits hunkById opById (Plan.commits plan).

(** ** SnapshotReconciler: [collectWorkingTreeSnapshot] *)

(** [dedupeOps]: a [Map] keyed by id, last write wins, values in the
    order of first insertion. *)
Definition dedupeOps (ops : list FileOp.t) : list FileOp.t :=
  snd <$> foldl (λ m op, mapSet (FileOp.id op) op m) [] ops.

Module Snapshot.
Record t := mk { hunks : list Hunk.t; ops : list FileOp.t }.
End Snapshot.

(** [hasHead(repoRoot)]. *)
Definition hasHead `{GitEnv} : M bool :=
  tryCatch (_ ← runGit [str "rev-parse"; str "--verify"; str "HEAD"]; mret true)
           (λ _, mret false).

(** Lines 150 to 162: merge, dedupe, mark unsplittable, filter. *)
Definition reconcile `{Sha1} (statusOps : list FileOp.t)
    (unsplittablePaths : gset jsstring) (diff : jsstring) : Snapshot.t :=
  let binaryOps := extractBinaryOpsFromDiff diff in
  let opsAll := dedupeOps (statusOps ++ binaryOps) in
  let unsplittablePaths :=
    foldl (λ s op, {[ FileOp.path op ]} ∪ s) unsplittablePaths opsAll in
  let allHunks := parseUnifiedDiff diff in
  let hunks := filter (λ h, Hunk.file h ∉ unsplittablePaths) allHunks in
  Snapshot.mk hunks opsAll.

(** [collectWorkingTreeSnapshot(repoRoot)]; [includeUntracked] is the
    configuration value read at its start. *)
Definition collectWorkingTreeSnapshot `{GitEnv} `{Sha1}
    (includeUntracked : bool) : M Snapshot.t :=
  let untrackedFlag :=
    if includeUntracked then str "--untracked-files=all"
    else str "--untracked-files=no" in
  statusRaw ← runGit [str "--no-optional-locks"; str "status";
                      str "--porcelain=v2"; str "-z"; untrackedFlag];
  let st := parsePorcelainV2Z statusRaw in
  (if Status.hasUnmerged st then throw UnmergedNotSupported else mret tt);;
  headExists ← hasHead;
  let diffArgs :=
    if (headExists : bool)
    then [str "--no-optional-locks"; str "diff"; str "--patch";
          str "--no-color"; str "--no-ext-diff"; str "HEAD"]
    else [str "--no-optional-locks"; str "diff"; str "--patch";
          str "--no-color"; str "--no-ext-diff"] in
  diff ← runGit diffArgs;
  mret (reconcile (Status.ops st) (Status.unsplittablePaths st) diff).

(* ================================================================== *)
(** * Part II: notions used to state the properties                     *)
(* ================================================================== *)

(** A test double for the digest, used to run the parser on examples. *)
Definition fakeSha1 : Sha1 := λ s, s.

(** A record the status parser does not recognise: its marker is none of
    [#], [?], [u], [1], [2], or it is a [1] or [2] record with fewer
    space-separated parts than the record needs. *)
Definition unrecognized (t : jsstring) : Prop :=
  match t with
  | [] => False
  | k :: _ =>
      k ∉ [chr "#"; chr "?"; chr "u"; chr "1"; chr "2"]
      ∨ (k = chr "1" ∧ (length (split (chr " ") t) < 9)%nat)
      ∨ (k = chr "2" ∧ (length (split (chr " ") t) < 10)%nat)
  end.

(** All hunk ids and all operation ids a plan references, commit after
    commit, with repetitions: the multiset union of the [hunks] fields
    and of the [ops] fields. *)
Definition planHunkRefs (plan : Plan.t) : list jsstring :=
  concat (PlanCommit.hunks <$> Plan.commits plan).
Definition planOpRefs (plan : Plan.t) : list jsstring :=
  concat ((λ c, default [] (PlanCommit.ops c)) <$> Plan.commits plan).

(** A small snapshot and a plan over it, used as running example. *)
Module Sample.
Definition h1 : Hunk.t :=
  Hunk.mk (str "h1") (str "a.txt")
    [str "diff --git a/a.txt b/a.txt"; str "--- a/a.txt"; str "+++ b/a.txt"]
    [str "@@ -1 +1 @@"; str "-old"; str "+new"] [] (1, 1)%nat.
Definition h2 : Hunk.t :=
  Hunk.mk (str "h2") (str "a.txt")
    [str "diff --git a/a.txt b/a.txt"; str "--- a/a.txt"; str "+++ b/a.txt"]
    [str "@@ -9 +9 @@"; str "-x"; str "+y"] [] (1, 1)%nat.
Definition opAdd : FileOp.t := FileOp.mk (str "op1") add (str "b.txt") None.
Definition opCopy : FileOp.t :=
  FileOp.mk (str "op2") copy (str "dst.txt") (Some (str "src.txt")).
Definition opRename : FileOp.t :=
  FileOp.mk (str "op3") rename (str "new.txt") (Some (str "old.txt")).
Definition plan : Plan.t :=
  Plan.mk [PlanCommit.mk (str "fix(core): handle null input") None
             [str "h2"] (Some [str "op1"]);
           PlanCommit.mk (str "chore: initial") None [str "h1"] None].
End Sample.

(** The language of a regular expression. *)
Inductive Matches : regex -> jsstring -> Prop :=
| MEps : Matches Eps []
| MClass p c : p c = true → Matches (Class p) [c]
| MSeq r1 r2 s1 s2 :
    Matches r1 s1 → Matches r2 s2 → Matches (Seq r1 r2) (s1 ++ s2)
| MAltL r1 r2 s : Matches r1 s → Matches (Alt r1 r2) s
| MAltR r1 r2 s : Matches r2 s → Matches (Alt r1 r2) s
| MStarNil r : Matches (Star r) []
| MStarApp r s1 s2 :
    Matches r s1 → Matches (Star r) s2 → Matches (Star r) (s1 ++ s2).


(** Brace-balanced text, aware of double-quoted strings.  The body of a
    string is any run of characters in which a backslash escapes the
    character after it and no unescaped quote occurs. *)
Inductive StrBody : jsstring -> Prop :=
| SB_nil : StrBody []
| SB_chr c s :
    c ≠ quoteC → c ≠ backslashC → StrBody s → StrBody (c :: s)
| SB_esc c s : StrBody s → StrBody (backslashC :: c :: s).

(** Text in which every brace outside a string is matched. *)
Inductive Balanced : jsstring -> Prop :=
| B_nil : Balanced []
| B_chr c s :
    c ≠ quoteC → c ≠ lbraceC → c ≠ rbraceC → Balanced s → Balanced (c :: s)
| B_str b s :
    StrBody b → Balanced s → Balanced (quoteC :: b ++ quoteC :: s)
| B_obj i s :
    Balanced i → Balanced s → Balanced (lbraceC :: i ++ rbraceC :: s).

(** [obj] is the balanced object of [text] that begins at the first
    opening brace of [text]; [pre] and [post] are the surrounding
    prose. *)
Definition balancedObjectAtFirstBrace (text obj : jsstring) : Prop :=
  ∃ pre inner post,
    text = pre ++ [lbraceC] ++ inner ++ [rbraceC] ++ post
    ∧ (lbraceC ∉ pre)
    ∧ Balanced inner
    ∧ obj = [lbraceC] ++ inner ++ [rbraceC].

(** Text that closes [n + 1] pending braces: balanced stretches, each
    followed by a closing brace. *)
Inductive Closes : nat -> jsstring -> Prop :=
| Closes_O b : Balanced b → Closes 0 (b ++ [rbraceC])
| Closes_S n b l :
    Balanced b → Closes n l → Closes (S n) (b ++ rbraceC :: l).

(** A planner answer with prose around the object, and with braces and
    an escaped quote inside a string of the object. *)
Module JsonExample.
Definition q : jsstring := [quoteC].
(** The object: an opening brace, the key [m], a string holding a
    closing brace, an escaped quote and an opening brace, then a
    nested empty object and the closing brace. *)
Definition object : jsstring :=
  str "{" ++ q ++ str "m" ++ q ++ str ":" ++ q ++ str "a } "
  ++ [backslashC; quoteC] ++ str " {" ++ q ++ str ",x:{}}".
Definition text : jsstring :=
  str "Sure, here is the plan: " ++ object ++ str " and } more { prose".
End JsonExample.

(** A test double for the process boundary: a repository whose status
    and diff are canned texts; every command succeeds. *)
Module Canned.
Definition statusText : jsstring :=
  str "1 .M N... 100644 100644 100644 abc def a.txt" ++ [0]
  ++ str "? b.txt" ++ [0].
Definition diffText : jsstring :=
  join [newline]
    [str "diff --git a/a.txt b/a.txt"; str "index abc..def 100644";
     str "--- a/a.txt"; str "+++ b/a.txt";
     str "@@ -1 +1 @@"; str "-old"; str "+new";
     str "diff --git a/b.txt b/b.txt"; str "new file mode 100644";
     str "--- /dev/null"; str "+++ b/b.txt";
     str "@@ -0,0 +1 @@"; str "+fresh"; []].
Definition env : GitEnv :=
  {| World := unit;
     spawnGit := λ c w,
       (w, inr (if bool_decide (str "status" ∈ Git.args c) then statusText
                else if bool_decide (str "diff" ∈ Git.args c) then diffText
                else []));
     isCancellationRequested := λ _, false |}.
Definition st0 : St (H := env) := mkSt env tt [].
(** The hunk of [a.txt] as the diff parser builds it. *)
Definition hunkA : Hunk.t :=
  makeHunk (H := fakeSha1)
    [str "diff --git a/a.txt b/a.txt"; str "index abc..def 100644";
     str "--- a/a.txt"; str "+++ b/a.txt"]
    (str "a.txt") [str "@@ -1 +1 @@"; str "-old"; str "+new"].
End Canned.

(** The collapse as the specification words it, on lines: a run of three
    or more consecutive blank lines becomes exactly two blank lines. *)
Definition flushBlankLines (pending : nat) : list jsstring :=
  if (3 <=? pending)%nat then [[]; []] else replicate pending [].

Fixpoint collapseBlankLinesFrom (pending : nat) (lines : list jsstring)
    : list jsstring :=
  match lines with
  | [] => flushBlankLines pending
  | l :: lines' =>
      if decide (l = []) then collapseBlankLinesFrom (S pending) lines'
      else flushBlankLines pending ++ l :: collapseBlankLinesFrom 0 lines'
  end.

Definition patchTextAsWorded (patchParts : list jsstring) : jsstring :=
  join [newline]
    (collapseBlankLinesFrom 0 (split newline (join [newline] patchParts))).

(** The declarative reading of [patchesByFile]: the files of the
    referenced hunks in the order of their first reference, each with the
    header of its first referenced hunk and the line blocks of all its
    referenced hunks, in the order of reference. *)
Definition firstHeader (f : jsstring) (hs : list Hunk.t) : list jsstring :=
  default [] (Hunk.fileHeader <$> head (filter (λ h, Hunk.file h = f) hs)).

Definition groupsOf (hs : list Hunk.t) : list (jsstring * PatchEntry) :=
  (λ f, (f, mkEntry (firstHeader f hs)
              (Hunk.hunkLines <$> filter (λ h, Hunk.file h = f) hs)))
  <$> setValues (Hunk.file <$> hs).

(** A commit over two files in which the hunk of the first file is the
    last hunk of the diff: its lines end with the empty line that follows
    the final newline of the diff text. *)
Module PatchExample.
Definition hLast : Hunk.t :=
  Hunk.mk (str "hZ") (str "z.txt")
    [str "diff --git a/z.txt b/z.txt"; str "--- a/z.txt"; str "+++ b/z.txt"]
    [str "@@ -1 +1 @@"; str "-old"; str "+new"; []] [] (1, 1)%nat.
Definition hFirst : Hunk.t :=
  Hunk.mk (str "hA") (str "a.txt")
    [str "diff --git a/a.txt b/a.txt"; str "--- a/a.txt"; str "+++ b/a.txt"]
    [str "@@ -3 +3 @@"; str "-x"; str "+y"] [] (1, 1)%nat.
Definition hunks : list Hunk.t := [hFirst; hLast].
Definition commit : PlanCommit.t :=
  PlanCommit.mk (str "fix: swap values") None [str "hZ"; str "hA"] None.
Definition nl : jsstring := [newline].
(** What the code sends to the patch command: one blank line between
    the two files. *)
Definition actual : jsstring :=
  str "diff --git a/z.txt b/z.txt" ++ nl ++ str "--- a/z.txt" ++ nl
  ++ str "+++ b/z.txt" ++ nl ++ str "@@ -1 +1 @@" ++ nl ++ str "-old" ++ nl
  ++ str "+new" ++ nl ++ nl
  ++ str "diff --git a/a.txt b/a.txt" ++ nl ++ str "--- a/a.txt" ++ nl
  ++ str "+++ b/a.txt" ++ nl ++ str "@@ -3 +3 @@" ++ nl ++ str "-x" ++ nl
  ++ str "+y" ++ nl.
(** What the wording asks for: the two blank lines between the files are
    fewer than three and stay. *)
Definition worded : jsstring :=
  str "diff --git a/z.txt b/z.txt" ++ nl ++ str "--- a/z.txt" ++ nl
  ++ str "+++ b/z.txt" ++ nl ++ str "@@ -1 +1 @@" ++ nl ++ str "-old" ++ nl
  ++ str "+new" ++ nl ++ nl ++ nl
  ++ str "diff --git a/a.txt b/a.txt" ++ nl ++ str "--- a/a.txt" ++ nl
  ++ str "+++ b/a.txt" ++ nl ++ str "@@ -3 +3 @@" ++ nl ++ str "-x" ++ nl
  ++ str "+y" ++ nl.
End PatchExample.


(** Running exactly one command: what [await runGit(args)] as a whole
    statement does to the state. *)
Definition oneCall `{GitEnv} (c : Git.call) (st : St) : St * (Error + unit) :=
  let '(w, r) := spawnGit c (world st) in
  (mkSt _ w (log st ++ [(c, r)]),
   match r with
   | inl detail => inl (GitFailed (Git.args c) detail)
   | inr _ => inr tt
   end).



(** A repository in which the patch command fails and every other
    command succeeds with empty output. *)
Module ApplyFails.
Definition detail : jsstring := str "error: patch failed".
Definition env : GitEnv :=
  {| World := unit;
     spawnGit := λ c w,
       (w, if bool_decide (str "apply" ∈ Git.args c)
           then inl detail else inr []);
     isCancellationRequested := λ _, false |}.
Definition st0 : St (H := env) := mkSt env tt [].
Definition commit : PlanCommit.t :=
  PlanCommit.mk (str "fix: swap values") None [str "hA"] None.
End ApplyFails.

(** A repository in which every command succeeds, the staged paths read
    back being [listing]. *)
Module Succeeds.
Definition env (listing : jsstring) : GitEnv :=
  {| World := unit;
     spawnGit := λ c w,
       (w, inr (if bool_decide (Git.args c = stagedArgs) then listing else []));
     isCancellationRequested := λ _, false |}.
Definition st0 (listing : jsstring) : St (H := env listing) :=
  mkSt (env listing) tt [].
End Succeeds.

(** The parts of the composite patch, read off the referenced hunks
    [hs]: for each file, in the order of first reference, the header
    lines joined by newlines, then one block per referenced hunk of the
    file, then an empty part. *)
Definition patchPartsFor (hs : list Hunk.t) : list jsstring :=
  flat_map (λ f,
      join [newline] (firstHeader f hs)
      :: ((λ h, join [newline] (Hunk.hunkLines h))
            <$> filter (λ h, Hunk.file h = f) hs)
      ++ [[]])
    (setValues (Hunk.file <$> hs)).

(** ** Notions for the further properties *)

(** What the parser may emit: the operation is built by [makeOp], its
    path is recorded as unsplittable, and it is an add, a delete or a
    type change without source path, or a rename or a copy. *)
Definition statusOpOk `{Sha1} (st : Status.t) (op : FileOp.t) : Prop :=
  FileOp.path op ∈ Status.unsplittablePaths st
  ∧ op = makeOp (FileOp.kind op) (FileOp.path op) (FileOp.origPath op)
  ∧ ((FileOp.origPath op = None
      ∧ FileOp.kind op ∈ [add; delete; typechange])
     ∨ FileOp.kind op ∈ [rename; copy]).


(** What the validator asks of a single commit besides its ids: a
    conventional header and at least one hunk or operation. *)
Definition commitOk (c : PlanCommit.t) : Prop :=
  isConventionalCommitHeader (PlanCommit.message c) = true
  ∧ (PlanCommit.hunks c ≠ [] ∨ default [] (PlanCommit.ops c) ≠ []).

(** [id] occurs at least twice in [l]. *)
Definition occursTwice (id : jsstring) (l : list jsstring) : Prop :=
  ∃ l1 l2 l3, l = l1 ++ id :: l2 ++ id :: l3.

(** The defect of the plan that an error of the validator reports. *)
Definition errorExplained (plan : Plan.t) (hunks : list Hunk.t)
    (ops : list FileOp.t) (e : Error) : Prop :=
  match e with
  | EmptyPlan => Plan.commits plan = []
  | EmptyCommitMessage =>
      ∃ c, c ∈ Plan.commits plan ∧ trim (PlanCommit.message c) = []
  | EmptyCommitNotAllowed m =>
      ∃ c, c ∈ Plan.commits plan ∧ PlanCommit.message c = m
           ∧ PlanCommit.hunks c = [] ∧ default [] (PlanCommit.ops c) = []
  | UnknownHunkId id => id ∈ planHunkRefs plan ∧ id ∉ Hunk.id <$> hunks
  | DuplicateHunkId id => occursTwice id (planHunkRefs plan)
  | UnknownOpId id => id ∈ planOpRefs plan ∧ id ∉ FileOp.id <$> ops
  | DuplicateOpId id => occursTwice id (planOpRefs plan)
  | NotConventionalCommit m =>
      ∃ c, c ∈ Plan.commits plan ∧ PlanCommit.message c = m
           ∧ isConventionalCommitHeader m = false
  | MissingItems missingHunks missingOps =>
      (missingHunks ≠ [] ∨ missingOps ≠ [])
      ∧ (∀ id, id ∈ missingHunks
               ↔ id ∈ Hunk.id <$> hunks ∧ id ∉ planHunkRefs plan)
      ∧ (∀ id, id ∈ missingOps
               ↔ id ∈ FileOp.id <$> ops ∧ id ∉ planOpRefs plan)
  | _ => False
  end.



(** Lines that open a file section or a hunk of a unified diff; both
    inner loops of [parseUnifiedDiff] stop at such a line. *)
Definition startsFile (l : jsstring) : bool := startsWith (str "diff --git ") l.
Definition startsHunk (l : jsstring) : bool := startsWith (str "@@ ") l.
Definition boundary (l : jsstring) : bool := startsFile l || startsHunk l.

(** A file header is empty, or a [diff --git] line with its meta
    lines. *)
Definition headerOk (fileHeader : list jsstring) : Prop :=
  fileHeader = []
  ∨ ∃ d meta, fileHeader = d :: meta ∧ startsFile d = true
              ∧ Forall (λ l, boundary l = false) meta.

(** The lines of a hunk are an [@@] line with the lines up to the next
    boundary. *)
Definition hunkLinesOk (hunkLines : list jsstring) : Prop :=
  ∃ hd body, hunkLines = hd :: body ∧ startsHunk hd = true
             ∧ Forall (λ l, boundary l = false) body.

Definition hunkOk `{Sha1} (h : Hunk.t) : Prop :=
  headerOk (Hunk.fileHeader h)
  ∧ hunkLinesOk (Hunk.hunkLines h)
  ∧ Hunk.file h ≠ []
  ∧ Hunk.id h
    = str "h" ++ take 10 (sha1hex (Hunk.file h ++ [newline]
                                   ++ join [newline] (Hunk.hunkLines h)))
  ∧ Hunk.patchText h = join [newline] (Hunk.fileHeader h ++ Hunk.hunkLines h)
  ∧ Hunk.stats h = calcStats (Hunk.hunkLines h)
  ∧ ((Hunk.stats h).1 + (Hunk.stats h).2 < length (Hunk.hunkLines h))%nat.

(** [currentFile] after the meta lines of a file header: what follows
    [+++ b/] on the last meta line that starts with it, else empty. *)
Definition currentFileOf (meta : list jsstring) : jsstring :=
  default [] (drop 6 <$> last (filter (λ l, startsWith (str "+++ b/") l = true) meta)).

(** One turn of the loop of [calcStats]. *)
Definition statsStep : nat * nat → jsstring → nat * nat :=
  λ '(a, d) l,
    if startsWith (str "+++ ") l || startsWith (str "--- ") l then (a, d)
    else if startsWith (str "+") l then (S a, d)
    else if startsWith (str "-") l then (a, S d)
    else (a, d).

(** The lines read so far in a hunk are those of a hunk. *)
Definition modeOk (mode : DiffMode) : Prop :=
  match mode with
  | InHunk hunkLines => hunkLinesOk hunkLines
  | _ => True
  end.

(** A list of lines is empty or opens with a line that [p] accepts. *)
Definition opensWith (p : jsstring → bool) (lines : list jsstring) : Prop :=
  match lines with
  | [] => True
  | l :: _ => p l = true
  end.

(** A diff of one file with two hunks, and a diff without file header. *)
Module DiffExample.
Definition header : list jsstring :=
  [str "diff --git a/f.txt b/f.txt"; str "--- a/f.txt"; str "+++ b/f.txt"].
Definition first : list jsstring := [str "@@ -1 +1 @@"; str "-a"; str "+b"].
Definition second : list jsstring := [str "@@ -9 +9 @@"; str "-x"; str "+y"].
Definition diff : jsstring := join [newline] (header ++ first ++ second).
Definition headerless : jsstring := join [newline] first.
(** A lookup table for the two hunks of [diff], and a commit that
    references both in the order of the diff. *)
Definition hunkById : gmap jsstring Hunk.t :=
  <[ str "k1" := makeHunk (H := fakeSha1) header (str "f.txt") first ]>
    (<[ str "k2" := makeHunk (H := fakeSha1) header (str "f.txt") second ]> ∅).
Definition commit : PlanCommit.t :=
  PlanCommit.mk (str "fix: both hunks") None [str "k1"; str "k2"] None.
End DiffExample.

(** The diff of a changed binary file. *)
Module BinaryExample.
Definition diff : jsstring :=
  join [newline]
    [str "diff --git a/img.png b/img.png"; str "index 1a2b..3c4d 100644";
     str "Binary files a/img.png and b/img.png differ"; []].
End BinaryExample.

(** No line but the last is empty. *)
Fixpoint blankOnlyAtEnd (lines : list jsstring) : Prop :=
  match lines with
  | [] => True
  | l :: lines' =>
      match lines' with
      | [] => True
      | _ :: _ => l ≠ [] ∧ blankOnlyAtEnd lines'
      end
  end.

(** The argument lists of the three commands of
    [collectWorkingTreeSnapshot]. *)
Definition statusArgs (includeUntracked : bool) : list jsstring :=
  [str "--no-optional-locks"; str "status"; str "--porcelain=v2"; str "-z";
   if includeUntracked then str "--untracked-files=all"
   else str "--untracked-files=no"].
Definition revParseArgs : list jsstring :=
  [str "rev-parse"; str "--verify"; str "HEAD"].
Definition diffArgs (headExists : bool) : list jsstring :=
  if headExists
  then [str "--no-optional-locks"; str "diff"; str "--patch";
        str "--no-color"; str "--no-ext-diff"; str "HEAD"]
  else [str "--no-optional-locks"; str "diff"; str "--patch";
        str "--no-color"; str "--no-ext-diff"].

(** A repository without commits: [rev-parse] fails, the other commands
    answer as in [Canned]. *)
Module NoHead.
Definition detail : jsstring := str "fatal: Needed a single revision".
Definition env : GitEnv :=
  {| World := unit;
     spawnGit := λ c w,
       (w, if bool_decide (str "rev-parse" ∈ Git.args c) then inl detail
           else inr (if bool_decide (str "status" ∈ Git.args c)
                     then Canned.statusText
                     else if bool_decide (str "diff" ∈ Git.args c)
                     then Canned.diffText else []));
     isCancellationRequested := λ _, false |}.
Definition st0 : St (H := env) := mkSt env tt [].
End NoHead.

(** A repository with a conflicted file. *)
Module Conflicted.
Definition statusText : jsstring :=
  str "u UU N... 100644 100644 100644 100644 abc def ghi both.txt" ++ [0].
Definition env : GitEnv :=
  {| World := unit;
     spawnGit := λ c w,
       (w, inr (if bool_decide (str "status" ∈ Git.args c)
                then statusText else []));
     isCancellationRequested := λ _, false |}.
Definition st0 : St (H := env) := mkSt env tt [].
End Conflicted.

(** The [Map] that [dedupeOps] fills. *)
Definition opsMap (ops : list FileOp.t) : list (jsstring * FileOp.t) :=
  foldl (λ m op, mapSet (FileOp.id op) op m) [] ops.


(** A repository in which every command succeeds and the token is
    cancelled from the start. *)
Module Cancelled.
Definition env : GitEnv :=
  {| World := unit;
     spawnGit := λ c w, (w, inr []);
     isCancellationRequested := λ _, true |}.
Definition st0 : St (H := env) := mkSt env tt [].
End Cancelled.

(** The text [makeOp] hashes into the id of an operation. *)
Definition opBase (kind : FileOpKind) (path : jsstring)
    (origPath : option jsstring) : jsstring :=
  kindName kind ++ str "|" ++ default [] origPath ++ str "|" ++ path.
(* ================================================================== *)
(** * Part III: properties                                              *)
(* ================================================================== *)

(** ** String primitives *)

Lemma split_nonempty sep s : split sep s ≠ [].
Proof. destruct s as [|c s]; simpl; [done|]. destruct (c =? sep); [done|]. by destruct (split sep s). Qed.

Lemma split_no_sep sep (a : jsstring) : sep ∉ a → split sep a = [a].
Proof.
  induction a as [|c a IH]; intros Hn; simpl; [done|].
  apply not_elem_of_cons in Hn as [Hc Ha].
  destruct (N.eqb_spec c sep); [congruence|]. by rewrite IH.
Qed.

Lemma split_app_sep sep (a b : jsstring) :
  sep ∉ a → split sep (a ++ sep :: b) = a :: split sep b.
Proof.
  induction a as [|c a IH]; intros Hn; simpl.
  - by rewrite N.eqb_refl.
  - apply not_elem_of_cons in Hn as [Hc Ha].
    destruct (N.eqb_spec c sep); [congruence|]. by rewrite IH.
Qed.

Lemma join_split sep s : join [sep] (split sep s) = s.
Proof.
  induction s as [|c s IH]; simpl; [done|].
  destruct (N.eqb_spec c sep) as [->|Hc].
  - pose proof (split_nonempty sep s) as Hne.
    simpl. destruct (split sep s) as [|p ps]; [done|]. by rewrite IH.
  - pose proof (split_nonempty sep s) as Hne.
    destruct (split sep s) as [|p ps]; [done|]. simpl in *.
    destruct ps; simpl in *; by rewrite <- IH.
Qed.



(** ** StatusParser *)

Section status_parser.
Context `{Sha1}.

Lemma parseLoop_cons_noskip t rest st st' :
  parseRecord t (head rest) st = (st', false) →
  parseLoop (t :: rest) st = parseLoop rest st'.
Proof. intros Hr. simpl. rewrite Hr. by destruct rest. Qed.





(** [C9] The parser is a total function of the status text, and a
    record it does not recognise (a marker other than [#], [?], [u],
    [1], [2], or a [1] or [2] record with too few fields) leaves the
    operations, the unsplittable paths and the conflict flag as they
    were and does not consume the following token; a status text made
    of such records only yields the empty result. *)
Theorem unrecognized_records_ignored :
  (∀ raw : jsstring, ∃ res : Status.t, parsePorcelainV2Z raw = res)
  ∧ (∀ (t : jsstring) (next : option jsstring) (st : Status.t),
       unrecognized t → parseRecord t next st = (st, false))
  ∧ (∀ (t : jsstring) (rest : list jsstring) (st : Status.t),
       unrecognized t → parseLoop (t :: rest) st = parseLoop rest st)
  ∧ (∀ raw : jsstring,
       Forall unrecognized (tokensOf raw) →
       parsePorcelainV2Z raw = Status.init).
Proof.
  assert (∀ t next st, unrecognized t → parseRecord t next st = (st, false))
    as Hrec.
  { intros t next st Hu. unfold parseRecord.
    destruct t as [|k t]; [done|]. cbn [truthy negb orb].
    destruct (startsWith (str "#") (k :: t)); [done|].
    cbn [lookup list_lookup].
    destruct Hu as [Hk|[[-> Hl]|[-> Hl]]].
    - repeat (rewrite decide_False by (intros [= ->]; set_solver)). done.
    - rewrite decide_False by (by intros [=]).
      rewrite decide_False by (by intros [=]).
      rewrite decide_True by done.
      by destruct (Nat.ltb_spec (length (split (chr " ") (chr "1" :: t))) 9);
        [|lia].
    - rewrite decide_False by (by intros [=]).
      rewrite decide_False by (by intros [=]).
      rewrite decide_False by (by intros [=]).
      rewrite decide_True by done.
      by destruct (Nat.ltb_spec (length (split (chr " ") (chr "2" :: t))) 10);
        [|lia]. }
  assert (∀ t rest st, unrecognized t → parseLoop (t :: rest) st = parseLoop rest st)
    as Hloop.
  { intros t rest st Hu. apply parseLoop_cons_noskip. by apply Hrec. }
  split_and!; [by eexists|done|done|].
  intros raw Hall. unfold parsePorcelainV2Z.
  induction Hall as [|t ts Ht _ IH]; [done|]. by rewrite Hloop.
Qed.

End status_parser.


Lemma unrecognized_record_witness :
  parseLoop (H := fakeSha1) [str "! ignored.log"; str "? new.txt"] Status.init
  = parseLoop (H := fakeSha1) [str "? new.txt"] Status.init.
Proof.
  apply (proj1 (proj2 (proj2 (unrecognized_records_ignored (H := fakeSha1))))).
  left. apply (bool_decide_unpack _). vm_compute. exact I.
Defined.

(** ** PlanValidator *)

Lemma elem_of_setValues (l : list jsstring) (x : jsstring) :
  x ∈ setValues l ↔ x ∈ l.
Proof.
  unfold setValues.
  assert (∀ acc, x ∈ foldl (λ acc x, if decide (x ∈ acc) then acc else acc ++ [x])
                         acc l ↔ x ∈ acc ∨ x ∈ l) as Hgen.
  { induction l as [|y l IH]; intros acc; simpl.
    - rewrite elem_of_nil. tauto.
    - rewrite IH, elem_of_cons. case_decide as Hy.
      + split; [tauto|]. intros [?|[->|?]]; tauto.
      + rewrite elem_of_app, list_elem_of_singleton. tauto. }
  rewrite Hgen, elem_of_nil. tauto.
Qed.

(** The invariant of one id loop: on success the ids are pairwise
    distinct, known, new, and exactly those added to the seen set. *)
Lemma checkIds_inr unknown duplicate all ids seen seen' :
  checkIds unknown duplicate all ids seen = inr seen' →
  seen' = list_to_set ids ∪ seen
  ∧ NoDup ids
  ∧ ∀ id, id ∈ ids → id ∈ all ∧ id ∉ seen.
Proof.
  revert seen. induction ids as [|id ids IH]; intros seen Hc; simpl in Hc.
  - injection Hc as <-. split_and!; [set_solver|constructor|set_solver].
  - case_decide as Hall; [done|]. case_decide as Hseen; [done|].
    apply IH in Hc as (-> & Hnd & Hin).
    split_and!.
    + set_solver.
    + constructor; [|done]. intros Hid. apply Hin in Hid. set_solver.
    + intros id' [->|Hid']%elem_of_cons; [done|].
      apply Hin in Hid'. set_solver.
Qed.

Lemma NoDup_app_seen (l1 l2 : list jsstring) (seen : gset jsstring) :
  NoDup l1 → NoDup l2 →
  (∀ id, id ∈ l2 → id ∉ (list_to_set l1 ∪ seen : gset jsstring)) →
  NoDup (l1 ++ l2).
Proof.
  intros H1 H2 Hd. apply NoDup_app. split_and!; [done| |done].
  intros x Hx1 Hx2. apply Hd in Hx2. set_solver.
Qed.

Lemma validateCommits_inr allHunks allOps commits sh so sh' so' :
  validateCommits allHunks allOps commits (sh, so) = inr (sh', so') →
  let hr := concat (PlanCommit.hunks <$> commits) in
  let or := concat ((λ c, default [] (PlanCommit.ops c)) <$> commits) in
  (sh' = list_to_set hr ∪ sh ∧ NoDup hr
   ∧ ∀ id, id ∈ hr → id ∈ allHunks ∧ id ∉ sh)
  ∧ (so' = list_to_set or ∪ so ∧ NoDup or
     ∧ ∀ id, id ∈ or → id ∈ allOps ∧ id ∉ so).
Proof.
  revert sh so. induction commits as [|c commits IH]; intros sh so Hv;
    cbn [validateCommits] in Hv.
  - injection Hv as <- <-. simpl.
    split; (split_and!; [set_solver|constructor|set_solver]).
  - destruct (validateCommit allHunks allOps c (sh, so)) as [e|[sh1 so1]] eqn:Hc;
      [done|].
    apply IH in Hv as [(-> & Hnd1 & Hin1) (-> & Hnd2 & Hin2)].
    unfold validateCommit in Hc.
    destruct (negb (truthy (trim (PlanCommit.message c)))); [done|].
    destruct (negb _); [done|].
    destruct (checkIds UnknownHunkId _ _ _ _) as [|sh2] eqn:Hh; [done|].
    destruct (checkIds UnknownOpId _ _ _ _) as [|so2] eqn:Ho; [done|].
    destruct (negb _); [done|]. injection Hc as <- <-.
    apply checkIds_inr in Hh as (-> & Hnd3 & Hin3).
    apply checkIds_inr in Ho as (-> & Hnd4 & Hin4).
    simpl. split.
    + split_and!.
      * rewrite list_to_set_app_L. set_solver.
      * eapply NoDup_app_seen; [done..|].
        intros id Hid. by apply Hin1 in Hid as [_ ?].
      * intros id [Hid|Hid]%elem_of_app; [by apply Hin3|].
        apply Hin1 in Hid. set_solver.
    + split_and!.
      * rewrite list_to_set_app_L. set_solver.
      * eapply NoDup_app_seen; [done..|].
        intros id Hid. by apply Hin2 in Hid as [_ ?].
      * intros id [Hid|Hid]%elem_of_app; [by apply Hin4|].
        apply Hin2 in Hid. set_solver.
Qed.

Lemma filter_missing_nil (ids : list jsstring) (seen : gset jsstring) :
  filter (λ id, id ∉ seen) (setValues ids) = [] →
  ∀ id, id ∈ ids → id ∈ seen.
Proof.
  intros Hnil id Hid. apply dec_stable. intros Hn.
  apply (filter_nil_not_elem_of (λ id, id ∉ seen) _ id Hnil Hn).
  by apply elem_of_setValues.
Qed.

(** [C1] When [validatePlan] returns, the hunk ids referenced by the
    commits are pairwise distinct (no id is referenced twice, within a
    commit or across commits) and are exactly the hunk ids of the
    snapshot, and likewise for the operation ids.  Hence an unknown id,
    an id referenced twice and a snapshot id that no commit references
    each make validation fail. *)
Theorem validatePlan_exact_partition
    (plan : Plan.t) (hunks : list Hunk.t) (ops : list FileOp.t) :
  validatePlan plan hunks ops = inr tt →
  (NoDup (planHunkRefs plan)
   ∧ ∀ id, id ∈ planHunkRefs plan ↔ id ∈ Hunk.id <$> hunks)
  ∧ (NoDup (planOpRefs plan)
     ∧ ∀ id, id ∈ planOpRefs plan ↔ id ∈ FileOp.id <$> ops).
Proof.
  unfold validatePlan, planHunkRefs, planOpRefs. intros Hv.
  case_decide; [done|].
  destruct (validateCommits _ _ _ _) as [|[sh so]] eqn:Hc; [done|].
  case_decide as Hmiss; [|done]. destruct Hmiss as [Hmh Hmo].
  apply validateCommits_inr in Hc as [(-> & Hnd1 & Hin1) (-> & Hnd2 & Hin2)].
  pose proof (filter_missing_nil _ _ Hmh) as Hcov1.
  pose proof (filter_missing_nil _ _ Hmo) as Hcov2.
  split; (split; [done|]); intros id; split; intros Hid.
  - apply Hin1 in Hid as [Hid _]. by apply elem_of_list_to_set in Hid.
  - apply Hcov1 in Hid. set_solver.
  - apply Hin2 in Hid as [Hid _]. by apply elem_of_list_to_set in Hid.
  - apply Hcov2 in Hid. set_solver.
Qed.

Lemma validatePlan_partition_witness :
  (NoDup (planHunkRefs Sample.plan)
   ∧ ∀ id, id ∈ planHunkRefs Sample.plan
           ↔ id ∈ Hunk.id <$> [Sample.h1; Sample.h2])
  ∧ (NoDup (planOpRefs Sample.plan)
     ∧ ∀ id, id ∈ planOpRefs Sample.plan
             ↔ id ∈ FileOp.id <$> [Sample.opAdd]).
Proof.
  apply (validatePlan_exact_partition Sample.plan
           [Sample.h1; Sample.h2] [Sample.opAdd]).
  vm_compute. reflexivity.
Defined.


(** ** Regular expressions: the derivative matcher decides the language *)

Lemma nullable_spec r : nullable r = true ↔ Matches r [].
Proof.
  induction r as [| |p|r1 IH1 r2 IH2|r1 IH1 r2 IH2|r IH]; simpl.
  - split; [done|]. inversion 1.
  - split; [constructor|done].
  - split; [done|]. inversion 1.
  - rewrite andb_true_iff, IH1, IH2. split.
    + intros [H1 H2]. by apply (MSeq _ _ [] []).
    + inversion 1 as [| |? ? s1 s2 H1 H2| | | |]; subst.
      match goal with
      | Heq : _ ++ _ = [] |- _ => apply app_eq_nil in Heq as [-> ->]
      end. done.
  - rewrite orb_true_iff, IH1, IH2. split.
    + intros [?|?]; [by apply MAltL|by apply MAltR].
    + inversion 1; subst; tauto.
  - split; [constructor|done].
Qed.

Lemma Matches_star_cons r c s :
  Matches (Star r) (c :: s) →
  ∃ s1 s2, s = s1 ++ s2 ∧ Matches r (c :: s1) ∧ Matches (Star r) s2.
Proof.
  intros Hm. remember (Star r) as r' eqn:Hr. remember (c :: s) as s' eqn:Hs.
  revert s Hs.
  induction Hm as [| | | | | |r0 s1 s2 H1 _ H2 IH2]; intros t Ht; try done.
  injection Hr as ->. destruct s1 as [|c1 s1]; simpl in Ht.
  - by apply IH2.
  - injection Ht as -> <-. by exists s1, s2.
Qed.

Lemma deriv_spec r c s : Matches (deriv c r) s ↔ Matches r (c :: s).
Proof.
  revert s. induction r as [| |p|r1 IH1 r2 IH2|r1 IH1 r2 IH2|r IH];
    intros s; simpl.
  - split; inversion 1.
  - split; inversion 1.
  - destruct (p c) eqn:Hp; split.
    + inversion 1; subst. by constructor.
    + inversion 1; subst. constructor.
    + inversion 1.
    + inversion 1; subst. congruence.
  - assert (Matches (Seq (deriv c r1) r2) s →
            Matches (Seq r1 r2) (c :: s)) as Hl.
    { inversion 1 as [| |? ? s1 s2 H1 H2| | | |]; subst.
      apply IH1 in H1. by apply (MSeq _ _ (c :: s1) s2). }
    assert (Matches (Seq r1 r2) (c :: s) →
            Matches (Seq (deriv c r1) r2) s
            ∨ (Matches r1 [] ∧ Matches r2 (c :: s))) as Hr.
    { inversion 1 as [| |? ? s1 s2 H1 H2| | | |]; subst.
      destruct s1 as [|c1 s1]; simplify_eq/=.
      - by right.
      - left. apply MSeq; [by apply IH1|done]. }
    destruct (nullable r1) eqn:Hn.
    + apply nullable_spec in Hn. split.
      * inversion 1; subst; [by apply Hl|].
        apply (MSeq _ _ [] (c :: s)); [done|by apply IH2].
      * intros [?|[_ ?]]%Hr; [by apply MAltL|by apply MAltR, IH2].
    + split; [done|]. intros [?|[Hn' _]]%Hr; [done|].
      apply nullable_spec in Hn'. congruence.
  - split.
    + inversion 1; subst; [apply MAltL, IH1|apply MAltR, IH2]; done.
    + inversion 1; subst; [apply MAltL, IH1|apply MAltR, IH2]; done.
  - split.
    + inversion 1 as [| |? ? s1 s2 H1 H2| | | |]; subst.
      apply IH in H1. by apply (MStarApp _ (c :: s1) s2).
    + intros (s1 & s2 & -> & H1 & H2)%Matches_star_cons.
      apply MSeq; [by apply IH|done].
Qed.

Lemma re_test_spec r s : re_test r s = true ↔ Matches r s.
Proof.
  revert r. induction s as [|c s IH]; intros r; simpl.
  - apply nullable_spec.
  - by rewrite IH, deriv_spec.
Qed.

(** Inversion principles for the derived forms over one class. *)

Lemma Matches_seq r1 r2 s :
  Matches (Seq r1 r2) s ↔ ∃ s1 s2, s = s1 ++ s2 ∧ Matches r1 s1 ∧ Matches r2 s2.
Proof.
  split.
  - inversion 1; subst. eauto.
  - intros (s1 & s2 & -> & ? & ?). by constructor.
Qed.

Lemma Matches_class p s : Matches (Class p) s ↔ ∃ c, s = [c] ∧ p c = true.
Proof.
  split.
  - inversion 1; subst. eauto.
  - intros (c & -> & ?). by constructor.
Qed.

Lemma Matches_lit c s : Matches (Lit c) s ↔ s = [c].
Proof.
  unfold Lit. rewrite Matches_class. split.
  - intros (c' & -> & Hc). by apply N.eqb_eq in Hc as ->.
  - intros ->. exists c. by rewrite N.eqb_refl.
Qed.


Lemma Matches_star_class p s :
  Matches (Star (Class p)) s ↔ Forall (λ c, p c = true) s.
Proof.
  split.
  - intros Hm. remember (Star (Class p)) as r eqn:Hr.
    induction Hm as [| | | | | |r0 s1 s2 H1 _ H2 IH2]; try done.
    injection Hr as ->. inversion H1; subst. constructor; [done|by apply IH2].
  - induction 1 as [|c s Hc _ IH]; [constructor|].
    apply (MStarApp _ [c] s); [by constructor|done].
Qed.

Lemma Matches_plus_class p s :
  Matches (Plus (Class p)) s ↔ s ≠ [] ∧ Forall (λ c, p c = true) s.
Proof.
  unfold Plus. rewrite Matches_seq. split.
  - intros (s1 & s2 & -> & (c & -> & Hc)%Matches_class & H2%Matches_star_class).
    split; [done|]. by constructor.
  - intros [Hne Hall]. destruct Hall as [|c s Hc Hall]; [done|].
    exists [c], s. split_and!; [done|by constructor|by apply Matches_star_class].
Qed.





(** ** The commit-header check *)







(** ** Planner boundary: the balanced-object scanner *)

Lemma indexOf_Some c (s : jsstring) i :
  indexOf c s = Some i →
  ∃ pre rest, s = pre ++ c :: rest ∧ (c ∉ pre) ∧ length pre = i.
Proof.
  revert i. induction s as [|x s IH]; intros i Hi; simpl in Hi; [done|].
  destruct (N.eqb_spec x c) as [->|Hx].
  - injection Hi as <-. exists [], s. split_and!; [done|apply not_elem_of_nil|done].
  - destruct (indexOf c s) as [k|]; [|done]. injection Hi as <-.
    destruct (IH k eq_refl) as (pre & rest & -> & Hpre & <-).
    exists (x :: pre), rest. split_and!; [done| |done].
    apply not_elem_of_cons. by split.
Qed.

Lemma indexOf_app c (pre rest : jsstring) :
  c ∉ pre → indexOf c (pre ++ c :: rest) = Some (length pre).
Proof.
  induction pre as [|x pre IH]; intros Hn; simpl.
  - by rewrite N.eqb_refl.
  - apply not_elem_of_cons in Hn as [Hx Hn].
    destruct (N.eqb_spec x c); [congruence|]. by rewrite IH.
Qed.

Lemma indexOf_None c (s : jsstring) : indexOf c s = None → c ∉ s.
Proof.
  induction s as [|x s IH]; simpl; intros Hi; [apply not_elem_of_nil|].
  destruct (N.eqb_spec x c) as [->|Hx]; [done|].
  destruct (indexOf c s); [done|].
  apply not_elem_of_cons. split; [done|by apply IH].
Qed.

Lemma Balanced_app a b : Balanced a → Balanced b → Balanced (a ++ b).
Proof.
  intros Ha Hb. induction Ha as [|c s ? ? ? _ IH|s1 s2 ? _ IH|i s ? _ _ IH];
    simpl; [done|by apply B_chr|..].
  - rewrite <- app_assoc. simpl. by apply B_str.
  - rewrite <- app_assoc. simpl. by apply B_obj.
Qed.

(** A closing text stays closing when balanced text is put in front. *)
Lemma Closes_prepend (x : jsstring) n l :
  (∀ s, Balanced s → Balanced (x ++ s)) → Closes n l → Closes n (x ++ l).
Proof.
  intros Hx Hl. destruct Hl as [b Hb|n b l Hb Hl]; rewrite app_assoc.
  - apply Closes_O. by apply Hx.
  - apply Closes_S; [by apply Hx|done].
Qed.

Lemma Closes_cons_chr c n l :
  c ≠ quoteC → c ≠ lbraceC → c ≠ rbraceC → Closes n l → Closes n (c :: l).
Proof.
  intros ? ? ? Hl. apply (Closes_prepend [c]); [|done].
  intros s Hs. simpl. by apply B_chr.
Qed.

Lemma Closes_cons_str b n l :
  StrBody b → Closes n l → Closes n (quoteC :: b ++ quoteC :: l).
Proof.
  intros Hb Hl.
  replace (quoteC :: b ++ quoteC :: l) with ((quoteC :: b ++ [quoteC]) ++ l)
    by (simpl; by rewrite <- app_assoc).
  apply Closes_prepend; [|done].
  intros s Hs. simpl. rewrite <- app_assoc. simpl. by apply B_str.
Qed.

Lemma Closes_open n l : Closes (S n) l → Closes n (lbraceC :: l).
Proof.
  inversion 1 as [|n' b l' Hb Hl']; subst.
  replace (lbraceC :: b ++ rbraceC :: l')
    with ((lbraceC :: b ++ [rbraceC]) ++ l')
    by (simpl; by rewrite <- app_assoc).
  apply Closes_prepend; [|done].
  intros s Hs. simpl. rewrite <- app_assoc. simpl. by apply B_obj.
Qed.

(** The scanner reads a string body up to its closing quote... *)
Lemma scanJson_strbody b :
  StrBody b → ∀ rest i d,
  scanJson (b ++ quoteC :: rest) i d true false
  = scanJson rest (i + length b + 1) d false false.
Proof.
  induction 1 as [|c s Hq Hb _ IH|c s _ IH]; intros rest i d.
  - cbn [app scanJson length]. change (quoteC =? backslashC) with false.
    rewrite N.eqb_refl. f_equal. lia.
  - cbn [app scanJson length].
    destruct (N.eqb_spec c backslashC); [done|].
    destruct (N.eqb_spec c quoteC); [done|].
    rewrite IH. f_equal. lia.
  - cbn [app scanJson length]. rewrite N.eqb_refl.
    rewrite IH. f_equal. lia.
Qed.

(** ... and reads balanced text without changing the depth. *)
Lemma scanJson_balanced inner :
  Balanced inner → ∀ rest i d, (0 < d)%Z →
  scanJson (inner ++ rest) i d false false
  = scanJson rest (i + length inner) d false false.
Proof.
  induction 1 as [|c s Hq Hl Hr _ IH|b s Hb _ IH|inner s _ IHi _ IH];
    intros rest i d Hd.
  - cbn [app length]. f_equal. lia.
  - cbn [app scanJson length].
    destruct (N.eqb_spec c quoteC); [done|].
    destruct (N.eqb_spec c lbraceC); [done|].
    destruct (N.eqb_spec c rbraceC); [done|].
    rewrite IH by done. f_equal. lia.
  - cbn [app scanJson length]. rewrite N.eqb_refl.
    rewrite <- app_assoc. cbn [app].
    rewrite scanJson_strbody, IH by done.
    rewrite length_app. cbn [length]. f_equal. lia.
  - cbn [app scanJson length]. change (lbraceC =? quoteC) with false.
    rewrite N.eqb_refl. rewrite <- app_assoc. cbn [app].
    rewrite IHi by lia. cbn [scanJson].
    change (rbraceC =? quoteC) with false.
    change (rbraceC =? lbraceC) with false. rewrite N.eqb_refl. cbn zeta.
    destruct (Z.eqb_spec (d + 1 - 1) 0) as [|_]; [lia|].
    replace (d + 1 - 1)%Z with d by lia.
    rewrite IH by done. rewrite length_app. cbn [length]. f_equal. lia.
Qed.

(** Conversely, whatever makes the scanner return is closing text.  The
    three statements follow the three states of the scanner: outside a
    string, inside a string, and inside a string after a backslash. *)
Lemma scanJson_Some rest :
  ∀ (i : nat) (n : nat) (j : nat),
  (scanJson rest i (Z.of_nat (S n)) false false = Some j →
   ∃ l post, rest = l ++ post ∧ Closes n l ∧ (j + 1 = i + length l)%nat)
  ∧ (scanJson rest i (Z.of_nat (S n)) true false = Some j →
     ∃ b l post, rest = b ++ quoteC :: l ++ post ∧ StrBody b ∧ Closes n l
                 ∧ (j + 1 = i + length b + 1 + length l)%nat)
  ∧ (scanJson rest i (Z.of_nat (S n)) true true = Some j →
     ∃ c b l post, rest = c :: b ++ quoteC :: l ++ post ∧ StrBody b
                   ∧ Closes n l
                   ∧ (j + 1 = i + 1 + length b + 1 + length l)%nat).
Proof.
  induction rest as [|ch rest IH]; intros i n j; [by split_and!|].
  cbn [scanJson]. split_and!.
  - destruct (N.eqb_spec ch quoteC) as [->|Hq].
    { intros (b & l & post & -> & Hb & Hl & Hj)%IH.
      exists (quoteC :: b ++ quoteC :: l), post. split_and!.
      - simpl. by rewrite <- app_assoc.
      - by apply Closes_cons_str.
      - simpl. rewrite length_app. simpl. lia. }
    destruct (N.eqb_spec ch lbraceC) as [->|Hlb].
    { replace (Z.of_nat (S n) + 1)%Z with (Z.of_nat (S (S n))) by lia.
      intros (l & post & -> & Hl & Hj)%IH.
      exists (lbraceC :: l), post. split_and!;
        [done|by apply Closes_open|simpl; lia]. }
    destruct (N.eqb_spec ch rbraceC) as [->|Hrb].
    { cbn zeta. destruct n as [|n].
      - change (Z.of_nat 1 - 1 =? 0)%Z with true. intros [= <-].
        exists [rbraceC], rest. split_and!; [done| |simpl; lia].
        apply (Closes_O []). constructor.
      - destruct (Z.eqb_spec (Z.of_nat (S (S n)) - 1) 0) as [|_]; [lia|].
        replace (Z.of_nat (S (S n)) - 1)%Z with (Z.of_nat (S n)) by lia.
        intros (l & post & -> & Hl & Hj)%IH.
        exists (rbraceC :: l), post. split_and!; [done| |simpl; lia].
        apply (Closes_S _ []); [constructor|done]. }
    intros (l & post & -> & Hl & Hj)%IH.
    exists (ch :: l), post. split_and!;
      [done|by apply Closes_cons_chr|simpl; lia].
  - destruct (N.eqb_spec ch backslashC) as [->|Hbs].
    { intros (c & b & l & post & -> & Hb & Hl & Hj)%IH.
      exists (backslashC :: c :: b), l, post. split_and!;
        [done|by apply SB_esc|done|simpl; lia]. }
    destruct (N.eqb_spec ch quoteC) as [->|Hq].
    { intros (l & post & -> & Hl & Hj)%IH.
      exists [], l, post. split_and!; [done|constructor|done|simpl; lia]. }
    intros (b & l & post & -> & Hb & Hl & Hj)%IH.
    exists (ch :: b), l, post. split_and!;
      [done|by apply SB_chr|done|simpl; lia].
  - intros (b & l & post & -> & Hb & Hl & Hj)%IH.
    exists ch, b, l, post. split_and!; [done..|lia].
Qed.

Lemma trim_nonws_ends (a b : N) (m : jsstring) :
  isWhiteSpace a = false → isWhiteSpace b = false →
  trim (a :: m ++ [b]) = a :: m ++ [b].
Proof.
  intros Ha Hb. unfold trim, trimStart, trimEnd. cbn [dropWhile]. rewrite Ha.
  rewrite app_comm_cons, reverse_snoc. cbn [dropWhile]. rewrite Hb.
  by rewrite <- reverse_snoc, reverse_involutive.
Qed.

Lemma extractJson_inr text obj :
  extractJsonObjectBalanced text = inr obj ↔ balancedObjectAtFirstBrace text obj.
Proof.
  unfold extractJsonObjectBalanced, balancedObjectAtFirstBrace. split.
  - destruct (indexOf lbraceC text) as [start|] eqn:Hstart; [|done].
    apply indexOf_Some in Hstart as (pre & rest & -> & Hpre & <-).
    rewrite drop_app_length. cbn [scanJson].
    change (lbraceC =? quoteC) with false. rewrite N.eqb_refl.
    change (0 + 1)%Z with (Z.of_nat 1).
    destruct (scanJson rest _ _ _ _) as [i|] eqn:Hscan; [|done].
    apply scanJson_Some in Hscan as (l & post & -> & Hl & Hi).
    inversion Hl as [inner Hinner|]; subst.
    intros [= <-]. exists pre, inner, post. split_and!; [|done..|].
    + simpl. by rewrite <- app_assoc.
    + unfold slice. rewrite drop_app_length.
      replace (i + 1 - length pre)%nat
        with (length (lbraceC :: inner ++ [rbraceC])) by (simpl; lia).
      rewrite (app_comm_cons _ post), take_app_length.
      by apply trim_nonws_ends.
  - intros (pre & inner & post & -> & Hpre & Hinner & ->).
    cbn [app]. rewrite indexOf_app by done. rewrite drop_app_length.
    cbn [scanJson]. change (lbraceC =? quoteC) with false.
    rewrite N.eqb_refl. rewrite scanJson_balanced by done.
    cbn [scanJson]. change (rbraceC =? quoteC) with false.
    change (rbraceC =? lbraceC) with false. rewrite N.eqb_refl.
    cbn zeta. change (0 + 1 - 1 =? 0)%Z with true. cbn iota.
    f_equal. unfold slice. rewrite drop_app_length.
    replace (S (length pre) + length inner + 1 - length pre)%nat
      with (length (lbraceC :: inner ++ [rbraceC]))
      by (simpl; rewrite length_app; simpl; lia).
    replace (lbraceC :: inner ++ rbraceC :: post)
      with ((lbraceC :: inner ++ [rbraceC]) ++ post)
      by (simpl; by rewrite <- app_assoc).
    rewrite take_app_length. by apply trim_nonws_ends.
Qed.

Lemma extractJson_error text e :
  extractJsonObjectBalanced text = inl e → e = ModelDidNotReturnJson.
Proof.
  unfold extractJsonObjectBalanced.
  destruct (indexOf lbraceC text); [|by intros [= <-]].
  destruct (scanJson _ _ _ _ _); [done|by intros [= <-]].
Qed.

(** [C8] The extraction returns [obj] exactly when [obj] is the
    brace-balanced object that starts at the first opening brace of the
    text, braces inside double-quoted strings (escaped quotes included)
    not counting, whatever prose surrounds it; it fails, with the
    error of a model that did not return JSON, exactly when no balanced
    object starts there. *)
Theorem extractJson_first_balanced_object :
  (∀ text obj : jsstring,
     extractJsonObjectBalanced text = inr obj
     ↔ balancedObjectAtFirstBrace text obj)
  ∧ (∀ text : jsstring,
       extractJsonObjectBalanced text = inl ModelDidNotReturnJson
       ↔ ¬ ∃ obj, balancedObjectAtFirstBrace text obj)
  ∧ extractJsonObjectBalanced JsonExample.text = inr JsonExample.object.
Proof.
  split_and!.
  - apply extractJson_inr.
  - intros text. split.
    + intros He [obj Hobj]. apply extractJson_inr in Hobj. congruence.
    + intros Hn. destruct (extractJsonObjectBalanced text) as [e|obj] eqn:He.
      * by apply extractJson_error in He as ->.
      * exfalso. apply Hn. exists obj. by apply extractJson_inr.
  - vm_compute. reflexivity.
Qed.

Lemma extractJson_witness :
  balancedObjectAtFirstBrace JsonExample.text JsonExample.object.
Proof.
  apply (proj1 extractJson_first_balanced_object). vm_compute. reflexivity.
Defined.

(** ** The monad of awaited calls *)

Section monad.
Context `{GitEnv}.

Lemma bind_unfold {A B} (m : M A) (k : A → M B) st :
  (m ≫= k) st = match m st with
                | (st', inl e) => (st', inl e)
                | (st', inr a) => k a st'
                end.
Proof. reflexivity. Qed.

Lemma bind_inr {A B} (m : M A) (k : A → M B) st st' b :
  (m ≫= k) st = (st', inr b) →
  ∃ a st1, m st = (st1, inr a) ∧ k a st1 = (st', inr b).
Proof.
  rewrite bind_unfold. destruct (m st) as [st1 [e|a]]; [done|]. eauto.
Qed.

Lemma bind_inl {A B} (m : M A) (k : A → M B) st st' e :
  (m ≫= k) st = (st', inl e) →
  m st = (st', inl e)
  ∨ ∃ a st1, m st = (st1, inr a) ∧ k a st1 = (st', inl e).
Proof.
  rewrite bind_unfold. destruct (m st) as [st1 [e'|a]]; [|by eauto].
  intros [= <- <-]. by left.
Qed.
End monad.

(** ** SnapshotReconciler *)

Lemma elem_of_unsplittable (ops : list FileOp.t) (base : gset jsstring) p :
  p ∈ foldl (λ s op, {[ FileOp.path op ]} ∪ s) base ops
  ↔ p ∈ base ∨ ∃ op, op ∈ ops ∧ FileOp.path op = p.
Proof.
  revert base. induction ops as [|op ops IH]; intros base; simpl.
  - split; [by left|]. intros [?|(? & []%elem_of_nil & _)]. done.
  - rewrite IH, elem_of_union, elem_of_singleton. split.
    + intros [[->|?]|(op' & ? & ?)]; [right|by left|right].
      * exists op. split; [apply elem_of_cons; by left|done].
      * exists op'. split; [apply elem_of_cons; by right|done].
    + intros [?|(op' & [->|?]%elem_of_cons & <-)];
        [by left; right|by left; left|right; by exists op'].
Qed.

Lemma reconcile_exclusive `{Sha1} statusOps paths diff h op :
  h ∈ Snapshot.hunks (reconcile statusOps paths diff) →
  op ∈ Snapshot.ops (reconcile statusOps paths diff) →
  Hunk.file h ≠ FileOp.path op.
Proof.
  unfold reconcile. cbn [Snapshot.hunks Snapshot.ops].
  intros [Hh _]%list_elem_of_filter Hop Heq. apply Hh.
  apply elem_of_unsplittable. right. by exists op.
Qed.

(** [C7] In every snapshot that [collectWorkingTreeSnapshot] returns, no
    hunk has a [file] equal to the [path] of an operation of the same
    snapshot, whatever the status text and the diff are. *)
Theorem snapshot_unsplittable_exclusive
    `{GitEnv} `{Sha1} (includeUntracked : bool)
    (st st' : St) (snapshot : Snapshot.t) :
  collectWorkingTreeSnapshot includeUntracked st = (st', inr snapshot) →
  ∀ h op, h ∈ Snapshot.hunks snapshot → op ∈ Snapshot.ops snapshot →
          Hunk.file h ≠ FileOp.path op.
Proof.
  unfold collectWorkingTreeSnapshot.
  intros (statusRaw & st1 & _ & Hk)%bind_inr.
  apply bind_inr in Hk as (_ & st2 & _ & Hk).
  apply bind_inr in Hk as (headExists & st3 & _ & Hk).
  apply bind_inr in Hk as (diff & st4 & _ & Hk).
  injection Hk as _ <-. intros h op. apply reconcile_exclusive.
Qed.

Lemma snapshot_exclusive_witness :
  collectWorkingTreeSnapshot
    (H := Canned.env) (H0 := fakeSha1) true Canned.st0
  = (mkSt Canned.env tt
       (log (fst (collectWorkingTreeSnapshot
          (H := Canned.env) (H0 := fakeSha1)
          true Canned.st0))),
     inr (Snapshot.mk [Canned.hunkA]
            [makeOp (H := fakeSha1) add (str "b.txt") None]))
  ∧ Hunk.file Canned.hunkA
    ≠ FileOp.path (makeOp (H := fakeSha1) add (str "b.txt") None).
Proof.
  assert (collectWorkingTreeSnapshot
    (H := Canned.env) (H0 := fakeSha1) true Canned.st0
  = (mkSt Canned.env tt
       (log (fst (collectWorkingTreeSnapshot
          (H := Canned.env) (H0 := fakeSha1)
          true Canned.st0))),
     inr (Snapshot.mk [Canned.hunkA]
            [makeOp (H := fakeSha1) add (str "b.txt") None]))) as Hrun
    by (vm_compute; reflexivity).
  split; [exact Hrun|].
  apply (snapshot_unsplittable_exclusive
           (H := Canned.env) (H0 := fakeSha1)
           true Canned.st0 _ _ Hrun).
  - apply list_elem_of_here.
  - apply list_elem_of_here.
Defined.

(** ** PlanApplier: the composite patch *)

(** *** Collapsing newline runs *)

Lemma flushNewlines_min k : flushNewlines k = replicate (k `min` 2) newline.
Proof.
  unfold flushNewlines. destruct (Nat.leb_spec 3 k).
  - by replace (k `min` 2)%nat with 2%nat by lia.
  - by replace (k `min` 2)%nat with k by lia.
Qed.

Lemma collapseFrom_newlines p k rest :
  collapseFrom p (replicate k newline ++ rest) = collapseFrom (p + k) rest.
Proof.
  revert p. induction k as [|k IH]; intros p; cbn [replicate app collapseFrom].
  - f_equal. lia.
  - rewrite N.eqb_refl, IH. f_equal. lia.
Qed.

Lemma collapseFrom_split p a c b :
  c ≠ newline →
  collapseFrom p (a ++ c :: b) = collapseFrom p a ++ c :: collapseFrom 0 b.
Proof.
  intros Hc. revert p. induction a as [|x a IH]; intros p; cbn [app collapseFrom].
  - by destruct (N.eqb_spec c newline).
  - destruct (N.eqb_spec x newline); [done|].
    by rewrite IH, <- app_assoc.
Qed.

Lemma collapse_newlines k :
  collapseNewlineRuns (replicate k newline) = replicate (k `min` 2) newline.
Proof.
  unfold collapseNewlineRuns.
  rewrite <- (app_nil_r (replicate k newline)), collapseFrom_newlines.
  apply flushNewlines_min.
Qed.

Lemma collapse_split a c b :
  c ≠ newline →
  collapseNewlineRuns (a ++ c :: b)
  = collapseNewlineRuns a ++ c :: collapseNewlineRuns b.
Proof. apply collapseFrom_split. Qed.

(** A maximal run of [k] newlines, between text that does not end and
    text that does not begin with a newline, becomes [min k 2] newlines. *)
Lemma collapse_maximal_run (a b : jsstring) k :
  last a ≠ Some newline → head b ≠ Some newline →
  collapseNewlineRuns (a ++ replicate k newline ++ b)
  = collapseNewlineRuns a ++ replicate (k `min` 2) newline
    ++ collapseNewlineRuns b.
Proof.
  intros Ha Hb.
  assert (collapseNewlineRuns (replicate k newline ++ b)
          = replicate (k `min` 2) newline ++ collapseNewlineRuns b) as Hright.
  { destruct b as [|y b].
    - rewrite !app_nil_r. apply collapse_newlines.
    - assert (y ≠ newline) as Hy by (intros ->; by apply Hb).
      pose proof (collapse_split [] y b Hy) as Hyb.
      change (collapseNewlineRuns (y :: b) = y :: collapseNewlineRuns b) in Hyb.
      by rewrite collapse_split, collapse_newlines, Hyb by done. }
  destruct a as [|x a _] using rev_ind; [exact Hright|].
  rewrite last_snoc in Ha. rewrite <- !app_assoc. cbn [app].
  rewrite !collapse_split by (intros ->; by apply Ha).
  rewrite Hright. change (collapseNewlineRuns []) with (@nil N).
  by rewrite <- app_assoc.
Qed.

(** *** Grouping the referenced hunks by file *)

Lemma setValues_snoc (l : list jsstring) x :
  setValues (l ++ [x]) = if decide (x ∈ l) then setValues l else setValues l ++ [x].
Proof.
  unfold setValues at 1. rewrite foldl_snoc. fold (setValues l).
  destruct (decide (x ∈ setValues l)) as [Hin|Hin],
           (decide (x ∈ l)) as [Hin'|Hin']; try done;
    rewrite elem_of_setValues in Hin; done.
Qed.

Lemma NoDup_setValues (l : list jsstring) : NoDup (setValues l).
Proof.
  induction l as [|x l IH] using rev_ind; [constructor|].
  rewrite setValues_snoc. case_decide as Hx; [done|].
  apply NoDup_app. split_and!; [done| |apply NoDup_singleton].
  intros y Hy ->%list_elem_of_singleton. by apply Hx, elem_of_setValues.
Qed.

Section keyed.
Context {V : Type} (g : jsstring → V).

Lemma mapGet_keyed (keys : list jsstring) f :
  mapGet f ((λ k, (k, g k)) <$> keys)
  = if decide (f ∈ keys) then Some (g f) else None.
Proof.
  induction keys as [|k keys IH]; cbn [fmap list_fmap mapGet].
  - by rewrite decide_False by apply not_elem_of_nil.
  - destruct (decide (k = f)) as [->|Hk].
    + by rewrite decide_True by apply list_elem_of_here.
    + rewrite IH. destruct (decide (f ∈ keys)) as [Hin|Hin].
      * by rewrite decide_True by (by apply list_elem_of_further).
      * rewrite decide_False; [done|].
        intros [->|?]%elem_of_cons; done.
Qed.

Lemma mapSet_keyed_in (keys : list jsstring) f v :
  f ∈ keys → NoDup keys →
  mapSet f v ((λ k, (k, g k)) <$> keys)
  = (λ k, (k, if decide (k = f) then v else g k)) <$> keys.
Proof.
  induction keys as [|k keys IH]; intros Hin Hnd; [by apply elem_of_nil in Hin|].
  apply NoDup_cons in Hnd as [Hk Hnd]. cbn [fmap list_fmap mapSet].
  destruct (decide (k = f)) as [->|Hkf].
  - f_equal. apply list_fmap_ext. intros i k' Hk'.
    rewrite decide_False; [done|]. intros ->.
    by apply list_elem_of_lookup_2 in Hk'.
  - f_equal. apply IH; [|done].
    apply elem_of_cons in Hin as [->|?]; done.
Qed.

Lemma mapSet_keyed_notin (keys : list jsstring) f v :
  f ∉ keys →
  mapSet f v ((λ k, (k, g k)) <$> keys) = ((λ k, (k, g k)) <$> keys) ++ [(f, v)].
Proof.
  induction keys as [|k keys IH]; intros Hin; [done|].
  apply not_elem_of_cons in Hin as [Hk Hin]. cbn [fmap list_fmap mapSet app].
  rewrite decide_False by done. f_equal. by apply IH.
Qed.
End keyed.

Lemma filter_file_nil (hs : list Hunk.t) f :
  f ∉ Hunk.file <$> hs → filter (λ h, Hunk.file h = f) hs = [].
Proof.
  induction hs as [|h hs IH]; intros Hn; [done|].
  cbn [fmap list_fmap] in Hn. apply not_elem_of_cons in Hn as [Hh Hn].
  rewrite filter_cons_False by done. by apply IH.
Qed.

Lemma filter_file_cons (hs : list Hunk.t) f :
  f ∈ Hunk.file <$> hs → ∃ h hs', filter (λ h, Hunk.file h = f) hs = h :: hs'.
Proof.
  intros (h & -> & Hh)%list_elem_of_fmap.
  destruct (filter (λ h0, Hunk.file h0 = Hunk.file h) hs) as [|h' hs'] eqn:Hf;
    [|by eauto].
  exfalso. by eapply (filter_nil_not_elem_of _ _ h Hf).
Qed.

(** One turn of the grouping loop adds the hunk to the declarative
    grouping. *)
Lemma groupsOf_snoc (hs : list Hunk.t) (h : Hunk.t) :
  let entry := default (mkEntry (Hunk.fileHeader h) [])
                       (mapGet (Hunk.file h) (groupsOf hs)) in
  mapSet (Hunk.file h)
         (mkEntry (header entry) (entryHunks entry ++ [Hunk.hunkLines h]))
         (groupsOf hs)
  = groupsOf (hs ++ [h]).
Proof.
  cbn zeta. unfold groupsOf. rewrite mapGet_keyed.
  rewrite fmap_app. change (Hunk.file <$> [h]) with [Hunk.file h].
  rewrite setValues_snoc.
  assert (∀ k, k ≠ Hunk.file h →
            mkEntry (firstHeader k (hs ++ [h]))
              (Hunk.hunkLines <$> filter (λ h0, Hunk.file h0 = k) (hs ++ [h]))
            = mkEntry (firstHeader k hs)
                (Hunk.hunkLines <$> filter (λ h0, Hunk.file h0 = k) hs)) as Hother.
  { intros k Hk. unfold firstHeader. rewrite filter_app.
    rewrite (filter_cons_False _ h) by done. by rewrite filter_nil, app_nil_r. }
  destruct (decide (Hunk.file h ∈ Hunk.file <$> hs)) as [Hin|Hin].
  - rewrite decide_True by (by apply elem_of_setValues). cbn [default header entryHunks].
    rewrite mapSet_keyed_in
      by (by first [apply elem_of_setValues|apply NoDup_setValues]).
    apply list_fmap_ext. intros i k Hk. f_equal.
    destruct (decide (k = Hunk.file h)) as [->|Hkf]; [|by rewrite Hother].
    unfold firstHeader. rewrite filter_app, (filter_cons_True _ h) by done.
    rewrite filter_nil, fmap_app.
    destruct (filter_file_cons hs _ Hin) as (h1 & hs1 & ->). done.
  - rewrite decide_False by (by rewrite elem_of_setValues).
    cbn [default header entryHunks app].
    rewrite mapSet_keyed_notin by (by rewrite elem_of_setValues).
    rewrite fmap_app. f_equal.
    + apply list_fmap_ext. intros i k Hk. f_equal. symmetry. apply Hother.
      intros ->. apply list_elem_of_lookup_2 in Hk.
      apply Hin. by apply elem_of_setValues.
    + cbn [fmap list_fmap]. do 3 f_equal.
      * unfold firstHeader.
        rewrite filter_app, (filter_cons_True _ h), filter_nil by done.
        by rewrite filter_file_nil.
      * rewrite filter_app, (filter_cons_True _ h), filter_nil by done.
        by rewrite filter_file_nil.
Qed.

Lemma groupHunks_groupsOf (hunkById : gmap jsstring Hunk.t)
    (ids : list jsstring) (hs0 hs : list Hunk.t) :
  Forall2 (λ id h, hunkById !! id = Some h) ids hs →
  groupHunks hunkById ids (groupsOf hs0) = inr (groupsOf (hs0 ++ hs)).
Proof.
  intros Hall. revert hs0.
  induction Hall as [|id h ids hs Hid _ IH]; intros hs0; cbn [groupHunks].
  - by rewrite app_nil_r.
  - rewrite Hid, groupsOf_snoc, IH. by rewrite <- app_assoc.
Qed.

Lemma patchPartsOf_groupsOf (hs : list Hunk.t) :
  patchPartsOf (groupsOf hs) = patchPartsFor hs.
Proof.
  unfold patchPartsOf, groupsOf, patchPartsFor.
  induction (setValues (Hunk.file <$> hs)) as [|f fs IH]; [done|].
  cbn [fmap list_fmap flat_map header entryHunks]. rewrite IH.
  by rewrite <- list_fmap_compose.
Qed.

(** ** PlanApplier: staging, committing, resetting *)

Section applier.
Context `{GitEnv}.

Lemma spawn_oneCall c st :
  (_ ← spawn c; mret tt) st = oneCall c st.
Proof.
  rewrite bind_unfold. unfold spawn, oneCall.
  by destruct (spawnGit c (world st)) as [w [d|out]].
Qed.


(** What staging one operation does, kind by kind. *)
Lemma stageOp_run (op : FileOp.t) st :
  stageOp op st =
    match FileOp.kind op with
    | add | binary | typechange | copy =>
        oneCall (Git.Call [str "add"; str "--"; FileOp.path op] None) st
    | delete =>
        oneCall (Git.Call [str "add"; str "-u"; str "--"; FileOp.path op] None) st
    | rename =>
        match FileOp.origPath op with
        | Some (c :: o) =>
            oneCall (Git.Call [str "add"; str "-A"; str "--"; c :: o;
                               FileOp.path op] None) st
        | _ => (st, inl (RenameMissingOrig (FileOp.id op)))
        end
    end.
Proof.
  unfold stageOp, runGit.
  destruct (FileOp.kind op); try apply spawn_oneCall.
  destruct (FileOp.origPath op) as [[|c o]|]; cbn [truthyOpt truthy negb default];
    [done|apply spawn_oneCall|done].
Qed.

(** [C2] Staging a rename with a source path runs one [add -A] command
    on the source and the destination path together; a rename without a
    source path throws and runs nothing; staging a copy runs one [add]
    command on the destination path alone. *)
Theorem stage_rename_both_copy_destination (op : FileOp.t) (st : St) :
  (FileOp.kind op = rename →
   ∀ o, FileOp.origPath op = Some o → o ≠ [] →
        stageOp op st
        = oneCall (Git.Call [str "add"; str "-A"; str "--"; o; FileOp.path op]
                            None) st)
  ∧ (FileOp.kind op = rename → truthyOpt (FileOp.origPath op) = false →
     stageOp op st = (st, inl (RenameMissingOrig (FileOp.id op))))
  ∧ (FileOp.kind op = copy →
     stageOp op st
     = oneCall (Git.Call [str "add"; str "--"; FileOp.path op] None) st).
Proof.
  rewrite stageOp_run. split_and!.
  - intros -> o -> Ho. by destruct o.
  - intros -> Horig. by destruct (FileOp.origPath op) as [[|c o]|].
  - by intros ->.
Qed.

(** *** The log of one planned commit *)


















(** [C3] If staging the hunks and the operations of a commit succeeds
    and the staged paths read back are blank, applying the commit fails
    with the nothing-staged error right after the read-back: the commit
    command does not run.  If instead the patch command fails, applying
    the commit fails with the error of that command, and nothing else
    runs. *)
Theorem empty_index_refused
    (hunkById : gmap jsstring Hunk.t) (opById : gmap jsstring FileOp.t)
    (c : PlanCommit.t) (st : St) :
  (∀ (st1 : St) (w2 : World) (out : jsstring),
     (stageHunks hunkById c;;
      stageOps opById (default [] (PlanCommit.ops c))) st = (st1, inr tt) →
     spawnGit (Git.Call stagedArgs None) (world st1) = (w2, inr out) →
     trim out = [] →
     applyCommit hunkById opById c st
     = (mkSt _ w2 (log st1 ++ [(Git.Call stagedArgs None, inr out)]),
        inl (NothingStaged (PlanCommit.message c))))
  ∧ (∀ (groups : list (jsstring * PatchEntry)) (w1 : World) (detail : jsstring),
       groupHunks hunkById (PlanCommit.hunks c) [] = inr groups →
       trim (patchTextOf (patchPartsOf groups)) ≠ [] →
       spawnGit (Git.Call applyArgs (Some (patchTextOf (patchPartsOf groups))))
                (world st) = (w1, inl detail) →
       applyCommit hunkById opById c st
       = (mkSt _ w1
            (log st ++ [(Git.Call applyArgs
                           (Some (patchTextOf (patchPartsOf groups))),
                         inl detail)]),
          inl (GitFailed applyArgs detail))).
Proof.
  split.
  - intros st1 w2 out Hstage Hread Hblank.
    apply bind_inr in Hstage as ([] & st0 & Hh & Ho).
    unfold applyCommit. rewrite bind_unfold, Hh, bind_unfold, Ho, bind_unfold.
    unfold commitStaged, runGit. rewrite bind_unfold. unfold spawn at 1.
    rewrite Hread, Hblank. done.
  - intros groups w1 detail Hg Hne Hfail.
    unfold applyCommit. rewrite bind_unfold.
    unfold stageHunks. rewrite bind_unfold. unfold lift. rewrite Hg.
    destruct (trim (patchTextOf (patchPartsOf groups))) eqn:Ht; [done|].
    cbn [truthy]. unfold runGitWithStdin. rewrite spawn_oneCall.
    unfold oneCall. by rewrite Hfail.
Qed.
End applier.

Lemma stage_rename_copy_witness :
  stageOp (H := Succeeds.env []) Sample.opRename (Succeeds.st0 [])
  = oneCall (H := Succeeds.env [])
      (Git.Call [str "add"; str "-A"; str "--"; str "old.txt"; str "new.txt"]
                None) (Succeeds.st0 []).
Proof.
  apply (proj1 (stage_rename_both_copy_destination
                  (H := Succeeds.env []) Sample.opRename (Succeeds.st0 []))
               eq_refl (str "old.txt") eq_refl).
  vm_compute. discriminate.
Defined.

(** [C2] as worded fails on a copy: the one command that stages it names
    the destination and not the source. *)
Lemma stage_copy_leaves_source_out :
  FileOp.kind Sample.opCopy = copy
  ∧ FileOp.origPath Sample.opCopy = Some (str "src.txt")
  ∧ log (stageOp (H := Succeeds.env []) Sample.opCopy (Succeeds.st0 [])).1
    = [(Git.Call [str "add"; str "--"; str "dst.txt"] None, inr [])]
  ∧ str "src.txt" ∉ [str "add"; str "--"; str "dst.txt"].
Proof.
  split_and!; [reflexivity..|].
  apply (bool_decide_unpack _). vm_compute. exact I.
Qed.


Lemma empty_index_witness :
  applyCommit (H := Succeeds.env []) (byId Hunk.id PatchExample.hunks) ∅
    ApplyFails.commit (Succeeds.st0 [])
  = (mkSt (Succeeds.env []) tt
       [(Git.Call applyArgs
           (Some (patchTextOf (patchPartsOf (groupsOf [PatchExample.hFirst])))),
         inr []);
        (Git.Call stagedArgs None, inr [])],
     inl (NothingStaged (str "fix: swap values"))).
Proof.
  apply (proj1 (empty_index_refused (H := Succeeds.env [])
                  (byId Hunk.id PatchExample.hunks) ∅
                  ApplyFails.commit (Succeeds.st0 []))
               (mkSt (Succeeds.env []) tt
                  [(Git.Call applyArgs
                      (Some (patchTextOf
                               (patchPartsOf (groupsOf [PatchExample.hFirst])))),
                    inr [])])
               tt []).
  - vm_compute. reflexivity.
  - reflexivity.
  - reflexivity.
Defined.

(** [C3] as worded fails when the patch command fails: the error is the
    error of that command, not the nothing-staged error. *)
Lemma patch_failure_is_not_nothing_staged :
  PlanCommit.ops ApplyFails.commit = None
  ∧ applyCommit (H := ApplyFails.env) (byId Hunk.id PatchExample.hunks) ∅
      ApplyFails.commit ApplyFails.st0
    = (mkSt ApplyFails.env tt
         [(Git.Call applyArgs
             (Some (patchTextOf (patchPartsOf (groupsOf [PatchExample.hFirst])))),
           inl ApplyFails.detail)],
       inl (GitFailed applyArgs ApplyFails.detail))
  ∧ GitFailed applyArgs ApplyFails.detail
    ≠ NothingStaged (PlanCommit.message ApplyFails.commit).
Proof.
  split_and!; [reflexivity|vm_compute; reflexivity|discriminate].
Qed.

(** [C5] When the hunk ids of a commit resolve to the hunks [hs], step 1
    of the applier joins with newlines the parts [patchPartsFor hs] (per
    file the header, the hunk blocks and an empty part), collapses the
    newline runs and, unless the text is blank, passes it to the patch
    command.  Collapsing turns a maximal run of [k] newline characters
    into [min k 2] of them: runs of three or more become two newlines,
    that is one blank line, and shorter runs stay. *)
Theorem patch_text_composition `{GitEnv}
    (hunkById : gmap jsstring Hunk.t) (c : PlanCommit.t) (hs : list Hunk.t) :
  Forall2 (λ id h, hunkById !! id = Some h) (PlanCommit.hunks c) hs →
  (∀ st : St,
     stageHunks hunkById c st
     = let patchText :=
         collapseNewlineRuns (join [newline] (patchPartsFor hs)) in
       if truthy (trim patchText)
       then oneCall (Git.Call applyArgs (Some patchText)) st
       else (st, inr tt))
  ∧ (∀ (a b : jsstring) (k : nat),
       last a ≠ Some newline → head b ≠ Some newline →
       collapseNewlineRuns (a ++ replicate k newline ++ b)
       = collapseNewlineRuns a ++ replicate (k `min` 2) newline
         ++ collapseNewlineRuns b).
Proof.
  intros Hres. split.
  - intros st. unfold stageHunks. rewrite bind_unfold. unfold lift.
    change (@nil (jsstring * PatchEntry)) with (groupsOf []).
    rewrite (groupHunks_groupsOf _ _ [] hs Hres). cbn [app].
    rewrite patchPartsOf_groupsOf. unfold patchTextOf. cbn zeta.
    destruct (truthy _); [|done].
    unfold runGitWithStdin. apply spawn_oneCall.
  - intros a b k. apply collapse_maximal_run.
Qed.

Lemma patch_text_witness :
  stageHunks (H := Succeeds.env []) (byId Hunk.id PatchExample.hunks)
    PatchExample.commit (Succeeds.st0 [])
  = oneCall (H := Succeeds.env [])
      (Git.Call applyArgs (Some PatchExample.actual)) (Succeeds.st0 []).
Proof.
  rewrite (proj1 (patch_text_composition (H := Succeeds.env [])
                    (byId Hunk.id PatchExample.hunks) PatchExample.commit
                    [PatchExample.hLast; PatchExample.hFirst]
                    ltac:(repeat constructor))).
  vm_compute. reflexivity.
Defined.

(** [C5] as worded fails on a commit whose first file carries the last
    hunk of the diff: three newlines separate the two files before the
    collapse, that is two blank lines; the code leaves one blank line,
    the wording (three or more blank lines become two) would leave
    both. *)
Lemma collapse_is_on_newlines_not_blank_lines :
  groupHunks (byId Hunk.id PatchExample.hunks)
    (PlanCommit.hunks PatchExample.commit) []
  = inr (groupsOf [PatchExample.hLast; PatchExample.hFirst])
  ∧ patchTextOf (patchPartsOf (groupsOf [PatchExample.hLast; PatchExample.hFirst]))
    = PatchExample.actual
  ∧ patchTextAsWorded
      (patchPartsOf (groupsOf [PatchExample.hLast; PatchExample.hFirst]))
    = PatchExample.worded
  ∧ PatchExample.actual ≠ PatchExample.worded.
Proof.
  split_and!; [vm_compute; reflexivity..|].
  apply (bool_decide_unpack _). vm_compute. exact I.
Qed.

(* ================================================================== *)
(** * Part IV: further properties of the code                           *)
(* ================================================================== *)

(** ** StatusParser: invariants of the result *)

Section status_invariants.
Context `{Sha1}.

(** A property of the state that every turn of the loop keeps is kept
    by the loop. *)
Lemma parseLoop_invariant (P : Status.t → Prop) :
  (∀ t next st, P st → P (parseRecord t next st).1) →
  ∀ tokens st, P st → P (parseLoop tokens st).
Proof.
  intros Hstep tokens.
  assert (∀ n tokens, (length tokens ≤ n)%nat →
            ∀ st, P st → P (parseLoop tokens st)) as Hgen; [|by eapply Hgen].
  clear tokens. induction n as [|n IH]; intros tokens Hlen st Hst.
  - by destruct tokens; [|cbn in Hlen; lia].
  - destruct tokens as [|t rest]; [done|]. cbn [parseLoop].
    pose proof (Hstep t (head rest) st Hst) as Hst'.
    destruct (parseRecord t (head rest) st) as [st' skip].
    destruct rest as [|o rest]; [done|]. cbn in Hlen.
    destruct skip; apply IH; cbn; try done; lia.
Qed.

Lemma statusOpOk_push st op p op' :
  statusOpOk st op' → statusOpOk (Status.push op p st) op'.
Proof.
  intros (Hp & Hid & Hk). split_and!; [|done..].
  cbn. apply elem_of_union. by right.
Qed.

Lemma statusOps_push st kind path origPath :
  (origPath = None ∧ kind ∈ [add; delete; typechange]) ∨ kind ∈ [rename; copy] →
  Forall (statusOpOk st) (Status.ops st) →
  Forall (statusOpOk (Status.push (makeOp kind path origPath) path st))
         (Status.ops (Status.push (makeOp kind path origPath) path st)).
Proof.
  intros Hk Hall. cbn [Status.push Status.ops]. apply Forall_app. split.
  - eapply Forall_impl; [exact Hall|]. intros op'. apply statusOpOk_push.
  - constructor; [|constructor]. split_and!; [|done..].
    cbn. apply elem_of_union. left. by apply elem_of_singleton.
Qed.

Lemma parseRecord_ops_ok t next st :
  Forall (statusOpOk st) (Status.ops st) →
  Forall (statusOpOk (parseRecord t next st).1) (Status.ops (parseRecord t next st).1).
Proof.
  intros Hall. unfold parseRecord.
  repeat match goal with
         | |- context [if ?b then _ else _] => destruct b
         end; cbn [fst]; try done;
    try (apply statusOps_push; [|done]);
    rewrite ?elem_of_cons; tauto.
Qed.

(** [X1] Every operation in the result of the status parser is the
    operation [makeOp] builds from its kind, path and source path; its
    path is among the unsplittable paths; it is never a binary
    operation, and it carries a source path only if it is a rename or a
    copy. *)
Theorem status_ops_well_formed (raw : jsstring) (op : FileOp.t) :
  op ∈ Status.ops (parsePorcelainV2Z raw) →
  FileOp.path op ∈ Status.unsplittablePaths (parsePorcelainV2Z raw)
  ∧ op = makeOp (FileOp.kind op) (FileOp.path op) (FileOp.origPath op)
  ∧ FileOp.kind op ≠ binary
  ∧ (FileOp.origPath op ≠ None →
     FileOp.kind op = rename ∨ FileOp.kind op = copy).
Proof.
  intros Hop.
  assert (Forall (statusOpOk (parsePorcelainV2Z raw))
                 (Status.ops (parsePorcelainV2Z raw))) as Hall.
  { unfold parsePorcelainV2Z.
    apply (parseLoop_invariant (λ st, Forall (statusOpOk st) (Status.ops st))).
    - intros t next st. apply parseRecord_ops_ok.
    - constructor. }
  rewrite Forall_forall in Hall. destruct (Hall op Hop) as (Hp & Hid & Hk).
  split_and!; [done..| |].
  - intros Hb. rewrite Hb in Hk.
    destruct Hk as [[_ Hk]|Hk]; set_solver.
  - intros Ho. destruct Hk as [[Hn _]|Hk]; [done|]. set_solver.
Qed.
End status_invariants.

Lemma status_ops_witness :
  makeOp (H := fakeSha1) add (str "b.txt") None
    ∈ Status.ops (parsePorcelainV2Z (H := fakeSha1) Canned.statusText)
  ∧ FileOp.path (makeOp (H := fakeSha1) add (str "b.txt") None)
    ∈ Status.unsplittablePaths (parsePorcelainV2Z (H := fakeSha1) Canned.statusText).
Proof.
  assert (makeOp (H := fakeSha1) add (str "b.txt") None
            ∈ Status.ops (parsePorcelainV2Z (H := fakeSha1) Canned.statusText))
    as Hin by (apply (bool_decide_unpack _); vm_compute; exact I).
  split; [exact Hin|].
  exact (proj1 (status_ops_well_formed (H := fakeSha1) _ _ Hin)).
Defined.

Section status_records.
Context `{Sha1}.



Lemma parseRecord_unmerged_inv t next st :
  Status.hasUnmerged (parseRecord t next st).1 = true →
  Status.hasUnmerged st = true ∨ t !! 0%nat = Some (chr "u").
Proof.
  unfold parseRecord.
  repeat match goal with
         | |- context [if ?b then _ else _] => destruct b
         end; cbn [fst Status.push Status.setUnmerged Status.hasUnmerged]; auto.
Qed.

Lemma parseRecord_unmerged_keep t next st :
  Status.hasUnmerged st = true →
  Status.hasUnmerged (parseRecord t next st).1 = true.
Proof.
  unfold parseRecord.
  repeat match goal with
         | |- context [if ?b then _ else _] => destruct b
         end; cbn [fst Status.push Status.setUnmerged Status.hasUnmerged]; auto.
Qed.

Lemma parseRecord_unmerged_set t next st :
  t !! 0%nat = Some (chr "u") →
  parseRecord t next st = (Status.setUnmerged st, false).
Proof.
  intros Hk. unfold parseRecord.
  destruct t as [|c t]; [done|]. simpl in Hk. injection Hk as ->.
  cbn [truthy negb orb]. change (startsWith (str "#") (chr "u" :: t)) with false.
  cbn iota. cbn [lookup list_lookup].
  rewrite decide_False by (by intros [=]).
  by rewrite decide_True by done.
Qed.

Lemma parseRecord_noskip t next st :
  t !! 0%nat ≠ Some (chr "2") → (parseRecord t next st).2 = false.
Proof.
  intros Hk. unfold parseRecord.
  repeat match goal with
         | |- context [if ?b then _ else _] => destruct b
         end; cbn [snd]; done.
Qed.

Lemma parseLoop_unmerged_inv tokens :
  ∀ st, Status.hasUnmerged (parseLoop tokens st) = true →
        Status.hasUnmerged st = true
        ∨ ∃ t, t ∈ tokens ∧ t !! 0%nat = Some (chr "u").
Proof.
  assert (∀ n tokens, (length tokens ≤ n)%nat →
            ∀ st, Status.hasUnmerged (parseLoop tokens st) = true →
                  Status.hasUnmerged st = true
                  ∨ ∃ t, t ∈ tokens ∧ t !! 0%nat = Some (chr "u")) as Hgen;
    [|by eapply Hgen].
  clear tokens. induction n as [|n IH]; intros tokens Hlen st.
  - destruct tokens; [by left|cbn in Hlen; lia].
  - destruct tokens as [|t rest]; [by left|]. cbn [parseLoop].
    pose proof (parseRecord_unmerged_inv t (head rest) st) as Hrec.
    destruct (parseRecord t (head rest) st) as [st' skip]. cbn [fst] in Hrec.
    assert (Status.hasUnmerged st' = true →
            Status.hasUnmerged st = true
            ∨ ∃ t0, t0 ∈ t :: rest ∧ t0 !! 0%nat = Some (chr "u")) as Hhere.
    { intros [?|Ht]%Hrec; [by left|right]. exists t. split; [|done].
      apply list_elem_of_here. }
    destruct rest as [|o rest]; [done|]. cbn in Hlen.
    destruct skip; intros Hr; apply IH in Hr; try (cbn; lia);
      (destruct Hr as [Hr|(t0 & Ht0 & Hu)]; [by apply Hhere|right]);
      exists t0; (split; [|done]); set_solver.
Qed.

Lemma parseLoop_unmerged_keep tokens st :
  Status.hasUnmerged st = true →
  Status.hasUnmerged (parseLoop tokens st) = true.
Proof.
  apply (parseLoop_invariant (λ st, Status.hasUnmerged st = true)).
  intros t next st'. apply parseRecord_unmerged_keep.
Qed.

Lemma parseLoop_unmerged_set tokens :
  ∀ st, Forall (λ t, t !! 0%nat ≠ Some (chr "2")) tokens →
        (∃ t, t ∈ tokens ∧ t !! 0%nat = Some (chr "u")) →
        Status.hasUnmerged (parseLoop tokens st) = true.
Proof.
  induction tokens as [|t rest IH]; intros st Hno (t0 & Ht0 & Hu).
  - by apply elem_of_nil in Ht0.
  - apply Forall_cons in Hno as [Hno1 Hno].
    pose proof (parseRecord_noskip t (head rest) st Hno1) as Hskip.
    destruct (parseRecord t (head rest) st) as [st' skip] eqn:Hrec.
    cbn [snd] in Hskip. subst skip.
    rewrite (parseLoop_cons_noskip _ _ _ _ Hrec).
    apply elem_of_cons in Ht0 as [->|Ht0].
    + rewrite parseRecord_unmerged_set in Hrec by done.
      injection Hrec as <-. by apply parseLoop_unmerged_keep.
    + apply IH; [done|]. by exists t0.
Qed.

(** [X3] The conflict flag is raised only by a token that begins with
    [u]; and when no token is a rename or copy record (which would take
    the token after it as a path), every such token raises it. *)
Theorem unmerged_flag_from_u_records (raw : jsstring) :
  (Status.hasUnmerged (parsePorcelainV2Z raw) = true →
   ∃ t, t ∈ tokensOf raw ∧ t !! 0%nat = Some (chr "u"))
  ∧ (Forall (λ t, t !! 0%nat ≠ Some (chr "2")) (tokensOf raw) →
     (∃ t, t ∈ tokensOf raw ∧ t !! 0%nat = Some (chr "u")) →
     Status.hasUnmerged (parsePorcelainV2Z raw) = true).
Proof.
  unfold parsePorcelainV2Z. split.
  - intros [Hinit|Hex]%parseLoop_unmerged_inv; [done|exact Hex].
  - apply parseLoop_unmerged_set.
Qed.
End status_records.


Lemma unmerged_flag_witness :
  Status.hasUnmerged
    (parsePorcelainV2Z (H := fakeSha1)
       (str "u UU N... 100644 100644 100644 100644 a b c f.txt" ++ [0]
        ++ str "? c.txt" ++ [0])) = true.
Proof.
  apply (proj2 (unmerged_flag_from_u_records (H := fakeSha1) _)).
  - apply (bool_decide_unpack _). vm_compute. exact I.
  - exists (str "u UU N... 100644 100644 100644 100644 a b c f.txt").
    split; [|reflexivity].
    apply (bool_decide_unpack _). vm_compute. exact I.
Defined.

(** ** PlanValidator: when it accepts, and what its errors say *)

Lemma conventional_trim_nonempty m :
  isConventionalCommitHeader m = true → truthy (trim m) = true.
Proof.
  unfold isConventionalCommitHeader. by destruct (trim m).
Qed.

Lemma checkIds_ok unknown duplicate all ids seen :
  NoDup ids → (∀ id, id ∈ ids → id ∈ all ∧ id ∉ seen) →
  checkIds unknown duplicate all ids seen = inr (list_to_set ids ∪ seen).
Proof.
  revert seen. induction ids as [|id ids IH]; intros seen Hnd Hin; simpl.
  - f_equal. set_solver.
  - apply NoDup_cons in Hnd as [Hid Hnd].
    destruct (Hin id) as [Hall Hseen]; [apply list_elem_of_here|].
    rewrite decide_False by (by intros ?).
    rewrite decide_False by done.
    rewrite IH; [f_equal; set_solver|done|].
    intros id' Hid'. destruct (Hin id') as [? ?]; [by apply list_elem_of_further|].
    split; [done|]. set_solver.
Qed.

Lemma filter_none_nil {A} (P : A → Prop) `{∀ x, Decision (P x)} (l : list A) :
  (∀ x, x ∈ l → ¬ P x) → filter P l = [].
Proof.
  induction l as [|x l IH]; intros Hn; [done|].
  rewrite filter_cons_False by (apply Hn, list_elem_of_here).
  apply IH. intros y Hy. by apply Hn, list_elem_of_further.
Qed.

Lemma validateCommits_ok allHunks allOps commits sh so :
  Forall commitOk commits →
  NoDup (concat (PlanCommit.hunks <$> commits)) →
  NoDup (concat ((λ c, default [] (PlanCommit.ops c)) <$> commits)) →
  (∀ id, id ∈ concat (PlanCommit.hunks <$> commits) → id ∈ allHunks ∧ id ∉ sh) →
  (∀ id, id ∈ concat ((λ c, default [] (PlanCommit.ops c)) <$> commits) →
         id ∈ allOps ∧ id ∉ so) →
  validateCommits allHunks allOps commits (sh, so)
  = inr (list_to_set (concat (PlanCommit.hunks <$> commits)) ∪ sh,
         list_to_set (concat ((λ c, default [] (PlanCommit.ops c)) <$> commits))
         ∪ so).
Proof.
  revert sh so. induction commits as [|c commits IH];
    intros sh so Hok Hndh Hndo Hh Ho; cbn [validateCommits].
  - cbn. do 2 f_equal; set_solver.
  - apply Forall_cons in Hok as [[Hconv Hany] Hok].
    cbn [fmap list_fmap concat] in *.
    apply NoDup_app in Hndh as (Hndh1 & Hdish & Hndh2).
    apply NoDup_app in Hndo as (Hndo1 & Hdiso & Hndo2).
    unfold validateCommit.
    rewrite (conventional_trim_nonempty _ Hconv). cbn [negb].
    assert ((0 <? length (PlanCommit.hunks c)
                  + length (default [] (PlanCommit.ops c)))%nat = true) as ->.
    { apply Nat.ltb_lt.
      destruct Hany as [Hne|Hne];
        [destruct (PlanCommit.hunks c)|destruct (default [] (PlanCommit.ops c))];
        try done; cbn; lia. }
    cbn [negb].
    rewrite checkIds_ok;
      [|done|intros id Hid; apply Hh, elem_of_app; by left].
    rewrite checkIds_ok;
      [|done|intros id Hid; apply Ho, elem_of_app; by left].
    rewrite Hconv. cbn [negb].
    rewrite IH; [|done..| |].
    + rewrite !list_to_set_app_L. do 2 f_equal; set_solver.
    + intros id Hid. destruct (Hh id) as [? ?]; [apply elem_of_app; by right|].
      split; [done|]. intros [Hin|?]%elem_of_union; [|done].
      apply elem_of_list_to_set in Hin. by eapply Hdish.
    + intros id Hid. destruct (Ho id) as [? ?]; [apply elem_of_app; by right|].
      split; [done|]. intros [Hin|?]%elem_of_union; [|done].
      apply elem_of_list_to_set in Hin. by eapply Hdiso.
Qed.

Lemma validateCommits_inr_ok allHunks allOps commits seen seen' :
  validateCommits allHunks allOps commits seen = inr seen' →
  Forall commitOk commits.
Proof.
  revert seen. induction commits as [|c commits IH]; intros seen Hv;
    cbn [validateCommits] in Hv; [constructor|].
  destruct (validateCommit allHunks allOps c seen) as [e|seen1] eqn:Hc; [done|].
  constructor; [|by eapply IH].
  unfold validateCommit in Hc. destruct seen as [sh so].
  destruct (negb (truthy (trim (PlanCommit.message c)))); [done|].
  destruct (0 <? _)%nat eqn:Hany; cbn [negb] in Hc; [|done].
  destruct (checkIds UnknownHunkId _ _ _ _); [done|].
  destruct (checkIds UnknownOpId _ _ _ _); [done|].
  destruct (isConventionalCommitHeader _) eqn:Hconv; cbn [negb] in Hc; [|done].
  split; [done|]. apply Nat.ltb_lt in Hany.
  destruct (PlanCommit.hunks c); [right|by left].
  destruct (default [] (PlanCommit.ops c)); [cbn in Hany; lia|done].
Qed.

(** [X4] [validatePlan] accepts a plan exactly when the plan has a
    commit, every commit has a conventional header and references at
    least one hunk or operation, and the referenced hunk ids, and
    likewise the referenced operation ids, are pairwise distinct and are
    exactly the ids of the snapshot. *)
Theorem validatePlan_accepts_iff
    (plan : Plan.t) (hunks : list Hunk.t) (ops : list FileOp.t) :
  validatePlan plan hunks ops = inr tt
  ↔ Plan.commits plan ≠ []
    ∧ Forall commitOk (Plan.commits plan)
    ∧ (NoDup (planHunkRefs plan)
       ∧ ∀ id, id ∈ planHunkRefs plan ↔ id ∈ Hunk.id <$> hunks)
    ∧ (NoDup (planOpRefs plan)
       ∧ ∀ id, id ∈ planOpRefs plan ↔ id ∈ FileOp.id <$> ops).
Proof.
  unfold validatePlan, planHunkRefs, planOpRefs. split.
  - intros Hv. case_decide as Hne; [done|].
    destruct (validateCommits _ _ _ _) as [|[sh so]] eqn:Hc; [done|].
    case_decide as Hmiss; [|done]. destruct Hmiss as [Hmh Hmo].
    pose proof (validateCommits_inr_ok _ _ _ _ _ Hc) as Hok.
    apply validateCommits_inr in Hc as [(-> & Hnd1 & Hin1) (-> & Hnd2 & Hin2)].
    pose proof (filter_missing_nil _ _ Hmh) as Hcov1.
    pose proof (filter_missing_nil _ _ Hmo) as Hcov2.
    split_and!; try done; intros id; split; intros Hid.
    + apply Hin1 in Hid as [Hid _]. by apply elem_of_list_to_set in Hid.
    + apply Hcov1 in Hid. set_solver.
    + apply Hin2 in Hid as [Hid _]. by apply elem_of_list_to_set in Hid.
    + apply Hcov2 in Hid. set_solver.
  - intros (Hne & Hok & [Hndh Hh] & [Hndo Ho]).
    rewrite decide_False by done.
    rewrite validateCommits_ok; [|done..| |].
    + rewrite decide_True; [done|]. split; apply filter_none_nil.
      * intros id Hid Hn. apply (proj1 (elem_of_setValues _ _)) in Hid.
        apply Hn, elem_of_union. left. by apply elem_of_list_to_set, Hh.
      * intros id Hid Hn. apply (proj1 (elem_of_setValues _ _)) in Hid.
        apply Hn, elem_of_union. left. by apply elem_of_list_to_set, Ho.
    + intros id Hid. split; [by apply elem_of_list_to_set, Hh|set_solver].
    + intros id Hid. split; [by apply elem_of_list_to_set, Ho|set_solver].
Qed.

Lemma checkIds_inl unknown duplicate all ids seen e :
  checkIds unknown duplicate all ids seen = inl e →
  ∃ l1 id l2, ids = l1 ++ id :: l2
    ∧ ((e = unknown id ∧ id ∉ all)
       ∨ (e = duplicate id ∧ (id ∈ seen ∨ id ∈ l1))).
Proof.
  revert seen. induction ids as [|id ids IH]; intros seen Hc; simpl in Hc;
    [done|].
  case_decide as Hall.
  { injection Hc as <-. exists [], id, ids. split; [done|]. by left. }
  case_decide as Hseen.
  { injection Hc as <-. exists [], id, ids. split; [done|]. right. by eauto. }
  apply IH in Hc as (l1 & id' & l2 & -> & Hcase).
  exists (id :: l1), id', l2. split; [done|].
  destruct Hcase as [?|[-> Hin]]; [by left|right]. split; [done|].
  destruct Hin as [Hin|Hin]; [|right; by apply list_elem_of_further].
  apply elem_of_union in Hin as [Hin|Hin]; [right|by left].
  apply elem_of_singleton in Hin as ->. apply list_elem_of_here.
Qed.

Lemma occursTwice_intro (pre l1 l2 post : list jsstring) id :
  id ∈ pre ∨ id ∈ l1 → occursTwice id (pre ++ (l1 ++ id :: l2) ++ post).
Proof.
  intros [(a & b & ->)%list_elem_of_split|(a & b & ->)%list_elem_of_split].
  - exists a, (b ++ l1), (l2 ++ post). by rewrite <- !app_assoc.
  - exists (pre ++ a), b, (l2 ++ post). by rewrite <- !app_assoc.
Qed.

(** The errors of the commit loop, for the commits [cs] that follow the
    already checked commits [pre]. *)
Lemma validateCommits_inl (hunks : list Hunk.t) (ops : list FileOp.t) cs :
  ∀ pre e,
  validateCommits (list_to_set (Hunk.id <$> hunks)) (list_to_set (FileOp.id <$> ops))
    cs (list_to_set (planHunkRefs (Plan.mk pre)),
        list_to_set (planOpRefs (Plan.mk pre))) = inl e →
  errorExplained (Plan.mk (pre ++ cs)) hunks ops e.
Proof.
  induction cs as [|c cs IH]; intros pre e Hv; cbn [validateCommits] in Hv;
    [done|].
  destruct (validateCommit _ _ c _) as [e'|[sh so]] eqn:Hc.
  - injection Hv as ->. unfold validateCommit in Hc.
    assert (c ∈ pre ++ c :: cs) as Hcin
      by (apply elem_of_app; right; apply list_elem_of_here).
    destruct (truthy (trim (PlanCommit.message c))) eqn:Hmsg; cbn [negb] in Hc.
    2:{ injection Hc as <-. exists c. split; [done|].
        by destruct (trim (PlanCommit.message c)). }
    destruct (0 <? _)%nat eqn:Hany; cbn [negb] in Hc.
    2:{ injection Hc as <-. exists c. apply Nat.ltb_ge in Hany.
        split_and!; [done..| |].
        - destruct (PlanCommit.hunks c); [done|cbn in Hany; lia].
        - destruct (default [] (PlanCommit.ops c)); [done|].
          rewrite Nat.add_comm in Hany. cbn in Hany. lia. }
    destruct (checkIds UnknownHunkId _ _ _ _) as [eh|sh'] eqn:Hh.
    { injection Hc as <-.
      apply checkIds_inl in Hh as (l1 & id & l2 & Hids & [[-> Hn]|[-> Hd]]);
        cbn [errorExplained]; unfold planHunkRefs; cbn [Plan.commits];
        rewrite fmap_app, concat_app; cbn [fmap list_fmap concat]; rewrite Hids.
      - split; [set_solver|]. intros Hin. apply Hn. by apply elem_of_list_to_set.
      - apply occursTwice_intro.
        destruct Hd as [Hd|Hd]; [left|by right].
        by apply elem_of_list_to_set in Hd. }
    destruct (checkIds UnknownOpId _ _ _ _) as [eo|so'] eqn:Ho.
    { injection Hc as <-.
      apply checkIds_inl in Ho as (l1 & id & l2 & Hids & [[-> Hn]|[-> Hd]]);
        cbn [errorExplained]; unfold planOpRefs; cbn [Plan.commits];
        rewrite fmap_app, concat_app; cbn [fmap list_fmap concat]; rewrite Hids.
      - split; [set_solver|]. intros Hin. apply Hn. by apply elem_of_list_to_set.
      - apply occursTwice_intro.
        destruct Hd as [Hd|Hd]; [left|by right].
        by apply elem_of_list_to_set in Hd. }
    destruct (isConventionalCommitHeader _) eqn:Hconv; cbn [negb] in Hc; [done|].
    injection Hc as <-. by exists c.
  - unfold validateCommit in Hc.
    destruct (negb (truthy _)); [done|]. destruct (negb (0 <? _)%nat); [done|].
    destruct (checkIds UnknownHunkId _ _ _ _) as [|sh'] eqn:Hh; [done|].
    destruct (checkIds UnknownOpId _ _ _ _) as [|so'] eqn:Ho; [done|].
    destruct (negb _); [done|]. injection Hc as <- <-.
    apply checkIds_inr in Hh as (-> & _ & _).
    apply checkIds_inr in Ho as (-> & _ & _).
    replace (pre ++ c :: cs) with ((pre ++ [c]) ++ cs)
      by (by rewrite <- app_assoc).
    apply IH. rewrite <- Hv. f_equal. f_equal.
    + unfold planHunkRefs. cbn [Plan.commits].
      rewrite fmap_app, concat_app, list_to_set_app_L. cbn. set_solver.
    + unfold planOpRefs. cbn [Plan.commits].
      rewrite fmap_app, concat_app, list_to_set_app_L. cbn. set_solver.
Qed.

(** [X5] Every error [validatePlan] throws reports a defect the plan
    has: the empty plan; a commit with a blank message, without hunks
    and operations, or with a header that is not conventional; an id
    that is referenced but not in the snapshot; an id that is referenced
    twice; or, for the missing-items error, exactly the snapshot ids
    that no commit references, of which there is at least one. *)
Theorem validatePlan_error_explained
    (plan : Plan.t) (hunks : list Hunk.t) (ops : list FileOp.t) (e : Error) :
  validatePlan plan hunks ops = inl e → errorExplained plan hunks ops e.
Proof.
  unfold validatePlan. case_decide as Hne; [by intros [= <-]|].
  destruct (validateCommits _ _ _ _) as [e'|[sh so]] eqn:Hc.
  - intros [= <-]. destruct plan as [commits].
    by apply (validateCommits_inl hunks ops commits []).
  - case_decide as Hmiss; [done|]. intros [= <-].
    apply validateCommits_inr in Hc as [(-> & _ & _) (-> & _ & _)].
    cbn [errorExplained]. split_and!.
    + destruct (filter _ (setValues (Hunk.id <$> hunks))); [right|by left].
      destruct (filter _ (setValues (FileOp.id <$> ops))); [|done].
      by destruct Hmiss.
    + intros id. rewrite list_elem_of_filter, elem_of_setValues.
      unfold planHunkRefs. set_solver.
    + intros id. rewrite list_elem_of_filter, elem_of_setValues.
      unfold planOpRefs. set_solver.
Qed.

Lemma validatePlan_error_witness :
  validatePlan
    (Plan.mk [PlanCommit.mk (str "fix: one") None [str "h1"] None;
              PlanCommit.mk (str "fix: two") None [str "h2"; str "h1"] None])
    [Sample.h1; Sample.h2] []
  = inl (DuplicateHunkId (str "h1"))
  ∧ occursTwice (str "h1") [str "h1"; str "h2"; str "h1"].
Proof.
  assert (validatePlan
    (Plan.mk [PlanCommit.mk (str "fix: one") None [str "h1"] None;
              PlanCommit.mk (str "fix: two") None [str "h2"; str "h1"] None])
    [Sample.h1; Sample.h2] []
  = inl (DuplicateHunkId (str "h1"))) as Hrun by (vm_compute; reflexivity).
  split; [exact Hrun|].
  exact (validatePlan_error_explained _ _ _ _ Hrun).
Defined.

(** ** PlanApplier: lookup tables, errors, commits created *)

Lemma byId_snoc {V} (key : V → jsstring) (items : list V) (x : V) :
  byId key (items ++ [x]) = <[ key x := x ]> (byId key items).
Proof. unfold byId. by rewrite foldl_snoc. Qed.

(** [X6] The lookup table built from a list maps an id to the last item
    of the list that has this id, and to nothing when no item has it. *)
Theorem byId_last_wins {V} (key : V → jsstring) (items : list V) (id : jsstring) :
  byId key items !! id = last (filter (λ x, key x = id) items).
Proof.
  induction items as [|x items IH] using rev_ind; [done|].
  rewrite byId_snoc, filter_app.
  destruct (decide (key x = id)) as [Hk|Hk].
  - rewrite (filter_cons_True _ x) by done. rewrite filter_nil.
    rewrite last_snoc. subst id. apply lookup_insert_eq.
  - rewrite (filter_cons_False _ x) by done. rewrite filter_nil, app_nil_r.
    by rewrite lookup_insert_ne.
Qed.

Lemma byId_is_Some {V} (key : V → jsstring) (items : list V) (id : jsstring) :
  id ∈ key <$> items → is_Some (byId key items !! id).
Proof.
  induction items as [|x items IH] using rev_ind.
  - by intros ?%elem_of_nil.
  - rewrite byId_snoc, fmap_app. intros [Hin|Hin]%elem_of_app.
    + destruct (decide (key x = id)) as [<-|Hk].
      * rewrite lookup_insert_eq. by eexists.
      * rewrite lookup_insert_ne by done. by apply IH.
    + apply list_elem_of_singleton in Hin as ->.
      rewrite lookup_insert_eq. by eexists.
Qed.

Section applier_errors.
Context `{GitEnv}.

Lemma groupHunks_inl hunkById ids acc e :
  groupHunks hunkById ids acc = inl e →
  ∃ id, id ∈ ids ∧ hunkById !! id = None ∧ e = UnknownHunkIdInPlan id.
Proof.
  revert acc. induction ids as [|id ids IH]; intros acc Hg; cbn in Hg; [done|].
  destruct (hunkById !! id) as [h|] eqn:Hid.
  - apply IH in Hg as (id' & Hin & Hn & ->).
    exists id'. split_and!; [|done..]. by apply list_elem_of_further.
  - injection Hg as <-. exists id. split_and!; [|done..]. apply list_elem_of_here.
Qed.

Lemma oneCall_inl c st st' e :
  oneCall c st = (st', inl e) → ∃ detail, e = GitFailed (Git.args c) detail.
Proof.
  unfold oneCall. destruct (spawnGit c (world st)) as [w [d|out]];
    intros [= <- <-]. by eexists.
Qed.

(** The errors of one planned commit: an id the lookup tables do not
    know, a failed command, a rename without source path, or nothing
    staged. *)
Lemma applyCommit_inl hunkById opById c st st' e :
  applyCommit hunkById opById c st = (st', inl e) →
  (∃ id, id ∈ PlanCommit.hunks c ∧ hunkById !! id = None
         ∧ e = UnknownHunkIdInPlan id)
  ∨ (∃ id, id ∈ default [] (PlanCommit.ops c) ∧ opById !! id = None
           ∧ e = UnknownOpIdInPlan id)
  ∨ (∃ args detail, e = GitFailed args detail)
  ∨ (∃ id, e = RenameMissingOrig id)
  ∨ e = NothingStaged (PlanCommit.message c).
Proof.
  unfold applyCommit. rewrite bind_unfold.
  destruct (stageHunks hunkById c st) as [st1 [e1|[]]] eqn:H1.
  { intros [= <- <-]. unfold stageHunks in H1. rewrite bind_unfold in H1.
    unfold lift in H1. destruct (groupHunks _ _ _) as [eg|groups] eqn:Hg.
    - injection H1 as <- <-. left. by apply groupHunks_inl in Hg.
    - destruct (truthy _); [|done]. unfold runGitWithStdin in H1.
      rewrite spawn_oneCall in H1. apply oneCall_inl in H1 as [d ->].
      right; right; left. by eauto. }
  rewrite bind_unfold.
  destruct (stageOps opById _ st1) as [st2 [e2|[]]] eqn:H2.
  { intros [= <- <-]. clear H1. revert st1 H2.
    induction (default [] (PlanCommit.ops c)) as [|opId opIds IH];
      intros st1 H2; cbn [stageOps] in H2; [done|].
    destruct (opById !! opId) as [op|] eqn:Hop.
    - rewrite bind_unfold in H2.
      destruct (stageOp op st1) as [st1' [eo|[]]] eqn:Hs.
      + injection H2 as <- <-. rewrite stageOp_run in Hs.
        destruct (FileOp.kind op);
          try (apply oneCall_inl in Hs as [d ->]; right; right; left; by eauto).
        destruct (FileOp.origPath op) as [[|ch o]|];
          try (apply oneCall_inl in Hs as [d ->]; right; right; left; by eauto);
          injection Hs as <- <-; right; right; right; left; by eauto.
      + apply IH in H2.
        destruct H2 as [?|[(id & Hin & Hn & ->)|?]]; [by left| |by right; right].
        right; left. exists id. split_and!; [|done..].
        by apply list_elem_of_further.
    - injection H2 as <- <-. right; left. exists opId.
      split_and!; [|done..]. apply list_elem_of_here. }
  rewrite bind_unfold.
  destruct (commitStaged c st2) as [st3 [e3|[]]] eqn:H3.
  { intros [= <- <-]. unfold commitStaged, runGit in H3.
    rewrite bind_unfold in H3. unfold spawn at 1 in H3.
    destruct (spawnGit (Git.Call stagedArgs None) (world st2)) as [w1 [d|out]].
    - injection H3 as <- <-. right; right; left. by eauto.
    - rewrite bind_unfold in H3. destruct (negb _).
      + injection H3 as <- <-. by repeat right.
      + cbn [mret M_ret ret] in H3. rewrite spawn_oneCall in H3.
        apply oneCall_inl in H3 as [d' ->]. right; right; left. by eauto. }
  unfold runGit. rewrite spawn_oneCall. intros [d ->]%oneCall_inl.
  right; right; left. by eauto.
Qed.

Lemma applyCommits_inl hunkById opById commits st st' e :
  applyCommits hunkById opById commits st = (st', inl e) →
  ∃ c st0 st1, c ∈ commits ∧ applyCommit hunkById opById c st0 = (st1, inl e).
Proof.
  revert st. induction commits as [|c commits IH]; intros st;
    cbn [applyCommits]; [done|].
  destruct (isCancellationRequested (world st)); [done|].
  rewrite bind_unfold.
  destruct (applyCommit hunkById opById c st) as [st1 [e1|[]]] eqn:Hc.
  - intros [= <- <-]. exists c, st, st1. split; [apply list_elem_of_here|done].
  - intros (c' & st0 & st2 & Hin & Hc')%IH. exists c', st0, st2.
    split; [by apply list_elem_of_further|done].
Qed.

Lemma elem_of_concat_2 {A} (x : A) (l : list A) (ls : list (list A)) :
  x ∈ l → l ∈ ls → x ∈ concat ls.
Proof.
  intros Hx. induction ls as [|l' ls IH]; [by intros ?%elem_of_nil|].
  intros [->|Hl]%elem_of_cons; cbn [concat]; apply elem_of_app;
    [by left|right; by apply IH].
Qed.

Lemma validatePlan_inr_known plan hunks ops :
  validatePlan plan hunks ops = inr tt →
  (∀ id, id ∈ planHunkRefs plan → id ∈ Hunk.id <$> hunks)
  ∧ (∀ id, id ∈ planOpRefs plan → id ∈ FileOp.id <$> ops).
Proof.
  unfold validatePlan, planHunkRefs, planOpRefs. intros Hv.
  case_decide; [done|].
  destruct (validateCommits _ _ _ _) as [|[sh so]] eqn:Hc; [done|].
  apply validateCommits_inr in Hc as [(_ & _ & Hin1) (_ & _ & Hin2)].
  split; intros id Hid.
  - apply Hin1 in Hid as [Hid _]. by apply elem_of_list_to_set in Hid.
  - apply Hin2 in Hid as [Hid _]. by apply elem_of_list_to_set in Hid.
Qed.

(** [X7] Applying a plan that [validatePlan] accepted for the same hunks
    and operations never fails on an unknown hunk or operation id: it
    can only fail because a command failed, because a rename has no
    source path, or because nothing was staged for a commit. *)
Theorem validated_plan_apply_errors
    (plan : Plan.t) (hunks : list Hunk.t) (ops : list FileOp.t)
    (st st' : St) (e : Error) :
  validatePlan plan hunks ops = inr tt →
  applyPlan plan hunks ops st = (st', inl e) →
  (∃ args detail, e = GitFailed args detail)
  ∨ (∃ id, e = RenameMissingOrig id)
  ∨ (∃ c, c ∈ Plan.commits plan ∧ e = NothingStaged (PlanCommit.message c)).
Proof.
  intros [Hh Ho]%validatePlan_inr_known (c & st0 & st1 & Hc & He)%applyCommits_inl.
  apply applyCommit_inl in He
    as [(id & Hin & Hn & _)|[(id & Hin & Hn & _)|[?|[?| ->]]]];
    [exfalso|exfalso|by left|by right; left|right; right; by exists c].
  - destruct (byId_is_Some Hunk.id hunks id) as [h Hsome]; [|congruence].
    apply Hh. unfold planHunkRefs.
    apply (elem_of_concat_2 _ (PlanCommit.hunks c)); [done|]. by apply list_elem_of_fmap_2.
  - destruct (byId_is_Some FileOp.id ops id) as [op Hsome]; [|congruence].
    apply Ho. unfold planOpRefs.
    apply (elem_of_concat_2 _ (default [] (PlanCommit.ops c))); [done|].
    by apply (list_elem_of_fmap_2 (λ c, default [] (PlanCommit.ops c))).
Qed.
End applier_errors.

Section applier_commits.
Context `{GitEnv}.












End applier_commits.

Lemma validated_apply_witness :
  validatePlan Sample.plan [Sample.h1; Sample.h2] [Sample.opAdd] = inr tt
  ∧ ((∃ args detail,
        NothingStaged (str "fix(core): handle null input")
        = GitFailed args detail)
     ∨ (∃ id, NothingStaged (str "fix(core): handle null input")
              = RenameMissingOrig id)
     ∨ (∃ c, c ∈ Plan.commits Sample.plan
             ∧ NothingStaged (str "fix(core): handle null input")
               = NothingStaged (PlanCommit.message c))).
Proof.
  split; [vm_compute; reflexivity|].
  apply (validated_plan_apply_errors (H := Succeeds.env [])
           Sample.plan [Sample.h1; Sample.h2] [Sample.opAdd] (Succeeds.st0 [])
           (applyPlan (H := Succeeds.env []) Sample.plan
              [Sample.h1; Sample.h2] [Sample.opAdd] (Succeeds.st0 [])).1).
  - vm_compute. reflexivity.
  - vm_compute. reflexivity.
Defined.


(** ** DiffParser: shape, number and content of the hunks *)

Section diff_parser.
Context `{Sha1}.

Lemma startsHunk_head (l : jsstring) :
  startsHunk l = true → ∃ l', l = chr "@" :: l'.
Proof.
  destruct l as [|c l]; [done|]. unfold startsHunk.
  change (str "@@ ") with [chr "@"; chr "@"; chr " "]. cbn [startsWith].
  intros [Hc _]%andb_true_iff. apply N.eqb_eq in Hc as <-. by eexists.
Qed.

Lemma startsHunk_not_file (l : jsstring) :
  startsHunk l = true → startsFile l = false.
Proof. by intros [l' ->]%startsHunk_head. Qed.

Lemma calcStats_bound (ls : list jsstring) (a d : nat) :
  ((foldl statsStep (a, d) ls).1 + (foldl statsStep (a, d) ls).2
   ≤ a + d + length ls)%nat.
Proof.
  revert a d. induction ls as [|l ls IH]; intros a d; cbn [foldl length].
  - cbn. lia.
  - unfold statsStep at 2 4.
    destruct (_ || _); [|destruct (startsWith (str "+") l);
                          [|destruct (startsWith (str "-") l)]];
      match goal with
      | |- context [foldl statsStep (?a', ?d') ls] =>
          pose proof (IH a' d')
      end; lia.
Qed.

Lemma calcStats_hunk (hd : jsstring) (body : list jsstring) :
  startsHunk hd = true →
  ((calcStats (hd :: body)).1 + (calcStats (hd :: body)).2
   < length (hd :: body))%nat.
Proof.
  intros [l' ->]%startsHunk_head. unfold calcStats. cbn [foldl length].
  change (if startsWith (str "+++ ") (chr "@" :: l')
             || startsWith (str "--- ") (chr "@" :: l') then (0, 0)%nat
          else if startsWith (str "+") (chr "@" :: l') then (1, 0)%nat
          else if startsWith (str "-") (chr "@" :: l') then (0, 1)%nat
          else (0, 0)%nat) with (0, 0)%nat.
  pose proof (calcStats_bound body 0 0) as Hb. unfold statsStep in Hb. lia.
Qed.

Lemma makeHunk_ok fileHeader currentFile hunkLines :
  headerOk fileHeader → hunkLinesOk hunkLines →
  hunkOk (makeHunk fileHeader currentFile hunkLines).
Proof.
  intros Hfh Hhl. unfold hunkOk, makeHunk. cbn. split_and!; try done.
  - destruct currentFile as [|c cf]; cbn [truthy]; [|done].
    destruct (guessFileFromDiffHeader fileHeader) as [[|c g]|]; by cbn.
  - destruct Hhl as (hd & body & -> & Hhd & _). by apply calcStats_hunk.
Qed.

Lemma headerOk_snoc fileHeader line :
  fileHeader ≠ [] → headerOk fileHeader → boundary line = false →
  headerOk (fileHeader ++ [line]).
Proof.
  intros Hne [->|(d & meta & -> & Hd & Hmeta)] Hl; [done|]. right.
  exists d, (meta ++ [line]). split_and!; [done..|].
  apply Forall_app. split; [done|]. by constructor.
Qed.

Lemma hunkLinesOk_snoc hunkLines line :
  hunkLinesOk hunkLines → boundary line = false →
  hunkLinesOk (hunkLines ++ [line]).
Proof.
  intros (hd & body & -> & Hhd & Hbody) Hl.
  exists hd, (body ++ [line]). split_and!; [done..|].
  apply Forall_app. split; [done|]. by constructor.
Qed.

Lemma flushHunk_ok fileHeader currentFile mode h :
  headerOk fileHeader → modeOk mode →
  h ∈ flushHunk fileHeader currentFile mode → hunkOk h.
Proof.
  intros Hfh Hm. destruct mode as [| |hl]; cbn [flushHunk];
    try by intros ?%elem_of_nil.
  intros ->%list_elem_of_singleton. by apply makeHunk_ok.
Qed.

(** [X9] Every hunk that [parseUnifiedDiff] returns is well formed: its
    lines are an [@@] line followed by lines that open neither a file
    nor a hunk; its file header is empty or a [diff --git] line followed
    by such lines; its file name is not empty; its patch text is the
    header and the hunk lines joined by newlines; its id is [h] with ten
    digits of the digest of the file name and the hunk lines; and its
    added and deleted counts together are less than the number of its
    lines. *)
Theorem parsed_hunks_well_formed (diff : jsstring) (h : Hunk.t) :
  h ∈ parseUnifiedDiff diff → hunkOk h.
Proof.
  assert (∀ lines fileHeader currentFile mode,
            headerOk fileHeader → modeOk mode →
            (mode = InHeader → fileHeader ≠ []) →
            h ∈ diffLoop lines fileHeader currentFile mode → hunkOk h) as Hloop.
  { intros lines.
    induction lines as [|line lines IH]; intros fh cf mode Hfh Hm Hne;
      cbn [diffLoop].
    - by apply flushHunk_ok.
    - destruct (startsWith (str "diff --git ") line) eqn:Hd.
      { intros [Hin|Hin]%elem_of_app; [by eapply flushHunk_ok|].
        eapply IH; [| | |exact Hin]; [|done..].
        right. exists line, []. by split_and!. }
      destruct (startsWith (str "@@ ") line) eqn:Hh.
      { intros [Hin|Hin]%elem_of_app; [by eapply flushHunk_ok|].
        eapply IH; [exact Hfh| | |exact Hin]; [|done].
        exists line, []. by split_and!. }
      assert (boundary line = false) as Hb.
      { unfold boundary, startsFile, startsHunk. by rewrite Hd, Hh. }
      destruct mode as [| |hl].
      + by apply IH.
      + apply IH; [|done|].
        * apply headerOk_snoc; auto.
        * intros _. by destruct fh.
      + apply IH; [done| |done]. by apply hunkLinesOk_snoc. }
  unfold parseUnifiedDiff. apply Hloop; [by left|done..].
Qed.

Lemma flushHunk_length fileHeader currentFile mode :
  length (flushHunk fileHeader currentFile mode)
  = match mode with InHunk _ => 1%nat | _ => 0%nat end.
Proof. by destruct mode. Qed.

(** [X10] [parseUnifiedDiff] returns exactly one hunk for each line of
    the diff that starts with [@@ ]. *)
Theorem parsed_hunks_count (diff : jsstring) :
  length (parseUnifiedDiff diff)
  = length (filter (λ l, startsHunk l = true) (splitLines diff)).
Proof.
  assert (∀ lines fileHeader currentFile mode,
            length (diffLoop lines fileHeader currentFile mode)
            = (match mode with InHunk _ => 1 | _ => 0 end
               + length (filter (λ l, startsHunk l = true) lines))%nat) as Hloop.
  { intros lines.
    induction lines as [|line lines IH]; intros fh cf mode; cbn [diffLoop].
    - rewrite flushHunk_length. cbn. lia.
    - destruct (startsWith (str "diff --git ") line) eqn:Hd.
      { rewrite length_app, flushHunk_length, IH.
        rewrite filter_cons_False; [done|].
        intros Hh%startsHunk_not_file. unfold startsFile in Hh. congruence. }
      destruct (startsWith (str "@@ ") line) eqn:Hh.
      { rewrite length_app, flushHunk_length, IH.
        rewrite filter_cons_True by done. cbn [length]. lia. }
      rewrite filter_cons_False by (unfold startsHunk; congruence).
      destruct mode; by rewrite IH. }
  unfold parseUnifiedDiff. by rewrite Hloop.
Qed.

(** [X11] When no line of the diff starts with [diff --git ], every hunk
    has an empty file header and the file name [UNKNOWN]. *)
Theorem headerless_hunks_unknown (diff : jsstring) (h : Hunk.t) :
  Forall (λ l, startsFile l = false) (splitLines diff) →
  h ∈ parseUnifiedDiff diff →
  Hunk.fileHeader h = [] ∧ Hunk.file h = str "UNKNOWN".
Proof.
  assert (∀ lines mode,
            Forall (λ l, startsFile l = false) lines →
            mode ≠ InHeader →
            h ∈ diffLoop lines [] [] mode →
            Hunk.fileHeader h = [] ∧ Hunk.file h = str "UNKNOWN") as Hloop.
  { intros lines.
    induction lines as [|line lines IH]; intros mode Hall Hm;
      cbn [diffLoop].
    - destruct mode; cbn [flushHunk]; try by intros ?%elem_of_nil.
      by intros ->%list_elem_of_singleton.
    - apply Forall_cons in Hall as [Hl Hall]. unfold startsFile in Hl.
      rewrite Hl. destruct (startsWith (str "@@ ") line).
      + intros [Hin|Hin]%elem_of_app; [|by apply (IH (InHunk [line]))].
        destruct mode; cbn [flushHunk] in Hin; try by apply elem_of_nil in Hin.
        by apply list_elem_of_singleton in Hin as ->.
      + destruct mode; [by apply IH|done|by apply IH]. }
  intros Hall. unfold parseUnifiedDiff. by apply Hloop.
Qed.

Lemma diffLoop_skip (x : Hunk.t) (l1 l2 : list jsstring) :
  (∀ fileHeader currentFile mode, x ∈ diffLoop l2 fileHeader currentFile mode) →
  ∀ fileHeader currentFile mode,
    x ∈ diffLoop (l1 ++ l2) fileHeader currentFile mode.
Proof.
  intros Hx. induction l1 as [|line l1 IH]; intros fh cf mode; [apply Hx|].
  cbn [app diffLoop].
  destruct (startsWith (str "diff --git ") line);
    [apply elem_of_app; right; apply IH|].
  destruct (startsWith (str "@@ ") line);
    [apply elem_of_app; right; apply IH|].
  destruct mode; apply IH.
Qed.

Lemma currentFileOf_foldl (meta : list jsstring) (currentFile : jsstring) :
  foldl (λ cf l, if startsWith (str "+++ b/") l then drop 6 l else cf)
        currentFile meta
  = default currentFile
      (drop 6 <$> last (filter (λ l, startsWith (str "+++ b/") l = true) meta)).
Proof.
  induction meta as [|l meta IH] using rev_ind; [done|].
  rewrite foldl_snoc, filter_app.
  destruct (startsWith (str "+++ b/") l) eqn:Hl.
  - rewrite (filter_cons_True _ l) by done. by rewrite filter_nil, last_snoc.
  - rewrite (filter_cons_False _ l) by congruence.
    by rewrite filter_nil, app_nil_r.
Qed.

Lemma diffLoop_meta (meta s : list jsstring) fileHeader currentFile :
  Forall (λ l, boundary l = false) meta →
  diffLoop (meta ++ s) fileHeader currentFile InHeader
  = diffLoop s (fileHeader ++ meta)
      (foldl (λ cf l, if startsWith (str "+++ b/") l then drop 6 l else cf)
             currentFile meta)
      InHeader.
Proof.
  revert fileHeader currentFile.
  induction meta as [|l meta IH]; intros fh cf Hall; cbn [app foldl].
  - by rewrite app_nil_r.
  - apply Forall_cons in Hall as [Hl Hall].
    apply orb_false_iff in Hl as [Hd Hh]. unfold startsFile in Hd.
    unfold startsHunk in Hh. cbn [diffLoop]. rewrite Hd, Hh, IH by done.
    by rewrite <- app_assoc.
Qed.

Lemma diffLoop_body (body rest : list jsstring) fileHeader currentFile hunkLines :
  Forall (λ l, boundary l = false) body →
  diffLoop (body ++ rest) fileHeader currentFile (InHunk hunkLines)
  = diffLoop rest fileHeader currentFile (InHunk (hunkLines ++ body)).
Proof.
  revert hunkLines. induction body as [|l body IH]; intros hl Hall; cbn [app].
  - by rewrite app_nil_r.
  - apply Forall_cons in Hall as [Hl Hall].
    apply orb_false_iff in Hl as [Hd Hh]. unfold startsFile in Hd.
    unfold startsHunk in Hh. cbn [diffLoop]. rewrite Hd, Hh, IH by done.
    by rewrite <- app_assoc.
Qed.

Lemma diffLoop_same_file (x : Hunk.t) (mid s : list jsstring)
    fileHeader currentFile hunkLines :
  Forall (λ l, startsFile l = false) mid →
  (∀ mode, x ∈ diffLoop s fileHeader currentFile mode) →
  x ∈ diffLoop (mid ++ s) fileHeader currentFile (InHunk hunkLines).
Proof.
  intros Hall Hx. revert hunkLines.
  induction mid as [|l mid IH]; intros hl; [apply Hx|].
  apply Forall_cons in Hall as [Hl Hall]. unfold startsFile in Hl.
  cbn [app diffLoop]. rewrite Hl. destruct (startsWith (str "@@ ") l).
  - apply elem_of_app. right. by apply IH.
  - by apply IH.
Qed.

Lemma diffLoop_closes (rest : list jsstring) fileHeader currentFile hunkLines :
  opensWith boundary rest →
  makeHunk fileHeader currentFile hunkLines
    ∈ diffLoop rest fileHeader currentFile (InHunk hunkLines).
Proof.
  destruct rest as [|b rest]; cbn [opensWith diffLoop flushHunk].
  - intros _. apply list_elem_of_here.
  - unfold boundary, startsFile, startsHunk.
    intros [Hb|Hb]%orb_true_iff; rewrite Hb;
      [|destruct (startsWith (str "diff --git ") b)];
      apply elem_of_app; left; apply list_elem_of_here.
Qed.

(** [X12] How a hunk gets its header, file name and lines.  Take a
    [diff --git] line followed by meta lines, then possibly earlier
    hunks of the same file, then an [@@] line followed by lines up to
    the next [diff --git] or [@@] line or the end of the diff.  Then the
    result contains the hunk whose header is the [diff --git] line with
    the meta lines, whose lines are the [@@] line with the lines that
    follow it, and whose file name is taken from the last meta line that
    starts with [+++ b/]. *)
Theorem hunk_of_file_section
    (diff : jsstring) (pre : list jsstring) (d : jsstring)
    (meta mid : list jsstring) (hd : jsstring) (body rest : list jsstring) :
  splitLines diff = pre ++ d :: meta ++ mid ++ hd :: body ++ rest →
  startsFile d = true →
  Forall (λ l, boundary l = false) meta →
  opensWith startsHunk mid →
  Forall (λ l, startsFile l = false) mid →
  startsHunk hd = true →
  Forall (λ l, boundary l = false) body →
  opensWith boundary rest →
  makeHunk (d :: meta) (currentFileOf meta) (hd :: body) ∈ parseUnifiedDiff diff.
Proof.
  intros Hlines Hd Hmeta Hopen Hmid Hhd Hbody Hrest.
  unfold parseUnifiedDiff. rewrite Hlines. apply diffLoop_skip.
  intros fh cf mode. cbn [diffLoop]. unfold startsFile in Hd. rewrite Hd.
  apply elem_of_app. right.
  rewrite diffLoop_meta by done. rewrite currentFileOf_foldl. cbn [app].
  fold (currentFileOf meta).
  assert (∀ mode', makeHunk (d :: meta) (currentFileOf meta) (hd :: body)
                     ∈ diffLoop (hd :: body ++ rest) (d :: meta)
                         (currentFileOf meta) mode') as Hfinal.
  { intros mode'. cbn [diffLoop].
    rewrite (startsHunk_not_file hd Hhd : startsWith _ hd = false).
    unfold startsHunk in Hhd. rewrite Hhd.
    apply elem_of_app. right. rewrite diffLoop_body by done.
    by apply diffLoop_closes. }
  destruct mid as [|m mid]; [apply Hfinal|].
  cbn [opensWith] in Hopen. apply Forall_cons in Hmid as [_ Hmid].
  cbn [app diffLoop].
  rewrite (startsHunk_not_file m Hopen : startsWith _ m = false).
  unfold startsHunk in Hopen. rewrite Hopen. cbn [flushHunk app].
  by apply diffLoop_same_file.
Qed.
End diff_parser.

Lemma parsed_hunks_witness :
  Canned.hunkA ∈ parseUnifiedDiff (H := fakeSha1) Canned.diffText
  ∧ hunkOk (H := fakeSha1) Canned.hunkA.
Proof.
  assert (Canned.hunkA ∈ parseUnifiedDiff (H := fakeSha1) Canned.diffText)
    as Hin by (vm_compute; apply list_elem_of_here).
  split; [exact Hin|].
  exact (parsed_hunks_well_formed (H := fakeSha1) _ _ Hin).
Defined.

Lemma headerless_hunks_witness :
  parseUnifiedDiff (H := fakeSha1) DiffExample.headerless
  = [makeHunk (H := fakeSha1) [] [] DiffExample.first]
  ∧ Hunk.fileHeader (makeHunk (H := fakeSha1) [] [] DiffExample.first) = []
  ∧ Hunk.file (makeHunk (H := fakeSha1) [] [] DiffExample.first)
    = str "UNKNOWN".
Proof.
  split; [vm_compute; reflexivity|].
  apply (headerless_hunks_unknown (H := fakeSha1) DiffExample.headerless).
  - repeat constructor.
  - vm_compute. apply list_elem_of_here.
Defined.

Lemma hunk_of_file_section_witness :
  makeHunk (H := fakeSha1) DiffExample.header (str "f.txt") DiffExample.second
    ∈ parseUnifiedDiff (H := fakeSha1) DiffExample.diff.
Proof.
  apply (hunk_of_file_section (H := fakeSha1) DiffExample.diff []
           (str "diff --git a/f.txt b/f.txt")
           [str "--- a/f.txt"; str "+++ b/f.txt"]
           DiffExample.first (str "@@ -9 +9 @@") [str "-x"; str "+y"] []).
  - vm_compute. reflexivity.
  - reflexivity.
  - repeat constructor.
  - reflexivity.
  - repeat constructor.
  - reflexivity.
  - repeat constructor.
  - exact I.
Defined.

(** ** DiffParser: the file name guessed from the [diff --git] line *)

Lemma startsWith_app (p s : jsstring) : startsWith p (p ++ s) = true.
Proof. induction p as [|c p IH]; [done|]. cbn. by rewrite N.eqb_refl. Qed.

Lemma startsWith_head_ne (x c : N) (p s : jsstring) :
  x ≠ c → startsWith (x :: p) (c :: s) = false.
Proof. intros Hne. cbn. by rewrite (proj2 (N.eqb_neq x c) Hne). Qed.

Lemma forallb_Forall_true {A} (p : A → bool) (l : list A) :
  Forall (λ c, p c = true) l → forallb p l = true.
Proof. induction 1 as [|c l Hc _ IH]; [done|]. cbn. by rewrite Hc, IH. Qed.

Lemma destinationAfter_cons (x : nat) (c : N) (rest : jsstring) :
  destinationAfter x (c :: rest)
  = if (0 <? x)%nat && startsWith (str " b/") (c :: rest)
       && truthy (drop 3 (c :: rest)) && forallb dot (drop 3 (c :: rest))
    then Some (drop 3 (c :: rest))
    else if dot c then destinationAfter (S x) rest else None.
Proof. reflexivity. Qed.

Lemma destinationAfter_b_side (a b : jsstring) (x : nat) :
  (0 < x + length a)%nat → chr " " ∉ a → Forall (λ c, dot c = true) a →
  b ≠ [] → Forall (λ c, dot c = true) b →
  destinationAfter x (a ++ str " b/" ++ b) = Some b.
Proof.
  intros Hx Hsp Hdot Hb Hbd. revert x Hx.
  induction a as [|c a IH]; intros x Hx.
  - cbn [app length] in *.
    change (str " b/" ++ b) with (chr " " :: (str "b/" ++ b)).
    rewrite destinationAfter_cons.
    change (chr " " :: (str "b/" ++ b)) with (str " b/" ++ b).
    rewrite startsWith_app. change (drop 3 (str " b/" ++ b)) with b.
    rewrite (proj2 (Nat.ltb_lt 0 x)) by lia.
    rewrite forallb_Forall_true by done. by destruct b.
  - apply not_elem_of_cons in Hsp as [Hc Hsp].
    apply Forall_cons in Hdot as [Hdc Hdot].
    cbn [app]. rewrite destinationAfter_cons.
    change (str " b/") with (chr " " :: str "b/").
    rewrite startsWith_head_ne by done.
    rewrite andb_false_r. cbn [andb]. rewrite Hdc.
    apply IH; [done..|]. cbn [length] in Hx. lia.
Qed.

(** [X13] For a file header that begins with the line [diff --git a/A
    b/B], where [A] is not empty and has no space and neither [A] nor
    the non-empty [B] has a line terminator, the guessed file name is
    [B], whatever [B] contains; a hunk whose header has no [+++ b/] line
    gets this name. *)
Theorem guessed_file_is_b_side `{Sha1}
    (a b : jsstring) (meta hunkLines : list jsstring) :
  a ≠ [] → chr " " ∉ a → Forall (λ c, dot c = true) a →
  b ≠ [] → Forall (λ c, dot c = true) b →
  let d := str "diff --git a/" ++ a ++ str " b/" ++ b in
  guessFileFromDiffHeader (d :: meta) = Some b
  ∧ Hunk.file (makeHunk (d :: meta) [] hunkLines) = b.
Proof.
  intros Ha Hsp Hdot Hb Hbd d.
  assert (guessFileFromDiffHeader (d :: meta) = Some b) as Hguess.
  { unfold guessFileFromDiffHeader, d. cbn [List.find].
    change (str "diff --git a/") with (str "diff --git " ++ str "a/") at 1.
    rewrite <- (app_assoc (str "diff --git ")), startsWith_app.
    rewrite startsWith_app.
    rewrite (drop_app_length' _ _ 13) by reflexivity.
    apply destinationAfter_b_side; try done. destruct a; [done|cbn; lia]. }
  split; [done|]. unfold makeHunk. cbn [Hunk.file truthy].
  rewrite Hguess. by destruct b.
Qed.

Lemma guessed_file_witness :
  guessFileFromDiffHeader
    [str "diff --git a/gone.txt b/gone.txt"; str "deleted file mode 100644";
     str "--- a/gone.txt"; str "+++ /dev/null"]
  = Some (str "gone.txt")
  ∧ Hunk.file (makeHunk (H := fakeSha1)
      [str "diff --git a/gone.txt b/gone.txt"; str "deleted file mode 100644";
       str "--- a/gone.txt"; str "+++ /dev/null"] []
      [str "@@ -1 +0,0 @@"; str "-bye"])
    = str "gone.txt".
Proof.
  apply (guessed_file_is_b_side (H := fakeSha1) (str "gone.txt") (str "gone.txt")
           [str "deleted file mode 100644"; str "--- a/gone.txt";
            str "+++ /dev/null"]
           [str "@@ -1 +0,0 @@"; str "-bye"]).
  - discriminate.
  - apply (bool_decide_unpack _). vm_compute. exact I.
  - repeat constructor.
  - discriminate.
  - repeat constructor.
Defined.

(** ** BinaryOpExtractor *)

Lemma dropWhile_idem {A} (p : A → bool) (l : list A) :
  dropWhile p (dropWhile p l) = dropWhile p l.
Proof.
  induction l as [|x l IH]; [done|]. cbn [dropWhile].
  destruct (p x) eqn:Hx; [done|]. cbn [dropWhile]. by rewrite Hx.
Qed.

Lemma dropWhile_head {A} (p : A → bool) (l : list A) x t :
  dropWhile p l = x :: t → p x = false.
Proof.
  induction l as [|y l IH]; [done|]. cbn [dropWhile].
  destruct (p y) eqn:Hy; [done|]. by intros [= <- _].
Qed.

Lemma dropWhile_snoc_false {A} (p : A → bool) (l : list A) x :
  p x = false → dropWhile p (l ++ [x]) = dropWhile p l ++ [x].
Proof.
  intros Hx. induction l as [|y l IH]; cbn [app dropWhile]; [by rewrite Hx|].
  by destruct (p y).
Qed.

Lemma trimEnd_keeps_head (c : N) (t : jsstring) :
  isWhiteSpace c = false → ∃ r, trimEnd (c :: t) = c :: r.
Proof.
  intros Hc. unfold trimEnd. rewrite reverse_cons.
  rewrite dropWhile_snoc_false by done. rewrite reverse_snoc. by eexists.
Qed.

Lemma trim_idem (s : jsstring) : trim (trim s) = trim s.
Proof.
  unfold trim. destruct (trimStart s) as [|c t] eqn:Ht; [done|].
  pose proof (dropWhile_head _ _ _ _ Ht) as Hc.
  destruct (trimEnd_keeps_head c t Hc) as [r Hr].
  rewrite Hr. unfold trimStart at 1. cbn [dropWhile]. rewrite Hc, <- Hr.
  unfold trimEnd. by rewrite reverse_involutive, dropWhile_idem.
Qed.

Section binary_ops.
Context `{Sha1}.

(** [X14] Every operation [extractBinaryOpsFromDiff] returns is the
    binary operation [makeOp] builds from its path, without source
    path; the path is not empty and has no white space at either end. *)
Theorem binary_ops_well_formed (diff : jsstring) (op : FileOp.t) :
  op ∈ extractBinaryOpsFromDiff diff →
  op = makeOp binary (FileOp.path op) None
  ∧ FileOp.path op ≠ []
  ∧ trim (FileOp.path op) = FileOp.path op.
Proof.
  unfold extractBinaryOpsFromDiff. generalize (splitLines diff) as lines.
  intros lines. generalize (@None jsstring) at 1 as currentFile. revert lines.
  induction lines as [|l lines IH]; intros cf; cbn [binaryOpsLoop].
  - by intros ?%elem_of_nil.
  - destruct (startsWith (str "diff --git ") l); [apply IH|].
    destruct (startsWith (str "+++ b/") l); [apply IH|].
    destruct (startsWith (str "Binary files ") l); [|apply IH].
    destruct (match binaryDestination l with
              | Some p => Some p
              | None => cf
              end) as [p|]; cbn [fmap option_fmap option_map truthyOpt];
      [|apply IH].
    destruct (truthy (trim p)) eqn:Hp; [|apply IH].
    intros [->|Hin]%elem_of_cons; [|by eapply IH].
    cbn [default FileOp.path makeOp]. split_and!; [done| |apply trim_idem].
    by destruct (trim p).
Qed.

Lemma binaryDestination_step (c : N) (l : jsstring) :
  startsWith (str " and b/") (c :: l) = false →
  binaryDestination (c :: l) = binaryDestination l.
Proof. intros Hs. cbn [binaryDestination]. by rewrite Hs. Qed.

Lemma binaryDestination_skip (x rest : jsstring) :
  chr " " ∉ x → binaryDestination (x ++ rest) = binaryDestination rest.
Proof.
  induction x as [|c x IH]; [done|].
  intros [Hc Hx]%not_elem_of_cons. cbn [app].
  rewrite binaryDestination_step; [by apply IH|].
  change (str " and b/") with (chr " " :: str "and b/").
  by apply startsWith_head_ne.
Qed.

Lemma Matches_LitStr (s : jsstring) : Matches (LitStr s) s.
Proof.
  induction s as [|c s IH]; cbn [LitStr]; [constructor|].
  apply (MSeq _ _ [c] s); [|done]. by apply Matches_lit.
Qed.

Lemma binaryDestination_line (x p : jsstring) :
  chr " " ∉ x → p ≠ [] → Forall (λ c, dot c = true) p →
  binaryDestination
    (str "Binary files a/" ++ x ++ str " and b/" ++ p ++ str " differ")
  = Some p.
Proof.
  intros Hx Hp Hdot.
  let v := eval vm_compute in (str "Binary files a/") in
  change (str "Binary files a/") with v.
  cbn [app]. do 15 (rewrite binaryDestination_step by reflexivity).
  rewrite binaryDestination_skip by done.
  change (str " and b/" ++ p ++ str " differ")
    with (chr " " :: (str "and b/" ++ p ++ str " differ")).
  cbn [binaryDestination].
  change (chr " " :: (str "and b/" ++ p ++ str " differ"))
    with (str " and b/" ++ (p ++ str " differ")).
  rewrite startsWith_app.
  rewrite (drop_app_length' _ _ 7) by reflexivity.
  rewrite (proj2 (re_test_spec _ _)).
  - cbn [andb]. f_equal. rewrite length_app.
    change (length (str " differ")) with 7%nat.
    replace (length p + 7 - 7)%nat with (length p) by lia.
    by rewrite take_app_length.
  - apply Matches_seq. exists p, (str " differ"). split_and!; [done| |].
    + by apply Matches_plus_class.
    + apply Matches_LitStr.
Qed.

(** [X15] A line [Binary files a/X and b/P differ] of the diff, where
    [X] has no space and the non-empty [P] has no line terminator,
    yields the binary operation for [P] trimmed, provided that is not
    empty; what [P] itself contains does not matter. *)
Theorem binary_line_yields_op (diff x p : jsstring) :
  str "Binary files a/" ++ x ++ str " and b/" ++ p ++ str " differ"
    ∈ splitLines diff →
  chr " " ∉ x → p ≠ [] → Forall (λ c, dot c = true) p → trim p ≠ [] →
  makeOp binary (trim p) None ∈ extractBinaryOpsFromDiff diff.
Proof.
  intros Hin Hx Hp Hdot Htrim.
  pose proof (binaryDestination_line x p Hx Hp Hdot) as Hdest.
  unfold extractBinaryOpsFromDiff. revert Hin.
  generalize (splitLines diff) as lines. intros lines.
  generalize (@None jsstring) at 2 as currentFile. intros cf Hin. revert cf.
  induction lines as [|l lines IH]; intros cf;
    [by apply elem_of_nil in Hin|].
  cbn [binaryOpsLoop]. apply elem_of_cons in Hin as [<-|Hin].
  - change (startsWith (str "diff --git ")
              (str "Binary files a/" ++ x ++ str " and b/" ++ p ++ str " differ"))
      with false.
    change (startsWith (str "+++ b/")
              (str "Binary files a/" ++ x ++ str " and b/" ++ p ++ str " differ"))
      with false.
    change (startsWith (str "Binary files ")
              (str "Binary files a/" ++ x ++ str " and b/" ++ p ++ str " differ"))
      with true.
    cbn iota. rewrite Hdest. cbn [fmap option_fmap option_map truthyOpt default].
    destruct (trim p) eqn:Ht; [done|]. apply list_elem_of_here.
  - repeat match goal with
           | |- context [if ?b then _ else _] => destruct b
           end; try apply list_elem_of_further; by apply IH.
Qed.
End binary_ops.

Lemma binary_ops_witness :
  makeOp (H := fakeSha1) binary (str "img.png") None
    ∈ extractBinaryOpsFromDiff (H := fakeSha1) BinaryExample.diff
  ∧ trim (str "img.png") = str "img.png".
Proof.
  assert (makeOp (H := fakeSha1) binary (str "img.png") None
            ∈ extractBinaryOpsFromDiff (H := fakeSha1) BinaryExample.diff)
    as Hin by (vm_compute; apply list_elem_of_here).
  split; [exact Hin|].
  exact (proj2 (proj2 (binary_ops_well_formed (H := fakeSha1) _ _ Hin))).
Defined.

Lemma binary_line_witness :
  makeOp (H := fakeSha1) binary (trim (str "img.png")) None
    ∈ extractBinaryOpsFromDiff (H := fakeSha1) BinaryExample.diff.
Proof.
  apply (binary_line_yields_op (H := fakeSha1) BinaryExample.diff
           (str "img.png") (str "img.png")).
  - apply (bool_decide_unpack _). vm_compute. exact I.
  - apply (bool_decide_unpack _). vm_compute. exact I.
  - discriminate.
  - repeat constructor.
  - discriminate.
Defined.

(** ** Lines of a text: [split(/\r?\n/)] *)

Lemma consHead_cons (c : N) (parts : list jsstring) :
  parts ≠ [] → ∃ p ps, parts = p :: ps ∧ consHead c parts = (c :: p) :: ps.
Proof. destruct parts as [|p ps]; [done|]. by exists p, ps. Qed.

Lemma splitLines_nonempty (s : jsstring) : splitLines s ≠ [].
Proof.
  destruct s as [|c s]; [done|]. cbn [splitLines].
  destruct (c =? newline); [done|].
  assert (∀ parts, consHead c parts ≠ []) as Hc by (by intros [|??]).
  destruct s as [|d s]; [apply Hc|]. destruct (_ && _); [done|apply Hc].
Qed.

Lemma join_newline_cons_nil (parts : list jsstring) :
  parts ≠ [] → join [newline] ([] :: parts) = newline :: join [newline] parts.
Proof. by destruct parts. Qed.

Lemma join_consHead (c : N) (parts : list jsstring) :
  parts ≠ [] → join [newline] (consHead c parts) = c :: join [newline] parts.
Proof. destruct parts as [|p [|q ps]]; done. Qed.

Lemma splitLines_no_newline (s : jsstring) :
  Forall (λ l, newline ∉ l) (splitLines s).
Proof.
  assert (∀ n s, (length s ≤ n)%nat →
            Forall (λ l, newline ∉ l) (splitLines s)) as Hgen;
    [|by eapply Hgen].
  clear s. induction n as [|n IH]; intros s Hlen.
  { destruct s; [|cbn in Hlen; lia].
    constructor; [apply not_elem_of_nil|constructor]. }
  destruct s as [|c s].
  { constructor; [apply not_elem_of_nil|constructor]. }
  cbn [length] in Hlen. cbn [splitLines].
  destruct (N.eqb_spec c newline) as [->|Hc].
  { constructor; [apply not_elem_of_nil|]. apply IH. lia. }
  assert (Forall (λ l, newline ∉ l) (consHead c (splitLines s))) as Hcons.
  { destruct (consHead_cons c (splitLines s) (splitLines_nonempty s))
      as (p & ps & Hp & ->).
    assert (Forall (λ l, newline ∉ l) (splitLines s)) as Hs by (apply IH; lia).
    rewrite Hp in Hs. apply Forall_cons in Hs as [Hp1 Hps].
    constructor; [|done]. by apply not_elem_of_cons. }
  destruct s as [|d s]; [done|]. destruct (_ && _); [|done].
  constructor; [apply not_elem_of_nil|]. apply IH. cbn [length] in Hlen. lia.
Qed.

(** [X16] Splitting a text into lines loses nothing but the carriage
    returns in front of newlines: no line contains a newline, and for a
    text without carriage return, joining the lines by newlines gives
    the text back. *)
Theorem splitLines_join (s : jsstring) :
  Forall (λ l, newline ∉ l) (splitLines s)
  ∧ (carriageReturn ∉ s → join [newline] (splitLines s) = s).
Proof.
  split; [apply splitLines_no_newline|].
  induction s as [|c s IH]; [done|].
  intros [Hc Hs]%not_elem_of_cons. cbn [splitLines].
  rewrite (proj2 (N.eqb_neq c carriageReturn) (not_eq_sym Hc)). cbn [andb].
  destruct (c =? newline) eqn:Hnl.
  - apply N.eqb_eq in Hnl as ->.
    rewrite join_newline_cons_nil by apply splitLines_nonempty.
    by rewrite IH.
  - assert (join [newline] (consHead c (splitLines s)) = c :: s) as Hj.
    { rewrite join_consHead by apply splitLines_nonempty. by rewrite IH. }
    by destruct s.
Qed.

(** ** From the diff to the patch: one file, all hunks *)

Lemma join_app (sep : jsstring) (l1 l2 : list jsstring) :
  l1 ≠ [] → l2 ≠ [] →
  join sep (l1 ++ l2) = join sep l1 ++ sep ++ join sep l2.
Proof.
  intros H1 H2. induction l1 as [|x l1 IH]; [done|].
  destruct l1 as [|y l1].
  - by destruct l2.
  - change (join sep ((x :: y :: l1) ++ l2))
      with (x ++ sep ++ join sep ((y :: l1) ++ l2)).
    rewrite IH by done. cbn [join]. by rewrite <- !app_assoc.
Qed.

Lemma join_join (ls : list (list jsstring)) :
  Forall (λ l, l ≠ []) ls → ls ≠ [] →
  join [newline] (join [newline] <$> ls) = join [newline] (concat ls).
Proof.
  intros Hall _. induction Hall as [|l ls Hl Hall IH]; [done|].
  destruct ls as [|l' ls].
  - cbn. by rewrite app_nil_r.
  - change (join [newline] (join [newline] <$> l :: l' :: ls))
      with (join [newline] l ++ [newline]
            ++ join [newline] (join [newline] <$> l' :: ls)).
    rewrite IH. cbn [concat]. rewrite (join_app _ l); [done..|].
    apply Forall_cons in Hall as [Hl' _]. by destruct l'.
Qed.

Lemma collapse_cons (c : N) (b : jsstring) :
  c ≠ newline → collapseNewlineRuns (c :: b) = c :: collapseNewlineRuns b.
Proof. intros Hc. exact (collapse_split [] c b Hc). Qed.

Lemma collapse_line (l rest : jsstring) :
  newline ∉ l →
  collapseNewlineRuns (l ++ rest) = l ++ collapseNewlineRuns rest.
Proof.
  induction l as [|c l IH]; [done|]. intros [Hc Hl]%not_elem_of_cons.
  cbn [app]. rewrite collapse_cons by done. by rewrite IH.
Qed.

Lemma collapse_lines (lines : list jsstring) :
  Forall (λ l, newline ∉ l) lines → blankOnlyAtEnd lines → lines ≠ [] →
  collapseNewlineRuns (join [newline] lines ++ [newline])
  = join [newline] lines ++ [newline].
Proof.
  intros Hall. induction Hall as [|l lines Hl Hall IH]; [done|].
  intros Hblank _. destruct lines as [|l2 ls].
  - cbn [join]. rewrite collapse_line by done. reflexivity.
  - destruct Hblank as [Hne Hblank].
    change (join [newline] (l :: l2 :: ls))
      with (l ++ [newline] ++ join [newline] (l2 :: ls)).
    rewrite <- !app_assoc. rewrite collapse_line by done. f_equal.
    specialize (IH Hblank ltac:(done)).
    destruct l2 as [|c l2].
    + destruct ls as [|l3 ls]; [|by destruct Hblank].
      apply (collapse_newlines 2).
    + apply Forall_cons in Hall as [[Hc _]%not_elem_of_cons _].
      assert (∃ rest, join [newline] ((c :: l2) :: ls) ++ [newline] = c :: rest)
        as [rest Hrest] by (destruct ls; by eexists).
      rewrite Hrest in IH |- *.
      rewrite collapse_cons in IH by done.
      rewrite (collapse_split [newline] c rest) by done.
      change (collapseNewlineRuns [newline]) with [newline].
      by rewrite IH.
Qed.

Lemma setValues_const (l : list jsstring) (f : jsstring) :
  l ≠ [] → Forall (λ x, x = f) l → setValues l = [f].
Proof.
  intros Hne Hall.
  assert (∀ x, x ∈ setValues l → x = f) as Hf.
  { intros x Hx. apply (proj1 (elem_of_setValues _ _)) in Hx.
    rewrite Forall_forall in Hall. by apply Hall. }
  assert (f ∈ setValues l) as Hin.
  { apply elem_of_setValues. destruct Hall as [|x l -> _]; [done|].
    apply list_elem_of_here. }
  pose proof (NoDup_setValues l) as Hnd.
  destruct (setValues l) as [|x [|y vs]]; [by apply elem_of_nil in Hin| |].
  - f_equal. apply Hf, list_elem_of_here.
  - exfalso. apply NoDup_cons in Hnd as [Hx _]. apply Hx.
    rewrite (Hf x) by apply list_elem_of_here.
    rewrite (Hf y) by (apply list_elem_of_further, list_elem_of_here).
    apply list_elem_of_here.
Qed.

Lemma filter_file_all (hs : list Hunk.t) (f : jsstring) :
  Forall (λ h, Hunk.file h = f) hs → filter (λ h, Hunk.file h = f) hs = hs.
Proof.
  induction 1 as [|h hs Hh _ IH]; [done|].
  rewrite filter_cons_True by done. by rewrite IH.
Qed.

Section round_trip.
Context `{GitEnv} `{Sha1}.

Lemma startsFile_head (d : jsstring) :
  startsFile d = true → ∃ d', d = chr "d" :: d'.
Proof.
  destruct d as [|c d]; [done|]. unfold startsFile.
  change (str "diff --git ") with (chr "d" :: str "iff --git ").
  cbn [startsWith].
  intros [Hc _]%andb_true_iff. apply N.eqb_eq in Hc as <-. by eexists.
Qed.

(** The hunks of the lines after the first [@@] line of a file section
    that runs to the end of the diff. *)
Lemma diffLoop_single (body : list jsstring) fileHeader currentFile hunkLines :
  Forall (λ l, startsFile l = false) body → hunkLines ≠ [] →
  ∃ hs, diffLoop body fileHeader currentFile (InHunk hunkLines) = hs
    ∧ hs ≠ []
    ∧ Forall (λ h, Hunk.fileHeader h = fileHeader
                   ∧ Hunk.file h = Hunk.file (makeHunk fileHeader currentFile [])
                   ∧ Hunk.hunkLines h ≠ []) hs
    ∧ concat (Hunk.hunkLines <$> hs) = hunkLines ++ body.
Proof.
  intros Hall. revert hunkLines.
  induction Hall as [|l body Hl Hall IH]; intros hl Hhl; cbn [diffLoop].
  - eexists. split; [done|]. cbn [flushHunk]. split_and!; [done| |].
    + by repeat constructor.
    + cbn. by rewrite !app_nil_r.
  - unfold startsFile in Hl. rewrite Hl.
    destruct (startsWith (str "@@ ") l).
    + destruct (IH [l] ltac:(done)) as (hs & -> & _ & Hhs & Hcat).
      eexists. split; [done|]. cbn [flushHunk app]. split_and!; [done| |].
      * by constructor.
      * cbn [fmap list_fmap concat]. rewrite Hcat. cbn [Hunk.hunkLines makeHunk].
        done.
    + destruct (IH (hl ++ [l])) as (hs & -> & Hne & Hhs & Hcat);
        [by destruct hl|].
      exists hs. split_and!; [done..|]. by rewrite Hcat, <- app_assoc.
Qed.

(** [X17] Round trip for one file.  Let the diff be one file section: a
    [diff --git] line, meta lines, then hunks up to the end, with no
    line but the last empty.  A commit that references all hunks of the
    parsed diff in their order makes [applyPlan] send to the patch
    command the lines of the diff joined by newlines, followed by one
    newline. *)
Theorem single_file_patch_round_trip
    (diff : jsstring) (d hd : jsstring) (meta body : list jsstring)
    (hunkById : gmap jsstring Hunk.t) (c : PlanCommit.t) (st : St) :
  splitLines diff = d :: meta ++ hd :: body →
  startsFile d = true →
  Forall (λ l, boundary l = false) meta →
  startsHunk hd = true →
  Forall (λ l, startsFile l = false) body →
  blankOnlyAtEnd (splitLines diff) →
  Forall2 (λ id h, hunkById !! id = Some h)
          (PlanCommit.hunks c) (parseUnifiedDiff diff) →
  stageHunks hunkById c st
  = oneCall (Git.Call applyArgs
               (Some (join [newline] (splitLines diff) ++ [newline]))) st.
Proof.
  intros Hlines Hd Hmeta Hhd Hbody Hblank Hres.
  pose proof (splitLines_no_newline diff) as Hnonl.
  (* the hunks *)
  assert (∃ hs, parseUnifiedDiff diff = hs ∧ hs ≠ []
            ∧ Forall (λ h, Hunk.fileHeader h = d :: meta
                           ∧ Hunk.file h
                             = Hunk.file (makeHunk (d :: meta)
                                            (currentFileOf meta) [])
                           ∧ Hunk.hunkLines h ≠ []) hs
            ∧ concat (Hunk.hunkLines <$> hs) = hd :: body)
    as (hs & Hparse & Hne & Hhs & Hcat).
  { unfold parseUnifiedDiff. rewrite Hlines. cbn [diffLoop flushHunk app].
    unfold startsFile in Hd. rewrite Hd.
    rewrite diffLoop_meta by done. rewrite currentFileOf_foldl. cbn [app].
    fold (currentFileOf meta). cbn [diffLoop flushHunk].
    rewrite (startsHunk_not_file hd Hhd : startsWith _ hd = false).
    unfold startsHunk in Hhd. rewrite Hhd. cbn [app].
    by apply diffLoop_single. }
  rewrite Hparse in Hres. clear Hparse.
  set (f := Hunk.file (makeHunk (d :: meta) (currentFileOf meta) [])) in *.
  (* the parts *)
  unfold stageHunks. rewrite bind_unfold. unfold lift.
  change (@nil (jsstring * PatchEntry)) with (groupsOf []).
  rewrite (groupHunks_groupsOf _ _ [] hs Hres). cbn [app].
  rewrite patchPartsOf_groupsOf. unfold patchTextOf, patchPartsFor. cbn zeta.
  rewrite (setValues_const _ f).
  2:{ by destruct hs. }
  2:{ apply Forall_fmap. eapply Forall_impl; [exact Hhs|]. by intros h (_ & ? & _). }
  cbn [flat_map]. rewrite app_nil_r.
  rewrite filter_file_all
    by (eapply Forall_impl; [exact Hhs|]; by intros h (_ & ? & _)).
  assert (firstHeader f hs = d :: meta) as ->.
  { unfold firstHeader. rewrite filter_file_all
      by (eapply Forall_impl; [exact Hhs|]; by intros h (_ & ? & _)).
    destruct Hhs as [|h hs' (Hfh & _ & _) _]; [done|]. by cbn. }
  (* the text *)
  assert (join [newline]
            (join [newline] (d :: meta)
             :: ((λ h, join [newline] (Hunk.hunkLines h)) <$> hs) ++ [[]])
          = join [newline] (splitLines diff) ++ [newline]) as ->.
  { rewrite app_comm_cons.
    rewrite join_app; [|done..].
    change (join [newline] [[]]) with (@nil N). rewrite app_nil_r. f_equal.
    rewrite (list_fmap_compose Hunk.hunkLines (join [newline])).
    change (join [newline] (d :: meta) :: (join [newline] <$> (Hunk.hunkLines <$> hs)))
      with (join [newline] <$> ((d :: meta) :: (Hunk.hunkLines <$> hs))).
    rewrite join_join; [|constructor; [done|]|done].
    - cbn [concat]. by rewrite Hcat, Hlines.
    - apply Forall_fmap. eapply Forall_impl; [exact Hhs|].
      by intros h (_ & _ & ?). }
  rewrite collapse_lines; [|done..|by rewrite Hlines].
  (* not blank *)
  destruct (startsFile_head d Hd) as [d' ->]. rewrite Hlines.
  assert (∃ rest,
            join [newline] ((chr "d" :: d') :: meta ++ hd :: body) ++ [newline]
            = chr "d" :: rest) as [rest ->].
  { destruct (meta ++ hd :: body); by eexists. }
  unfold trim, trimStart. cbn [dropWhile].
  change (isWhiteSpace (chr "d")) with false. cbn iota.
  destruct (trimEnd_keeps_head (chr "d") rest) as [r ->]; [done|].
  cbn [truthy]. unfold runGitWithStdin. apply spawn_oneCall.
Qed.
End round_trip.

Lemma round_trip_witness :
  stageHunks (H := Succeeds.env []) DiffExample.hunkById DiffExample.commit
    (Succeeds.st0 [])
  = oneCall (H := Succeeds.env [])
      (Git.Call applyArgs
         (Some (join [newline] (splitLines DiffExample.diff) ++ [newline])))
      (Succeeds.st0 [])
  ∧ join [newline] (splitLines DiffExample.diff) = DiffExample.diff.
Proof.
  split; [|vm_compute; reflexivity].
  apply (single_file_patch_round_trip (H := Succeeds.env []) (H0 := fakeSha1)
           DiffExample.diff (str "diff --git a/f.txt b/f.txt")
           (str "@@ -1 +1 @@") [str "--- a/f.txt"; str "+++ b/f.txt"]
           ([str "-a"; str "+b"] ++ DiffExample.second)).
  - vm_compute. reflexivity.
  - reflexivity.
  - repeat constructor.
  - reflexivity.
  - repeat constructor.
  - vm_compute. repeat split; discriminate.
  - vm_compute. repeat constructor.
Defined.

(** ** SnapshotReconciler: deduplication, retained hunks, commands *)

Lemma mapGet_mapSet {V} (k k' : jsstring) (v : V) (m : list (jsstring * V)) :
  mapGet k' (mapSet k v m) = if decide (k' = k) then Some v else mapGet k' m.
Proof.
  induction m as [|[k0 v0] m IH]; cbn [mapSet mapGet].
  - destruct (decide (k = k')) as [->|Hk].
    + by rewrite decide_True.
    + by rewrite decide_False by done.
  - destruct (decide (k0 = k)) as [->|Hk0]; cbn [mapGet].
    + destruct (decide (k = k')) as [->|Hk].
      * by rewrite decide_True.
      * by rewrite decide_False by done.
    + destruct (decide (k0 = k')) as [->|Hk0'].
      * by rewrite decide_False by done.
      * apply IH.
Qed.

Lemma fst_mapSet {V} (k : jsstring) (v : V) (m : list (jsstring * V)) :
  fst <$> mapSet k v m
  = if decide (k ∈ fst <$> m) then fst <$> m else (fst <$> m) ++ [k].
Proof.
  induction m as [|[k0 v0] m IH]; cbn [mapSet fmap list_fmap fst].
  - by rewrite decide_False by apply not_elem_of_nil.
  - destruct (decide (k0 = k)) as [->|Hk0]; cbn [fmap list_fmap fst].
    + by rewrite decide_True by apply list_elem_of_here.
    + change (list_fmap _ _ fst (mapSet k v m)) with (fst <$> mapSet k v m).
      change (list_fmap _ _ fst m) with (fst <$> m). rewrite IH.
      destruct (decide (k ∈ fst <$> m)) as [Hin|Hin].
      * by rewrite decide_True by (by apply list_elem_of_further).
      * rewrite decide_False; [done|].
        intros [->|?]%elem_of_cons; done.
Qed.

Lemma Forall_mapSet {V} (P : jsstring * V → Prop) k v (m : list (jsstring * V)) :
  Forall P m → P (k, v) → Forall P (mapSet k v m).
Proof.
  intros Hall Hkv. induction Hall as [|[k0 v0] m H0 Hall IH]; cbn [mapSet].
  - by repeat constructor.
  - destruct (decide (k0 = k)); by constructor.
Qed.

Lemma elem_of_mapGet {V} (k : jsstring) (v : V) (m : list (jsstring * V)) :
  NoDup (fst <$> m) → (k, v) ∈ m ↔ mapGet k m = Some v.
Proof.
  induction m as [|[k0 v0] m IH]; cbn [fmap list_fmap fst mapGet]; intros Hnd.
  - split; [by intros ?%elem_of_nil|done].
  - apply NoDup_cons in Hnd as [Hk0 Hnd]. rewrite elem_of_cons, IH by done.
    destruct (decide (k0 = k)) as [->|Hne].
    + split.
      * intros [[= ->]|Hget]; [done|]. exfalso. apply Hk0.
        apply IH in Hget; [|done].
        by apply (list_elem_of_fmap_2 fst) in Hget.
      * intros [= ->]. by left.
    + split; [|by right]. intros [[= ? ?]|?]; [congruence|done].
Qed.

Lemma opsMap_snoc (ops : list FileOp.t) (op : FileOp.t) :
  opsMap (ops ++ [op]) = mapSet (FileOp.id op) op (opsMap ops).
Proof. unfold opsMap. by rewrite foldl_snoc. Qed.

Lemma opsMap_keys (ops : list FileOp.t) :
  fst <$> opsMap ops = setValues (FileOp.id <$> ops).
Proof.
  induction ops as [|op ops IH] using rev_ind; [done|].
  rewrite opsMap_snoc, fst_mapSet, fmap_app.
  change (FileOp.id <$> [op]) with [FileOp.id op].
  rewrite setValues_snoc, IH.
  destruct (decide (FileOp.id op ∈ FileOp.id <$> ops)) as [Hin|Hin].
  - by rewrite decide_True by (by apply elem_of_setValues).
  - rewrite decide_False; [done|]. intros Hs. apply Hin.
    by apply (proj1 (elem_of_setValues _ _)) in Hs.
Qed.

Lemma opsMap_get (ops : list FileOp.t) (k : jsstring) :
  mapGet k (opsMap ops) = last (filter (λ o, FileOp.id o = k) ops).
Proof.
  induction ops as [|op ops IH] using rev_ind; [done|].
  rewrite opsMap_snoc, mapGet_mapSet, filter_app.
  destruct (decide (k = FileOp.id op)) as [->|Hk].
  - rewrite (filter_cons_True _ op) by done. by rewrite filter_nil, last_snoc.
  - rewrite (filter_cons_False _ op) by congruence.
    by rewrite filter_nil, app_nil_r.
Qed.

Lemma opsMap_ids (ops : list FileOp.t) :
  Forall (λ kv, FileOp.id kv.2 = kv.1) (opsMap ops).
Proof.
  induction ops as [|op ops IH] using rev_ind; [constructor|].
  rewrite opsMap_snoc. by apply Forall_mapSet.
Qed.

Lemma dedupeOps_ids (ops : list FileOp.t) :
  FileOp.id <$> dedupeOps ops = setValues (FileOp.id <$> ops).
Proof.
  rewrite <- opsMap_keys. unfold dedupeOps. fold (opsMap ops).
  rewrite <- list_fmap_compose. apply list_fmap_ext.
  intros i [k v] Hi. apply list_elem_of_lookup_2 in Hi.
  pose proof (opsMap_ids ops) as Hall. rewrite Forall_forall in Hall.
  by apply Hall in Hi.
Qed.

Lemma elem_of_dedupeOps (ops : list FileOp.t) (op : FileOp.t) :
  op ∈ dedupeOps ops
  ↔ last (filter (λ o, FileOp.id o = FileOp.id op) ops) = Some op.
Proof.
  unfold dedupeOps. fold (opsMap ops). rewrite <- opsMap_get.
  assert (NoDup (fst <$> opsMap ops)) as Hnd
    by (rewrite opsMap_keys; apply NoDup_setValues).
  rewrite <- elem_of_mapGet by done. rewrite list_elem_of_fmap. split.
  - intros ([k v] & -> & Hin). cbn [snd].
    pose proof (opsMap_ids ops) as Hall. rewrite Forall_forall in Hall.
    pose proof (Hall _ Hin) as Hk. cbn [fst snd] in Hk. by rewrite Hk.
  - intros Hin. by exists (FileOp.id op, op).
Qed.

(** [X18] [dedupeOps] keeps one operation per id: the ids of the result
    are the ids of the input in the order of their first occurrence,
    without repetition, and the operation kept for an id is the last
    one of the input with that id. *)
Theorem dedupeOps_last_wins (ops : list FileOp.t) :
  FileOp.id <$> dedupeOps ops = setValues (FileOp.id <$> ops)
  ∧ NoDup (FileOp.id <$> dedupeOps ops)
  ∧ ∀ op, op ∈ dedupeOps ops
          ↔ last (filter (λ o, FileOp.id o = FileOp.id op) ops) = Some op.
Proof.
  split_and!.
  - apply dedupeOps_ids.
  - rewrite dedupeOps_ids. apply NoDup_setValues.
  - apply elem_of_dedupeOps.
Qed.

Lemma dedupeOps_subset (ops : list FileOp.t) (op : FileOp.t) :
  op ∈ dedupeOps ops → op ∈ ops.
Proof.
  intros Hin%elem_of_dedupeOps. apply last_Some_elem_of in Hin.
  by apply list_elem_of_filter in Hin as [_ ?].
Qed.

Section snapshot.
Context `{GitEnv} `{Sha1}.

(** [X19] What a snapshot is made of.  Its operations have pairwise
    distinct ids and each is an operation of the status or a binary
    operation of the diff.  Its hunks are exactly the hunks of the diff
    whose file is neither unsplittable by the status nor the path of an
    operation of the snapshot. *)
Theorem snapshot_contents
    (statusOps : list FileOp.t) (unsplittablePaths : gset jsstring)
    (diff : jsstring) :
  let snapshot := reconcile statusOps unsplittablePaths diff in
  NoDup (FileOp.id <$> Snapshot.ops snapshot)
  ∧ (∀ op, op ∈ Snapshot.ops snapshot →
           op ∈ statusOps ∨ op ∈ extractBinaryOpsFromDiff diff)
  ∧ (∀ h, h ∈ Snapshot.hunks snapshot
          ↔ h ∈ parseUnifiedDiff diff
            ∧ (Hunk.file h ∉ unsplittablePaths)
            ∧ (∀ op, op ∈ Snapshot.ops snapshot →
                     FileOp.path op ≠ Hunk.file h)).
Proof.
  cbn zeta. unfold reconcile. cbn [Snapshot.ops Snapshot.hunks]. split_and!.
  - rewrite dedupeOps_ids. apply NoDup_setValues.
  - intros op Hin%dedupeOps_subset. by apply elem_of_app in Hin.
  - intros h. rewrite list_elem_of_filter, elem_of_unsplittable. split.
    + intros [Hnot Hin]. split_and!; [done| |].
      * intros Hp. apply Hnot. by left.
      * intros op Hop Hp. apply Hnot. right. by exists op.
    + intros (Hin & Hnot & Hops). split; [|done].
      intros [Hp|(op & Hop & Hp)]; [done|]. by apply (Hops op).
Qed.

(** The status command of the snapshot, unfolded. *)
Lemma collect_unfold (includeUntracked : bool) (st : St) :
  collectWorkingTreeSnapshot includeUntracked st
  = match spawnGit (Git.Call (statusArgs includeUntracked) None) (world st) with
    | (w1, inl detail) =>
        (mkSt _ w1 (log st ++ [(Git.Call (statusArgs includeUntracked) None,
                                inl detail)]),
         inl (GitFailed (statusArgs includeUntracked) detail))
    | (w1, inr raw) =>
        let st1 := mkSt _ w1
                     (log st ++ [(Git.Call (statusArgs includeUntracked) None,
                                  inr raw)]) in
        if Status.hasUnmerged (parsePorcelainV2Z raw)
        then (st1, inl UnmergedNotSupported)
        else
          match spawnGit (Git.Call revParseArgs None) w1 with
          | (w2, o) =>
              let headExists := match o with inr _ => true | inl _ => false end in
              let st2 := mkSt _ w2 (log st1 ++ [(Git.Call revParseArgs None, o)]) in
              match spawnGit (Git.Call (diffArgs headExists) None) w2 with
              | (w3, inl detail) =>
                  (mkSt _ w3 (log st2 ++ [(Git.Call (diffArgs headExists) None,
                                           inl detail)]),
                   inl (GitFailed (diffArgs headExists) detail))
              | (w3, inr diff) =>
                  (mkSt _ w3 (log st2 ++ [(Git.Call (diffArgs headExists) None,
                                           inr diff)]),
                   inr (reconcile (Status.ops (parsePorcelainV2Z raw))
                          (Status.unsplittablePaths (parsePorcelainV2Z raw))
                          diff))
              end
          end
    end.
Proof.
  unfold collectWorkingTreeSnapshot. rewrite bind_unfold.
  unfold runGit at 1, spawn at 1.
  change [str "--no-optional-locks"; str "status"; str "--porcelain=v2";
          str "-z";
          if includeUntracked then str "--untracked-files=all"
          else str "--untracked-files=no"]
    with (statusArgs includeUntracked).
  destruct (spawnGit (Git.Call (statusArgs includeUntracked) None) (world st))
    as [w1 [detail|raw]]; [done|].
  cbn zeta. rewrite bind_unfold.
  destruct (Status.hasUnmerged (parsePorcelainV2Z raw)); [done|].
  cbn [mret M_ret ret]. rewrite bind_unfold.
  unfold hasHead, tryCatch. rewrite bind_unfold.
  unfold runGit at 1, spawn at 1. cbn [world log].
  change [str "rev-parse"; str "--verify"; str "HEAD"] with revParseArgs.
  destruct (spawnGit (Git.Call revParseArgs None) w1) as [w2 [d|out]];
    cbn [mret M_ret ret]; rewrite bind_unfold;
    unfold runGit, spawn; cbn [world log diffArgs];
    by destruct (spawnGit _ w2) as [w3 [d3|diff]].
Qed.

(** [X20] Taking a snapshot only reads the repository: it runs at most
    three commands, none with standard input, and each is the status
    command, [rev-parse --verify HEAD], or the diff command with or
    without [HEAD]. *)
Theorem snapshot_reads_only
    (includeUntracked : bool) (st st' : St) (r : Error + Snapshot.t) :
  collectWorkingTreeSnapshot includeUntracked st = (st', r) →
  ∃ new : list (Git.call * Git.outcome),
    log st' = log st ++ new
    ∧ (length new ≤ 3)%nat
    ∧ Forall (λ e, Git.stdin e.1 = None
                   ∧ (Git.args e.1 = statusArgs includeUntracked
                      ∨ Git.args e.1 = revParseArgs
                      ∨ Git.args e.1 = diffArgs true
                      ∨ Git.args e.1 = diffArgs false)) new.
Proof.
  rewrite collect_unfold.
  assert (∀ o : Git.outcome,
            Git.stdin (Git.Call (statusArgs includeUntracked) None, o).1 = None
               ∧ (Git.args (Git.Call (statusArgs includeUntracked) None, o).1
                  = statusArgs includeUntracked
                  ∨ Git.args (Git.Call (statusArgs includeUntracked) None, o).1
                    = revParseArgs
                  ∨ Git.args (Git.Call (statusArgs includeUntracked) None, o).1
                    = diffArgs true
                  ∨ Git.args (Git.Call (statusArgs includeUntracked) None, o).1
                    = diffArgs false)) as Hstatus.
  { intros o. split; [reflexivity|]. left. reflexivity. }
  destruct (spawnGit (Git.Call (statusArgs includeUntracked) None) (world st))
    as [w1 [detail|raw]].
  { intros [= <- <-]. eexists. split; [done|]. split; [cbn [length]; lia|].
    constructor; [apply Hstatus|constructor]. }
  cbn zeta. destruct (Status.hasUnmerged (parsePorcelainV2Z raw)).
  { intros [= <- <-]. eexists. split; [done|]. split; [cbn [length]; lia|].
    constructor; [apply Hstatus|constructor]. }
  destruct (spawnGit (Git.Call revParseArgs None) w1) as [w2 o].
  set (headExists := match o with inr _ => true | inl _ => false end).
  destruct (spawnGit (Git.Call (diffArgs headExists) None) w2)
    as [w3 [d3|diff]];
    intros [= <- <-]; cbn [log]; rewrite <- !app_assoc;
    (eexists; split; [done|]); (split; [cbn [length app]; lia|]);
    cbn [app];
    (constructor; [apply Hstatus|]);
    (constructor; [split; [reflexivity|right; left; reflexivity]|]);
    (constructor; [|constructor]);
    (split; [reflexivity|]); cbn [fst Git.args];
    destruct headExists; [right; right; left|right; right; right
                         |right; right; left|right; right; right];
    reflexivity.
Qed.

(** [X21] A repository without [HEAD] is no error.  When the status
    command succeeds without conflicts and [rev-parse --verify HEAD]
    fails, the snapshot runs the diff command without [HEAD]; when that
    succeeds, the snapshot is built from the status and this diff. *)
Theorem snapshot_without_head
    (includeUntracked : bool) (st : St) (w1 w2 w3 : World)
    (raw detail diff : jsstring) :
  spawnGit (Git.Call (statusArgs includeUntracked) None) (world st)
  = (w1, inr raw) →
  Status.hasUnmerged (parsePorcelainV2Z raw) = false →
  spawnGit (Git.Call revParseArgs None) w1 = (w2, inl detail) →
  spawnGit (Git.Call (diffArgs false) None) w2 = (w3, inr diff) →
  collectWorkingTreeSnapshot includeUntracked st
  = (mkSt _ w3
       (log st ++ [(Git.Call (statusArgs includeUntracked) None, inr raw);
                   (Git.Call revParseArgs None, inl detail);
                   (Git.Call (diffArgs false) None, inr diff)]),
     inr (reconcile (Status.ops (parsePorcelainV2Z raw))
            (Status.unsplittablePaths (parsePorcelainV2Z raw)) diff)).
Proof.
  intros Hstatus Hunmerged Hrev Hdiff.
  rewrite collect_unfold, Hstatus. cbn zeta.
  rewrite Hunmerged, Hrev, Hdiff. cbn [log]. by rewrite <- !app_assoc.
Qed.

(** [X22] Conflicts stop the snapshot at once.  When the status text
    raises the conflict flag, the snapshot fails with the
    unmerged-changes error and has run the status command only. *)
Theorem snapshot_stops_on_conflicts
    (includeUntracked : bool) (st : St) (w1 : World) (raw : jsstring) :
  spawnGit (Git.Call (statusArgs includeUntracked) None) (world st)
  = (w1, inr raw) →
  Status.hasUnmerged (parsePorcelainV2Z raw) = true →
  collectWorkingTreeSnapshot includeUntracked st
  = (mkSt _ w1
       (log st ++ [(Git.Call (statusArgs includeUntracked) None, inr raw)]),
     inl UnmergedNotSupported).
Proof.
  intros Hstatus Hunmerged.
  rewrite collect_unfold, Hstatus. cbn zeta. by rewrite Hunmerged.
Qed.
End snapshot.

Lemma snapshot_reads_only_witness :
  ∃ new,
    log (collectWorkingTreeSnapshot (H := Canned.env) (H0 := fakeSha1)
           true Canned.st0).1
    = log Canned.st0 ++ new
    ∧ (length new ≤ 3)%nat.
Proof.
  destruct (snapshot_reads_only (H := Canned.env) (H0 := fakeSha1) true
              Canned.st0
              (collectWorkingTreeSnapshot (H := Canned.env) (H0 := fakeSha1)
                 true Canned.st0).1
              (collectWorkingTreeSnapshot (H := Canned.env) (H0 := fakeSha1)
                 true Canned.st0).2)
    as (new & Hlog & Hlen & _).
  - by destruct (collectWorkingTreeSnapshot _ _).
  - exists new. split; [exact Hlog|exact Hlen].
Defined.

Lemma snapshot_without_head_witness :
  collectWorkingTreeSnapshot (H := NoHead.env) (H0 := fakeSha1) true NoHead.st0
  = (mkSt NoHead.env tt
       [(Git.Call (statusArgs true) None, inr Canned.statusText);
        (Git.Call revParseArgs None, inl NoHead.detail);
        (Git.Call (diffArgs false) None, inr Canned.diffText)],
     inr (reconcile (H := fakeSha1)
            (Status.ops (parsePorcelainV2Z (H := fakeSha1) Canned.statusText))
            (Status.unsplittablePaths
               (parsePorcelainV2Z (H := fakeSha1) Canned.statusText))
            Canned.diffText)).
Proof.
  apply (snapshot_without_head (H := NoHead.env) (H0 := fakeSha1) true
           NoHead.st0 tt tt tt Canned.statusText NoHead.detail Canned.diffText).
  - vm_compute. reflexivity.
  - vm_compute. reflexivity.
  - vm_compute. reflexivity.
  - vm_compute. reflexivity.
Defined.

Lemma snapshot_conflicts_witness :
  collectWorkingTreeSnapshot (H := Conflicted.env) (H0 := fakeSha1)
    true Conflicted.st0
  = (mkSt Conflicted.env tt
       [(Git.Call (statusArgs true) None, inr Conflicted.statusText)],
     inl UnmergedNotSupported).
Proof.
  apply (snapshot_stops_on_conflicts (H := Conflicted.env) (H0 := fakeSha1)
           true Conflicted.st0 tt Conflicted.statusText).
  - vm_compute. reflexivity.
  - vm_compute. reflexivity.
Defined.

(** ** JsonObjectExtractor: the text around the object *)

(** [X23] The extracted object does not depend on the text around it:
    an object extracted from some text is extracted again from the
    object itself, and from the object put after any text without an
    opening brace and before any text at all. *)
Theorem extractJson_ignores_surroundings (text obj pre post : jsstring) :
  extractJsonObjectBalanced text = inr obj →
  lbraceC ∉ pre →
  extractJsonObjectBalanced obj = inr obj
  ∧ extractJsonObjectBalanced (pre ++ obj ++ post) = inr obj.
Proof.
  intros (pre0 & inner & post0 & _ & _ & Hinner & ->)%extractJson_inr Hpre.
  split; apply extractJson_inr.
  - exists [], inner, []. split_and!; [|apply not_elem_of_nil|done..].
    by rewrite !app_nil_r.
  - exists pre, inner, post. split_and!; [|done..].
    by rewrite <- !app_assoc.
Qed.

Lemma extractJson_surroundings_witness :
  extractJsonObjectBalanced JsonExample.text = inr JsonExample.object
  ∧ extractJsonObjectBalanced JsonExample.object = inr JsonExample.object
  ∧ extractJsonObjectBalanced
      (str "Plan: " ++ JsonExample.object ++ str " } {")
    = inr JsonExample.object.
Proof.
  assert (extractJsonObjectBalanced JsonExample.text = inr JsonExample.object)
    as Hex by (vm_compute; reflexivity).
  split; [exact Hex|].
  apply (extractJson_ignores_surroundings JsonExample.text JsonExample.object
           (str "Plan: ") (str " } {") Hex).
  apply (bool_decide_unpack _). vm_compute. exact I.
Defined.

(** ** PlanApplier: cancellation, and the commands of a commit *)

Section applier_trace.
Context `{GitEnv}.

(** [X24] When cancellation is already requested, [applyPlan] runs no
    command and returns normally, whatever the plan is. *)
Theorem applyPlan_cancelled_is_noop
    (plan : Plan.t) (hunks : list Hunk.t) (ops : list FileOp.t) (st : St) :
  isCancellationRequested (world st) = true →
  applyPlan plan hunks ops st = (st, inr tt).
Proof.
  intros Hcancel. unfold applyPlan.
  destruct (Plan.commits plan) as [|c commits]; [done|].
  cbn [applyCommits]. by rewrite Hcancel.
Qed.




End applier_trace.

Lemma applyPlan_cancelled_witness :
  applyPlan (H := Cancelled.env) Sample.plan [Sample.h1; Sample.h2]
    [Sample.opAdd] Cancelled.st0
  = (Cancelled.st0, inr tt).
Proof.
  apply (applyPlan_cancelled_is_noop (H := Cancelled.env) Sample.plan
           [Sample.h1; Sample.h2] [Sample.opAdd] Cancelled.st0).
  reflexivity.
Defined.


(** ** StatusParser and [makeOp]: paths and identity *)

Section status_paths.
Context `{Sha1}.

(** [X26] The unsplittable paths of the status parser are exactly the
    paths of the operations it returns. *)
Theorem status_unsplittable_are_op_paths (raw p : jsstring) :
  p ∈ Status.unsplittablePaths (parsePorcelainV2Z raw)
  ↔ ∃ op, op ∈ Status.ops (parsePorcelainV2Z raw) ∧ FileOp.path op = p.
Proof.
  revert p. unfold parsePorcelainV2Z.
  apply (parseLoop_invariant
           (λ st, ∀ p, p ∈ Status.unsplittablePaths st
                       ↔ ∃ op, op ∈ Status.ops st ∧ FileOp.path op = p)).
  - intros t next st Hst.
    assert (∀ kind path origPath p,
              p ∈ Status.unsplittablePaths
                    (Status.push (makeOp kind path origPath) path st)
              ↔ ∃ op, op ∈ Status.ops
                             (Status.push (makeOp kind path origPath) path st)
                      ∧ FileOp.path op = p) as Hpush.
    { intros kind path origPath p. cbn [Status.push Status.unsplittablePaths
                                         Status.ops].
      rewrite elem_of_union, elem_of_singleton, Hst. split.
      - intros [->|(op & Hop & Hp)].
        + exists (makeOp kind path origPath). split; [|done].
          apply elem_of_app. right. apply list_elem_of_here.
        + exists op. split; [|done]. apply elem_of_app. by left.
      - intros (op & [Hop|Hop]%elem_of_app & Hp).
        + right. by exists op.
        + apply list_elem_of_singleton in Hop as ->. by left. }
    unfold parseRecord.
    repeat match goal with
           | |- context [if ?b then _ else _] => destruct b
           end; cbn [fst]; try done; apply Hpush.
  - intros p. cbn. split; [by intros ?%elem_of_empty|].
    by intros (op & ?%elem_of_nil & _).
Qed.

Lemma kindName_no_bar (kind : FileOpKind) : chr "|" ∉ kindName kind.
Proof. destruct kind; apply (bool_decide_unpack _); vm_compute; exact I. Qed.

Lemma kindName_inj (k1 k2 : FileOpKind) : kindName k1 = kindName k2 → k1 = k2.
Proof. destruct k1, k2; try done; vm_compute; discriminate. Qed.

Lemma opBase_split (kind : FileOpKind) (path : jsstring)
    (origPath : option jsstring) :
  chr "|" ∉ default [] origPath →
  split (chr "|") (opBase kind path origPath)
  = kindName kind :: default [] origPath :: split (chr "|") path.
Proof.
  intros Ho. unfold opBase. change (str "|") with [chr "|"]. cbn [app].
  rewrite split_app_sep by apply kindName_no_bar.
  by rewrite split_app_sep.
Qed.

(** [X27] The id of an operation is [op] with ten digits of the digest
    of kind, source path and path joined by bars.  When the source
    paths have no bar, two operations with the same such text have the
    same kind, path and source path; but a bar in a source path is not
    told apart from the separator, so that moving the part after it to
    the front of the path gives the same id. *)
Theorem op_identity_text :
  (∀ kind path origPath,
     FileOp.id (makeOp kind path origPath)
     = str "op" ++ take 10 (sha1hex (opBase kind path origPath)))
  ∧ (∀ k1 k2 p1 p2 o1 o2,
       chr "|" ∉ default [] o1 → chr "|" ∉ default [] o2 →
       opBase k1 p1 o1 = opBase k2 p2 o2 →
       k1 = k2 ∧ p1 = p2 ∧ default [] o1 = default [] o2)
  ∧ (∀ kind a b c,
       FileOp.id (makeOp kind c (Some (a ++ str "|" ++ b)))
       = FileOp.id (makeOp kind (b ++ str "|" ++ c) (Some a))).
Proof.
  split_and!.
  - reflexivity.
  - intros k1 k2 p1 p2 o1 o2 H1 H2 Heq.
    apply (f_equal (split (chr "|"))) in Heq.
    rewrite !opBase_split in Heq by done.
    injection Heq as Hk Ho Hp. split_and!; [by apply kindName_inj| |done].
    by rewrite <- (join_split (chr "|") p1), Hp, join_split.
  - intros kind a b c. unfold makeOp. cbn [FileOp.id]. do 4 f_equal.
    change (str "|" ++ (a ++ str "|" ++ b) ++ str "|" ++ c
            = str "|" ++ a ++ str "|" ++ b ++ str "|" ++ c).
    by rewrite <- !app_assoc.
Qed.
End status_paths.
